(** * file-watcher-gomplate: configuration acquisition and normalisation

    A shallow embedding of [src/config.js] and a verification of the
    properties its specification states about it.

    The module is JavaScript running on Node.js.  Its own code is embedded
    function by function under the names it has in the source.  What it
    calls from the platform and from libraries is modelled separately:

    - [URL], [YAML.parse], [yargs-parser], [path.parse]/[path.join],
      [JSON.parse], [fs.readFile] and [child_process.execFile] are
      parameters of the development (Section variables);
    - the part of [@hapi/joi] (version 15, the one whose
      [alternatives().try] takes an array) that the schemas use is modelled
      in [Module Joi];
    - the part of lodash's [template] and [partition] that the module uses
      is modelled in [Module Lodash]. *)

From Stdlib Require Import String Ascii List ZArith Bool Arith Lia Permutation.
Import ListNotations.
Open Scope string_scope.
Open Scope list_scope.

(** ** JavaScript values *)

(** A compiled lodash template: literal text and interpolated expressions. *)
Inductive segment : Type :=
| Lit (text : string)
| Interp (expr : string).

Unset Elimination Schemes.
Inductive jsval : Type :=
| VUndefined
| VNull
| VBool (b : bool)
| VNum (n : Z)                         (* integer-valued numbers only *)
| VStr (s : string)
| VArr (items : list jsval)
| VObj (props : list (string * jsval)) (* own properties, in key order *)
| VTemplate (source : list segment).   (* function made by lodash template *)
Set Elimination Schemes.

(** What a JavaScript computation can throw. *)
Record detail : Type := { d_path : list jsval; d_type : string }.

Inductive exn : Type :=
| Error (message : string)                    (* new Error(message) *)
| ReferenceError (identifier : string)        (* <identifier> is not defined *)
| TypeError (message : string)
| SyntaxError (message : string)               (* a source that does not parse *)
| SystemError (code : string) (message : string) (* fs / child_process *)
| ValidationError (details : list detail)     (* Joi, name 'ValidationError' *)
| Unmodelled (what : string).                 (* behaviour outside this model *)

Inductive result (A : Type) : Type :=
| Ok (a : A)
| Throw (e : exn).
Arguments Ok {A} a.
Arguments Throw {A} e.

Definition bind {A B} (r : result A) (k : A -> result B) : result B :=
  match r with
  | Ok a => k a
  | Throw e => Throw e
  end.

Declare Scope js_scope.
Delimit Scope js_scope with js.
Notation "x <- r ;; k" := (bind r (fun x => k))
  (at level 61, r at next level, right associativity) : js_scope.
Notation "' p <- r ;; k" := (bind r (fun x => let 'p := x in k))
  (at level 61, p pattern, r at next level, right associativity) : js_scope.
Open Scope js_scope.

(** [err.code] of a thrown value. *)
Definition code (e : exn) : jsval :=
  match e with
  | SystemError c _ => VStr c
  | _ => VUndefined
  end.

(** ToBoolean. *)
Definition truthy (v : jsval) : bool :=
  match v with
  | VUndefined | VNull => false
  | VBool b => b
  | VNum n => negb (n =? 0)%Z
  | VStr s => negb (s =? EmptyString)
  | VArr _ | VObj _ | VTemplate _ => true
  end.

(** [a === b].  Arrays, objects and functions are equal only to themselves
    by reference; the model has no references and two such operands that
    are compared here always come from different places of a document, so
    they are never equal. *)
Definition strict_eq (a b : jsval) : bool :=
  match a, b with
  | VUndefined, VUndefined => true
  | VNull, VNull => true
  | VBool x, VBool y => Bool.eqb x y
  | VNum x, VNum y => (x =? y)%Z
  | VStr x, VStr y => (x =? y)
  | _, _ => false
  end.

(** ** Objects as ordered property lists *)

(** An object is the list of its own properties in the order
    [Object.keys] gives them.  A key is looked up at its first occurrence;
    the objects built here never hold a key twice. *)

Fixpoint lookup (k : string) (o : list (string * jsval)) : option jsval :=
  match o with
  | [] => None
  | (k', v) :: o' => if k' =? k then Some v else lookup k o'
  end.

(** [o[k]] on an object: [undefined] when the key is absent. *)
Definition get (k : string) (o : list (string * jsval)) : jsval :=
  match lookup k o with
  | Some v => v
  | None => VUndefined
  end.

(** [o[k] = v]: an existing key keeps its place, a new key goes last. *)
Fixpoint set (k : string) (v : jsval) (o : list (string * jsval))
  : list (string * jsval) :=
  match o with
  | [] => [(k, v)]
  | (k', v') :: o' => if k' =? k then (k, v) :: o' else (k', v') :: set k v o'
  end.

(** [delete o[k]]. *)
Definition delete (k : string) (o : list (string * jsval))
  : list (string * jsval) :=
  filter (fun kv => negb (fst kv =? k)) o.

(** [Object.keys(o)].  (Keys that are array indices would come first in
    JavaScript; the keys of this module are flag and field names.) *)
Definition keys (o : list (string * jsval)) : list string := map fst o.

(** [Object.assign(target, source)]. *)
Definition assign (target source : list (string * jsval))
  : list (string * jsval) :=
  fold_left (fun t kv => set (fst kv) (snd kv) t) source target.

(** [!l.length] *)
Definition is_nil {A} (l : list A) : bool :=
  match l with [] => true | _ => false end.

(** ** Strings *)

Definition is_digit (c : ascii) : bool :=
  let n := nat_of_ascii c in ((48 <=? n) && (n <=? 57))%nat.
Definition is_upper (c : ascii) : bool :=
  let n := nat_of_ascii c in ((65 <=? n) && (n <=? 90))%nat.
Definition is_lower (c : ascii) : bool :=
  let n := nat_of_ascii c in ((97 <=? n) && (n <=? 122))%nat.
Definition is_alpha (c : ascii) : bool := is_upper c || is_lower c.
Definition is_alnum (c : ascii) : bool := is_alpha c || is_digit c.

(** The regular-expression class [\w]. *)
Definition is_word (c : ascii) : bool := is_alnum c || Ascii.eqb c "_".

Fixpoint forallb_string (p : ascii -> bool) (s : string) : bool :=
  match s with
  | EmptyString => true
  | String c r => p c && forallb_string p r
  end.

(** [s.toLowerCase()], on ASCII. *)
Definition lower (c : ascii) : ascii :=
  if is_upper c then ascii_of_nat (nat_of_ascii c + 32) else c.

Fixpoint toLowerCase (s : string) : string :=
  match s with
  | EmptyString => EmptyString
  | String c r => String (lower c) (toLowerCase r)
  end.

(** [s.startsWith(p)]. *)
Definition startsWith (p s : string) : bool := String.prefix p s.

(** [s.indexOf(c)], as [None] for -1. *)
Fixpoint indexOf (c : ascii) (s : string) : option nat :=
  match s with
  | EmptyString => None
  | String c' r =>
      if Ascii.eqb c' c then Some 0
      else match indexOf c r with Some i => Some (S i) | None => None end
  end.

(** [s.substring(n)]. *)
Fixpoint substring_from (n : nat) (s : string) : string :=
  match n, s with
  | 0, _ => s
  | S n', String _ r => substring_from n' r
  | S _, EmptyString => EmptyString
  end.

(** Does [sub] occur in [s]? *)
Fixpoint occurs (sub s : string) : bool :=
  String.prefix sub s ||
  match s with
  | EmptyString => false
  | String _ r => occurs sub r
  end.

(** The longest prefix of [s] made of [\w] characters, and the rest. *)
Fixpoint span_word (s : string) : string * string :=
  match s with
  | EmptyString => (EmptyString, EmptyString)
  | String c r =>
      if is_word c
      then let (w, rest) := span_word r in (String c w, rest)
      else (EmptyString, s)
  end.

(** ** lodash *)

Module Lodash.

(** A delimiter regular expression, as the function that tries it at the
    start of a text: the text captured by group 1 and the length of the
    whole match. *)
Definition delimiter : Type := string -> option (string * nat).

Definition flush (lit : string) : list segment :=
  match lit with
  | EmptyString => []
  | _ => [Lit lit]
  end.

(** The pass [string.replace(reDelimiters, ...)] of [template], for the
    [interpolate] delimiter: the text is scanned from the left, at every
    position not inside an earlier match the delimiter is tried, and the
    text between matches is kept as it is.  [skip] counts the characters
    of the current match still to step over, [lit] is the literal text
    gathered since the last match. *)
Fixpoint scan (interpolate : delimiter) (s : string) (skip : nat)
  (lit : string) : list segment :=
  match s with
  | EmptyString => flush lit
  | String c r =>
      match skip with
      | S k => scan interpolate r k lit
      | 0 =>
          match interpolate s with
          | Some (e, len) =>
              flush lit ++ Interp e :: scan interpolate r (len - 1) EmptyString
          | None => scan interpolate r 0 (lit ++ String c EmptyString)%string
          end
      end
  end.

(** The placeholders of a template, in order. *)
Definition placeholders (t : list segment) : list string :=
  flat_map (fun s => match s with Interp e => [e] | Lit _ => [] end) t.

(** Reserved words that are not expressions.  ([this], [null], [true] and
    [false] are expressions; [let], [static], [yield], [await] and the like
    are names in the sloppy-mode source that [template] builds.) *)
Definition not_an_expression : list string :=
  ["break"; "case"; "catch"; "class"; "const"; "continue"; "debugger";
   "default"; "delete"; "do"; "else"; "enum"; "export"; "extends";
   "finally"; "for"; "function"; "if"; "import"; "in"; "instanceof"; "new";
   "return"; "super"; "switch"; "throw"; "try"; "typeof"; "var"; "void";
   "while"; "with"].

(** A name: word characters, the first of which is not a digit. *)
Definition is_name (e : string) : bool :=
  match e with
  | EmptyString => false
  | String c _ => (is_alpha c || Ascii.eqb c "_") && forallb_string is_word e
  end.

Fixpoint drop_digits (s : string) : string :=
  match s with
  | EmptyString => EmptyString
  | String c r => if is_digit c then drop_digits r else s
  end.

(** Digits followed by a letter that cannot continue a numeric literal
    (an exponent, a radix prefix or the BigInt suffix could): a name
    directly after a number. *)
Definition number_then_name (e : string) : bool :=
  match e with
  | EmptyString => false
  | String c _ =>
      is_digit c
      && match drop_digits e with
         | EmptyString => false
         | String d _ =>
             is_alpha d
             && negb (existsb (Ascii.eqb d)
                        (list_ascii_of_string "xXoObBeEn"))
         end
  end.

(** A placeholder that is certainly not an expression. *)
Definition refused (e : string) : bool :=
  existsb (String.eqb e) not_an_expression || number_then_name e.

(** A placeholder that is certainly an expression: a name that is not one
    of the words above, or a number written with digits only. *)
Definition parsed (e : string) : bool :=
  negb (existsb (String.eqb e) not_an_expression)
  && (is_name e || (negb (e =? EmptyString) && forallb_string is_digit e)).

(** [template] builds the source of a function in which a placeholder [e]
    stands as [((__t = (e)) == null ? '' : __t)], and compiles it with
    [Function] before it returns: a source that does not parse makes
    [template] itself throw the [SyntaxError] (its message is not
    modelled).  Whether a placeholder that is neither [refused] nor
    [parsed] is an expression (other forms of numeric literals are) is
    outside this model. *)
Definition compile (t : list segment) : result jsval :=
  let es := placeholders t in
  if existsb refused es then Throw (SyntaxError "Unexpected token")
  else if forallb parsed es then Ok (VTemplate t)
  else Throw (Unmodelled "template: placeholder that may not parse").

(** [template(string, { interpolate })].  The argument goes through
    lodash's [toString] ([undefined] and [null] give the empty text).
    lodash's default [escape] and [evaluate] delimiters, which start with
    "<%" and embed JavaScript source, stay in force next to [interpolate];
    a text in which they could match is outside this model, and so is an
    argument that is neither a string nor [undefined]/[null]. *)
Definition template (string : jsval) (interpolate : delimiter)
  : result jsval :=
  match string with
  | VUndefined | VNull => compile []
  | VStr s =>
      if occurs "<%" s then Throw (Unmodelled "template: <% delimiter")
      else compile (scan interpolate s 0 EmptyString)
  | _ => Throw (Unmodelled "template: toString of a non-string")
  end.

(** Words that are not plain variable names in the compiled function. *)
Definition reserved : list string :=
  ["break"; "case"; "catch"; "class"; "const"; "continue"; "debugger";
   "default"; "delete"; "do"; "else"; "enum"; "export"; "extends"; "false";
   "finally"; "for"; "function"; "if"; "import"; "in"; "instanceof"; "new";
   "null"; "return"; "super"; "switch"; "this"; "throw"; "true"; "try";
   "typeof"; "var"; "void"; "while"; "with"; "let"; "static"; "yield";
   "await"; "implements"; "interface"; "package"; "private"; "protected";
   "public"; "arguments"; "eval"; "undefined"; "NaN"; "Infinity"].

Definition is_variable (e : string) : bool :=
  match e with
  | EmptyString => false
  | String c _ =>
      (is_alpha c || Ascii.eqb c "_") && forallb_string is_word e
      && negb (existsb (String.eqb e) reserved)
  end.

(** The value of one interpolation, [((__t = (e)) == null ? '' : __t)],
    appended to a string.  The compiled body runs inside [with (obj)], so a
    variable that is an own key of the context is that property.  Any other
    expression (a literal, a name found further up the scope chain) and a
    value that is not a string, a boolean, [null] or [undefined] are
    outside this model. *)
Definition interpolation (e : string) (obj : list (string * jsval))
  : result string :=
  if is_variable e then
    match lookup e obj with
    | Some (VStr s) => Ok s
    | Some VNull | Some VUndefined => Ok EmptyString
    | Some (VBool true) => Ok "true"
    | Some (VBool false) => Ok "false"
    | Some _ => Throw (Unmodelled "template: toString of a non-string")
    | None => Throw (Unmodelled "template: name resolved outside the context")
    end
  else Throw (Unmodelled "template: expression that is not a variable").

Fixpoint render (t : list segment) (obj : list (string * jsval))
  : result string :=
  match t with
  | [] => Ok EmptyString
  | Lit s :: t' => rest <- render t' obj ;; Ok (s ++ rest)%string
  | Interp e :: t' =>
      v <- interpolation e obj ;;
      rest <- render t' obj ;;
      Ok (v ++ rest)%string
  end.

(** Calling the compiled function with a context.  The function keeps its
    output in a local [__p] that it updates inside [with (obj)]: a context
    with a key of that name is outside this model. *)
Definition call (f : jsval) (obj : list (string * jsval)) : result string :=
  match f with
  | VTemplate t =>
      match lookup "__p" obj with
      | Some _ => Throw (Unmodelled "template: context shadows __p")
      | None => render t obj
      end
  | _ => Throw (TypeError "not a function")
  end.

(** [partition(collection, predicate)]. *)
Definition partition {A} (collection : list A) (predicate : A -> bool)
  : list A * list A :=
  (filter predicate collection,
   filter (fun v => negb (predicate v)) collection).

End Lodash.

(** ** The interpolation delimiter of the module *)

(** [templateInterpolateReg = /\[([\w]+?)\]/g], tried at the start of a
    text.  No [\w] character is a bracket, so the lazy [+?] followed by
    [\]] can only stop at the end of the run of word characters. *)
Definition templateInterpolateReg : Lodash.delimiter :=
  fun s =>
    match s with
    | String "[" r =>
        let (w, rest) := span_word r in
        match w, rest with
        | String _ _, String "]" _ => Some (w, String.length w + 2)
        | _, _ => None
        end
    | _ => None
    end.

(** ** @hapi/joi *)

(** The validation algorithm of Joi 15 for the schema types and rules that
    [config.js] uses, with the options it passes.  [convert] is left at its
    default (on).  An error of Joi that wraps the errors of a sub-schema
    ([object.child], [array.includesOne], [alternatives.child]) is
    represented by the errors it wraps: these leaves are what the [details]
    of the [ValidationError] list, each with its path and its type (the
    message is the text that Joi's language table has for the type). *)
Module Joi.

Record strip : Type := { arrays : bool; objects : bool }.

Record options : Type :=
  { abortEarly : bool; allowUnknown : bool; stripUnknown : strip }.

Record flags : Type := { presence_required : bool; default_value : option jsval }.

Inductive string_rule : Type :=
| rule_uri
| rule_alphanum.

Inductive array_rule : Type :=
| rule_min (limit : nat)
| rule_unique (comparator : jsval -> jsval -> result bool).

#[warnings="-register-all"] Inductive schema : Type :=
| SString (f : flags) (tests : list string_rule)
| SBoolean (f : flags)
| SArray (f : flags) (single_flag : bool) (inclusions : list schema)
    (tests : list array_rule)
| SObject (f : flags) (children : list (string * schema))
| SAlternatives (f : flags) (matches : list schema).

(** *** Building schemas *)

Definition optional : flags :=
  {| presence_required := false; default_value := None |}.

Definition string_ : schema := SString optional [].
Definition boolean_ : schema := SBoolean optional.
Definition array_ : schema := SArray optional false [] [].
Definition object_ (keys : list (string * schema)) : schema :=
  SObject optional keys.
Definition alternatives_try (schemas : list schema) : schema :=
  SAlternatives optional schemas.

Definition schema_flags (s : schema) : flags :=
  match s with
  | SString f _ | SBoolean f | SArray f _ _ _ | SObject f _
  | SAlternatives f _ => f
  end.

Definition with_flags (f : flags) (s : schema) : schema :=
  match s with
  | SString _ t => SString f t
  | SBoolean _ => SBoolean f
  | SArray _ sg i t => SArray f sg i t
  | SObject _ c => SObject f c
  | SAlternatives _ m => SAlternatives f m
  end.

Definition required (s : schema) : schema :=
  with_flags {| presence_required := true;
                default_value := default_value (schema_flags s) |} s.

Definition default (v : jsval) (s : schema) : schema :=
  with_flags {| presence_required := presence_required (schema_flags s);
                default_value := Some v |} s.

Definition uri (s : schema) : schema :=
  match s with SString f t => SString f (t ++ [rule_uri]) | _ => s end.

Definition alphanum (s : schema) : schema :=
  match s with SString f t => SString f (t ++ [rule_alphanum]) | _ => s end.

(** [items] with schemas that are not [required()]: Joi keeps those as the
    array's inclusions. *)
Definition items (schemas : list schema) (s : schema) : schema :=
  match s with
  | SArray f sg i t => SArray f sg (i ++ schemas) t
  | _ => s
  end.

Definition min (limit : nat) (s : schema) : schema :=
  match s with
  | SArray f sg i t => SArray f sg i (t ++ [rule_min limit])
  | _ => s
  end.

Definition unique (comparator : jsval -> jsval -> result bool) (s : schema)
  : schema :=
  match s with
  | SArray f sg i t => SArray f sg i (t ++ [rule_unique comparator])
  | _ => s
  end.

Definition single (enabled : bool) (s : schema) : schema :=
  match s with
  | SArray f _ i t => SArray f enabled i t
  | _ => s
  end.

(** *** Validation *)

Section Validation.

(** [JSON.parse], as [None] when it throws. *)
Variable JSON_parse : string -> option jsval.

(** The regular expression of [string().uri()]: an RFC 3986 URI. *)
Variable uri_regex : string -> bool.

Variable opts : options.

Definition err (path : list jsval) (type : string) : detail :=
  {| d_path := path; d_type := type |}.

(** What one [_validate] step yields: the value and the errors found. *)
Definition outcome : Type := (jsval * list detail)%type.

Definition validator : Type := list jsval -> jsval -> result outcome.

(** [_finalizeValue]: an [undefined] value takes the default. *)
Definition finalize (f : flags) (value : jsval) (errors : list detail)
  : outcome :=
  match value, default_value f with
  | VUndefined, Some d => (d, errors)
  | _, _ => (value, errors)
  end.

(** The presence check that opens [_validate]. *)
Definition presence (f : flags) (path : list jsval) (value : jsval)
  (k : result outcome) : result outcome :=
  match value with
  | VUndefined =>
      if presence_required f
      then Ok (finalize f value [err path "any.required"])
      else Ok (finalize f value [])
  | _ => k
  end.

(** The loop over the rules of a schema: with [abortEarly] the first error
    ends it, without it every rule runs. *)
Fixpoint run_tests {T} (run : T -> result (option detail)) (tests : list T)
  : result (list detail) :=
  match tests with
  | [] => Ok []
  | t :: ts =>
      r <- run t ;;
      match r with
      | Some d =>
          if abortEarly opts then Ok [d]
          else rest <- run_tests run ts ;; Ok (d :: rest)
      | None => run_tests run ts
      end
  end.

(** /^[a-zA-Z0-9]+$/ *)
Definition alphanum_regex (s : string) : bool :=
  negb (s =? EmptyString) && forallb_string is_alnum s.

Definition string_test (path : list jsval) (s : string) (t : string_rule)
  : result (option detail) :=
  match t with
  | rule_uri =>
      Ok (if uri_regex s then None else Some (err path "string.uri"))
  | rule_alphanum =>
      Ok (if alphanum_regex s then None else Some (err path "string.alphanum"))
  end.

(** The rule [unique(comparator)]: every item is compared with the items
    before it, in order; the first item equal to an earlier one is the
    error, at that item's position. *)
Fixpoint seen_before (comparator : jsval -> jsval -> result bool)
  (records : list jsval) (item : jsval) : result bool :=
  match records with
  | [] => Ok false
  | r :: rs =>
      b <- comparator r item ;;
      if b then Ok true else seen_before comparator rs item
  end.

Fixpoint first_duplicate (comparator : jsval -> jsval -> result bool)
  (records : list jsval) (i : nat) (value : list jsval) : result (option nat) :=
  match value with
  | [] => Ok None
  | item :: rest =>
      b <- seen_before comparator records item ;;
      if b then Ok (Some i)
      else first_duplicate comparator (records ++ [item]) (S i) rest
  end.

Definition index (i : nat) : jsval := VNum (Z.of_nat i).

Definition array_test (path : list jsval) (value : list jsval) (t : array_rule)
  : result (option detail) :=
  match t with
  | rule_min limit =>
      Ok (if (limit <=? List.length value)%nat then None
          else Some (err path "array.min"))
  | rule_unique comparator =>
      d <- first_duplicate comparator [] 0 value ;;
      Ok (match d with
          | Some i => Some (err (path ++ [index i]) "array.unique")
          | None => None
          end)
  end.

(** [internals.safeParse] of arrays and of objects, under [convert]: a
    string is parsed as JSON; for an array the result is taken only if it
    is an array. *)
Definition safeParse_array (value : jsval) : jsval :=
  match value with
  | VStr s => match JSON_parse s with Some (VArr l) => VArr l | _ => value end
  | _ => value
  end.

Definition safeParse_object (value : jsval) : jsval :=
  match value with
  | VStr s => match JSON_parse s with Some v => v | None => value end
  | _ => value
  end.

(** One item of an array against the inclusions: the validated item, or
    [None] when [stripUnknown.arrays] removes it, and the errors. *)
Fixpoint first_match (inclusions : list validator) (path : list jsval)
  (item : jsval) : result (option jsval) :=
  match inclusions with
  | [] => Ok None
  | inclusion :: rest =>
      '(v, errors) <- inclusion path item ;;
      if is_nil errors then Ok (Some v) else first_match rest path item
  end.

Definition check_item (inclusions : list validator) (path : list jsval)
  (item : jsval) : result (option jsval * list detail) :=
  match item with
  | VUndefined => Ok (Some item, [err path "array.sparse"])
  | _ =>
      match inclusions with
      | [] => Ok (Some item, [])
      | [inclusion] =>
          '(v, errors) <- inclusion path item ;;
          if is_nil errors then Ok (Some v, [])
          else if arrays (stripUnknown opts) then Ok (None, [])
          else Ok (Some item, errors)
      | _ =>
          m <- first_match inclusions path item ;;
          match m with
          | Some v => Ok (Some v, [])
          | None =>
              if arrays (stripUnknown opts) then Ok (None, [])
              else Ok (Some item, [err path "array.includes"])
          end
      end
  end.

(** [_checkItems]: the items in order; an item that is removed does not
    take a position. *)
Fixpoint checkItems (inclusions : list validator) (wasArray : bool)
  (path : list jsval) (i : nat) (items : list jsval)
  : result (list jsval * list detail) :=
  match items with
  | [] => Ok ([], [])
  | item :: rest =>
      let path_i := if wasArray then path ++ [index i] else path in
      '(r, errors) <- check_item inclusions path_i item ;;
      if abortEarly opts && negb (is_nil errors) then Ok (items, errors)
      else
        match r with
        | Some v =>
            '(rest', errors') <- checkItems inclusions wasArray path (S i) rest ;;
            Ok (v :: rest', errors ++ errors')
        | None =>
            '(rest', errors') <- checkItems inclusions wasArray path i rest ;;
            Ok (rest', errors ++ errors')
        end
  end.

(** The [_base] of an array: a string is parsed as JSON and taken if that
    gives an array; with [single] a value that is not an array is wrapped
    in one, and an array whose items fail is tried once more as the single
    item of an array. *)
Definition array_base (inclusions : list validator) (single_flag : bool)
  (path : list jsval) (value : jsval) : result outcome :=
  match safeParse_array value with
  | VArr l =>
      '(l1, errors) <- checkItems inclusions true path 0 l ;;
      if is_nil errors then Ok (VArr l1, [])
      else if single_flag then
        '(l2, errors2) <- checkItems inclusions true path 0 [VArr l1] ;;
        if is_nil errors2 then Ok (VArr l2, []) else Ok (VArr l1, errors)
      else Ok (VArr l1, errors)
  | value =>
      if single_flag then
        '(l1, errors) <- checkItems inclusions false path 0 [value] ;;
        Ok (VArr l1, errors)
      else Ok (value, [err path "array.base"])
  end.

(** The keys of an object schema, in order: each is validated at
    [target[key]] and a value that results is stored back. *)
Fixpoint validate_children (children : list (string * validator))
  (path : list jsval) (target : list (string * jsval))
  : result (list (string * jsval) * list detail) :=
  match children with
  | [] => Ok (target, [])
  | (key, child) :: rest =>
      '(v, errors) <- child (path ++ [VStr key]) (get key target) ;;
      if is_nil errors then
        validate_children rest path
          (match v with VUndefined => target | _ => set key v target end)
      else if abortEarly opts then Ok (target, errors)
      else
        '(target', errors') <- validate_children rest path target ;;
        Ok (target', errors ++ errors')
  end.

Definition is_child (children : list (string * validator)) (key : string)
  : bool :=
  existsb (fun kc => fst kc =? key) children.

(** The [_base] of an object with keys: a string is parsed as JSON; the
    keys of the schema are validated; the other keys are removed under
    [stripUnknown.objects], and are errors unless [allowUnknown]. *)
Definition object_base (children : list (string * validator))
  (path : list jsval) (value : jsval) : result outcome :=
  match safeParse_object value with
  | VObj o =>
      '(target, errors) <- validate_children children path o ;;
      if abortEarly opts && negb (is_nil errors) then Ok (VObj target, errors)
      else if objects (stripUnknown opts) then
        Ok (VObj (filter (fun kv => is_child children (fst kv)) target), errors)
      else if allowUnknown opts then Ok (VObj target, errors)
      else
        let unknown :=
          map (fun kv => err (path ++ [VStr (fst kv)]) "object.allowUnknown")
            (filter (fun kv => negb (is_child children (fst kv))) target) in
        Ok (VObj target,
            errors ++ (if abortEarly opts then firstn 1 unknown else unknown))
  | value => Ok (value, [err path "object.base"])
  end.

(** The [_base] of alternatives: the first schema that accepts the value
    gives the result; when none does the errors of all are reported. *)
Fixpoint try_matches (matches : list validator) (path : list jsval)
  (value : jsval) : result (option jsval * list detail) :=
  match matches with
  | [] => Ok (None, [])
  | m :: rest =>
      '(v, errors) <- m path value ;;
      if is_nil errors then Ok (Some v, [])
      else
        '(r, errors') <- try_matches rest path value ;;
        match r with
        | Some v' => Ok (Some v', [])
        | None => Ok (None, errors ++ errors')
        end
  end.

Definition alternatives_base (matches : list validator) (path : list jsval)
  (value : jsval) : result outcome :=
  match matches with
  | [] => Ok (value, [err path "alternatives.base"])
  | _ =>
      '(r, errors) <- try_matches matches path value ;;
      match r with
      | Some v => Ok (v, [])
      | None => Ok (value, errors)
      end
  end.

(** The [_base] of a boolean: the strings "true" and "false", in any
    case, are converted. *)
Definition boolean_base (path : list jsval) (value : jsval) : outcome :=
  let value :=
    match value with
    | VStr s =>
        let normalized := toLowerCase s in
        if normalized =? "true" then VBool true
        else if normalized =? "false" then VBool false
        else value
    | _ => value
    end in
  match value with
  | VBool _ => (value, [])
  | _ => (value, [err path "boolean.base"])
  end.

(** [_validate]: presence, then the values never allowed (the empty string
    for a string schema), then the base of the type, whose error ends the
    validation of this value whatever [abortEarly] is, then the rules. *)
Fixpoint _validate (s : schema) (path : list jsval) (value : jsval)
  {struct s} : result outcome :=
  match s with
  | SString f tests =>
      presence f path value
        (let empty :=
           match value with
           | VStr EmptyString => [err path "any.empty"]
           | _ => []
           end in
         if abortEarly opts && negb (is_nil empty)
         then Ok (finalize f value empty)
         else
           match value with
           | VStr str =>
               errors <- run_tests (string_test path str) tests ;;
               Ok (finalize f value (empty ++ errors))
           | _ => Ok (finalize f value (empty ++ [err path "string.base"]))
           end)
  | SBoolean f =>
      presence f path value
        (let (v, errors) := boolean_base path value in
         Ok (finalize f v errors))
  | SArray f single_flag inclusions tests =>
      presence f path value
        ('(v, errors) <-
           array_base (map (fun i => _validate i) inclusions) single_flag
             path value ;;
         if is_nil errors then
           match v with
           | VArr l =>
               errors' <- run_tests (array_test path l) tests ;;
               Ok (finalize f v errors')
           | _ => Ok (finalize f v [])
           end
         else Ok (finalize f v errors))
  | SObject f children =>
      presence f path value
        ('(v, errors) <-
           object_base (map (fun kc => (fst kc, _validate (snd kc))) children)
             path value ;;
         Ok (finalize f v errors))
  | SAlternatives f matches =>
      presence f path value
        ('(v, errors) <-
           alternatives_base (map (fun m => _validate m) matches) path value ;;
         Ok (finalize f v errors))
  end.

(** [schema.validate(value, options)]: the pair of [value] and [error],
    the error being one [ValidationError] with all the details. *)
Definition validate (s : schema) (value : jsval)
  : result (jsval * option exn) :=
  '(v, errors) <- _validate s [] value ;;
  Ok (v, if is_nil errors then None else Some (ValidationError errors)).

End Validation.

End Joi.

Notation "s '.>' f" := (f s) (at level 40, left associativity, only parsing).

(** ** config.js *)

(** [checkUniqueField]: the comparator given to [unique].  A string operand
    is first wrapped as [{ [field]: string }]; then the two [field]
    properties are compared with [===] (the source writes the comparison
    twice, joined by [||]).  Reading a property of [null] or [undefined]
    throws; a number, a boolean, an array or a function has none of the
    fields this module compares on ('path', 'url', 'input_path'). *)
Definition property (v : jsval) (field : string) : result jsval :=
  match v with
  | VUndefined | VNull =>
      Throw (TypeError "Cannot read property of undefined or null")
  | VObj o => Ok (get field o)
  | _ => Ok VUndefined
  end.

Definition checkUniqueField (field : string) : jsval -> jsval -> result bool :=
  fun v1 v2 =>
    let curV1 := match v1 with VStr _ => VObj [(field, v1)] | _ => v1 end in
    let curV2 := match v2 with VStr _ => VObj [(field, v2)] | _ => v2 end in
    a <- property curV1 field ;;
    b <- property curV2 field ;;
    if strict_eq a b then Ok true
    else
      a' <- property curV1 field ;;
      b' <- property curV2 field ;;
      Ok (strict_eq a' b').

Definition argsSchema : Joi.schema := Joi.array_ .> Joi.min 1.

Definition onChangeCmdSchema : Joi.schema := Joi.array_ .> Joi.min 1.

Definition onChangeSchema : Joi.schema :=
  Joi.alternatives_try
    [ onChangeCmdSchema;
      Joi.object_
        [ ("command", onChangeCmdSchema);
          ("stdout", Joi.boolean_ .> Joi.default (VBool false));
          ("stderr", Joi.boolean_ .> Joi.default (VBool true)) ] ].

Definition DataSourceSchema : Joi.schema :=
  Joi.alternatives_try
    [ Joi.string_ .> Joi.required;
      Joi.object_
        [ ("url", Joi.string_ .> Joi.uri .> Joi.required);
          ("alias", Joi.string_ .> Joi.alphanum);
          ("on_change", onChangeSchema);
          ("args", argsSchema) ] ].

Definition FileSchema : Joi.schema :=
  Joi.alternatives_try
    [ Joi.string_ .> Joi.required;
      Joi.object_
        [ ("left_delimiter", Joi.string_);
          ("right_delimiter", Joi.string_);
          ("input_path", Joi.string_ .> Joi.required);
          ("output_path", Joi.string_);
          ("on_change", onChangeSchema);
          ("args", argsSchema) ] ].

Definition FilePathSchema : Joi.schema :=
  Joi.alternatives_try
    [ Joi.string_ .> Joi.required;
      Joi.object_
        [ ("path", Joi.string_ .> Joi.required);
          ("on_change", onChangeSchema);
          ("args", argsSchema) ] ].

Definition ConfigItemSchema : Joi.schema :=
  Joi.object_
    [ ("watch", Joi.boolean_ .> Joi.default (VBool false));
      ("dependencies",
        Joi.array_ .> Joi.items [FilePathSchema]
          .> Joi.unique (checkUniqueField "path") .> Joi.default (VArr []));
      ("templates",
        Joi.array_ .> Joi.items [FilePathSchema]
          .> Joi.unique (checkUniqueField "path") .> Joi.default (VArr []));
      ("datasources",
        Joi.array_ .> Joi.items [DataSourceSchema]
          .> Joi.unique (checkUniqueField "url") .> Joi.default (VArr []));
      ("files",
        Joi.array_ .> Joi.items [FileSchema] .> Joi.default (VArr [])
          .> Joi.unique (checkUniqueField "input_path"));
      ("on_change", onChangeSchema);
      ("args", argsSchema) ].

Definition ConfigSchema : Joi.schema :=
  Joi.array_ .> Joi.items [ConfigItemSchema] .> Joi.single true .> Joi.min 1.

(** The options [parseConfig] passes to [validate]. *)
Definition validate_options : Joi.options :=
  {| Joi.abortEarly := false;
     Joi.allowUnknown := false;
     Joi.stripUnknown := {| Joi.arrays := false; Joi.objects := true |} |}.

(** A parsed [URL]: the two getters the module reads. *)
Record url : Type := { protocol : string; pathname : string }.

(** What [fs.readFile] and [execFile] are asked to do, in order. *)
Inductive event : Type :=
| ReadFile (path : string)
| ExecFile (file : jsval) (args : list jsval).

(** An asynchronous computation: the calls made to the outside, in order,
    and how it settles. *)
Definition io (A : Type) : Type := (list event * result A)%type.

Definition io_ret {A} (a : A) : io A := ([], Ok a).
Definition io_throw {A} (e : exn) : io A := ([], Throw e).

Definition io_bind {A B} (m : io A) (k : A -> io B) : io B :=
  match m with
  | (t, Ok a) => let (t', r) := k a in (t ++ t', r)
  | (t, Throw e) => (t, Throw e)
  end.

(** [try { m } catch (err) { handler }] *)
Definition io_catch {A} (m : io A) (handler : exn -> io A) : io A :=
  match m with
  | (t, Ok a) => (t, Ok a)
  | (t, Throw e) => let (t', r) := handler e in (t ++ t', r)
  end.

Definition io_lift {A} (r : result A) : io A := ([], r).

Declare Scope io_scope.
Delimit Scope io_scope with io.
Notation "x <- m ;; k" := (io_bind m (fun x => k))
  (at level 61, m at next level, right associativity) : io_scope.

(** The resolved value of [getConfig]. *)
Record config_and_deps : Type :=
  { config : string; configDeps : list jsval }.

(** The environment module [./environment] is not part of these sources:
    what it exports is taken as given. *)
Record environment : Type :=
  { CONFIG_TEMPLATE_ARGS : option string;
    CONFIG_PATH : option string }.

(** Truthiness of a string that may be [undefined]. *)
Definition set_and_not_empty (v : option string) : bool :=
  match v with
  | Some s => negb (s =? EmptyString)
  | None => false
  end.

(** [configDeps.add(v)] on a [Set], kept in insertion order. *)
Definition Set_add (v : jsval) (s : list jsval) : list jsval :=
  if existsb (strict_eq v) s then s else s ++ [v].

(** [a[0]] *)
Definition first_element (a : jsval) : result jsval :=
  match a with
  | VUndefined | VNull =>
      Throw (TypeError "Cannot read property '0' of undefined or null")
  | VArr (x :: _) => Ok x
  | VStr (String c _) => Ok (VStr (String c EmptyString))
  | _ => Ok VUndefined
  end.

Definition quote : string := String "034"%char EmptyString.

Section Config.

(** *** The platform *)

Variable JSON_parse : string -> option jsval.
Variable uri_regex : string -> bool.

(** [new URL(input)] *)
Variable new_URL : string -> result url.

(** [YAML.parse(text)] *)
Variable YAML_parse : string -> result jsval.

(** [argsparse(text)] of yargs-parser: an object with the positional
    tokens under [_] and one key per flag. *)
Variable argsparse : string -> list (string * jsval).

(** [path.parse(p)], as its [dir] and [name], and [path.join(dir, name)]. *)
Variable path_parse : string -> string * string.
Variable path_join : string -> string -> string.

(** The outside world: the file system and the processes. *)
Variable readFile : string -> result string.
Variable execFile : jsval -> list jsval -> result string.

(** The environment: [ENV] and [process.env.CONFIG_PATH]. *)
Variable ENV : environment.
Variable process_env_CONFIG_PATH : option string.

Definition fs_readFile (path : string) : io string :=
  ([ReadFile path], readFile path).

Definition execFileAsync (file : jsval) (args : list jsval) : io string :=
  ([ExecFile file args], execFile file args).

(** *** getPathFromArg *)

Definition getPathFromArg (arg : string) (v : jsval) : result jsval :=
  if existsb (String.eqb arg) ["t"; "f"] then Ok v
  else if arg =? "d" then
    match v with
    | VStr s =>
        let start :=
          match indexOf "=" s with Some i => i + 1 | None => 0 end in
        curUrl <- new_URL (substring_from start s) ;;
        if negb (startsWith "file" (protocol curUrl)) then Ok VNull
        else Ok (VStr (pathname curUrl))
    | _ => Throw (TypeError "v.substring is not a function")
    end
  else Ok VNull.

(** *** getConfig *)

(** One [-k v] pair: the body shared by the two branches of the reducer.
    The state is the accumulator [arr] and the set [configDeps]. *)
Definition push_arg (k : string) (v : jsval)
  (st : list jsval * list jsval) : result (list jsval * list jsval) :=
  let (arr, deps) := st in
  depPath <- getPathFromArg k v ;;
  let deps := if truthy depPath then Set_add depPath deps else deps in
  Ok (arr ++ [VStr ("-" ++ k); v], deps).

Fixpoint forEach (k : string) (curVal : list jsval)
  (st : list jsval * list jsval) : result (list jsval * list jsval) :=
  match curVal with
  | [] => Ok st
  | v :: rest => st' <- push_arg k v st ;; forEach k rest st'
  end.

(** The reducer over [Object.keys(args)]. *)
Definition reducer (args : list (string * jsval))
  (st : list jsval * list jsval) (k : string)
  : result (list jsval * list jsval) :=
  let curVal := get k args in
  match curVal with
  | VArr l => forEach k l st
  | _ => push_arg k curVal st
  end.

Fixpoint reduce (args : list (string * jsval)) (ks : list string)
  (st : list jsval * list jsval) : result (list jsval * list jsval) :=
  match ks with
  | [] => Ok st
  | k :: rest => st' <- reducer args st k ;; reduce args rest st'
  end.

(** [cmdArgs] and [configDeps] after the reduction. *)
Definition cmdArgs (args : list (string * jsval))
  : result (list jsval * list jsval) :=
  reduce args (keys args) ([], []).

Definition conflict_message (templateArgs : string) : string :=
  ("Use either CONFIG_PATH env or " ++ quote ++ "-f" ++ quote
   ++ " option of CONFIG_TEMPLATE_ARGS env [" ++ templateArgs
   ++ "] but not both")%string.

Definition getConfig : io config_and_deps :=
  (if set_and_not_empty (CONFIG_TEMPLATE_ARGS ENV) then
     let templateArgs :=
       match CONFIG_TEMPLATE_ARGS ENV with Some s => s | None => EmptyString end in
     let args := argsparse templateArgs in
     args <-
       (if set_and_not_empty process_env_CONFIG_PATH then
          if truthy (get "f" args)
          then io_throw (Error (conflict_message templateArgs))
          else
            (* args.f = value.CONFIG_PATH: no [value] is in scope here *)
            io_throw (ReferenceError "value")
        else io_ret args) ;;
     cmd <- io_lift (first_element (get "_" args)) ;;
     let args := delete "_" args in
     st <- io_lift (cmdArgs args) ;;
     let (arr, deps) := (st : list jsval * list jsval) in
     if is_nil arr
     then
       io_throw
         (Error "CONFIG_TEMPLATE_ARGS env requires at least one argument")
     else
       stdout <- execFileAsync cmd arr ;;
       io_ret {| config := stdout; configDeps := deps |}
   else
     match CONFIG_PATH ENV with
     | None =>
         io_throw (TypeError "The path argument must be of type string")
     | Some p =>
         let (dir, name) := path_parse p in
         let curPath := path_join dir name in
         let conf := VNull in
         conf <-
           io_catch
             (c <- fs_readFile (curPath ++ ".yaml")%string ;; io_ret (VStr c))
             (fun err =>
                if negb (strict_eq (code err) (VStr "ENOENT"))
                then io_throw err
                else io_ret conf) ;;
         conf <- fs_readFile (curPath ++ ".yml")%string ;;
         io_ret {| config := conf; configDeps := [VStr curPath] |}
     end)%io.

(** *** mapOnChange *)

Definition mapOnChange (v : jsval) : jsval :=
  match v with
  | VArr _ =>
      VObj [("command", v); ("stdout", VBool false); ("stderr", VBool true)]
  | _ => v
  end.

(** [Object.assign(curV, v)] for a [v] that is not a string: the own
    enumerable properties of [v] are copied.  A primitive has none; an
    array or a function as [v] is outside this model (validation lets
    only strings and objects through to the callers). *)
Definition assign_from (curV : list (string * jsval)) (v : jsval)
  : result (list (string * jsval)) :=
  match v with
  | VObj o => Ok (assign curV o)
  | VArr _ | VTemplate _ => Throw (Unmodelled "Object.assign from an array")
  | _ => Ok curV
  end.

(** [if (curV.on_change) curV.on_change = mapOnChange(curV.on_change)] *)
Definition map_on_change (curV : list (string * jsval))
  : list (string * jsval) :=
  if truthy (get "on_change" curV)
  then set "on_change" (mapOnChange (get "on_change" curV)) curV
  else curV.

(** [new URL(v)] for a property value: the argument is converted to a
    string first. *)
Definition URL_of (v : jsval) : result url :=
  match v with
  | VStr s => new_URL s
  | VNull => new_URL "null"
  | VUndefined => new_URL "undefined"
  | VBool true => new_URL "true"
  | VBool false => new_URL "false"
  | _ => Throw (Unmodelled "toString of a number or an object")
  end.

(** *** mapDataSource *)

Definition mapDataSource (v : jsval) : result jsval :=
  let curV := [("url", VNull)] in
  curV <-
    match v with
    | VStr _ => Ok (set "url" v curV)
    | _ => assign_from curV v
    end ;;
  let curV := map_on_change curV in
  curUrl <- URL_of (get "url" curV) ;;
  if startsWith "file" (protocol curUrl) then
    let curV := set "path" (VStr (pathname curUrl)) curV in
    makeAlias <- Lodash.template (get "alias" curV) templateInterpolateReg ;;
    Ok (VObj (set "makeAlias" makeAlias curV))
  else Ok (VObj curV).

(** *** mapFile *)

Definition mapFile (v : jsval) : result jsval :=
  let curV := [("input_path", VNull)] in
  curV <-
    match v with
    | VStr _ => Ok (set "input_path" v curV)
    | _ => assign_from curV v
    end ;;
  let curV := map_on_change curV in
  if truthy (get "output_path" curV) then
    makeOutputPath <-
      Lodash.template (get "output_path" curV) templateInterpolateReg ;;
    Ok (VObj (set "makeOutputPath" makeOutputPath curV))
  else Ok (VObj curV).

(** *** mapFilePath *)

Definition mapFilePath (v : jsval) : result jsval :=
  let curV := [("path", VNull)] in
  curV <-
    match v with
    | VStr _ => Ok (set "path" v curV)
    | _ => assign_from curV v
    end ;;
  Ok (VObj (map_on_change curV)).

(** *** parseConfig *)

(** [a.map(f)] with an [f] that can throw. *)
Fixpoint map_result {A B} (f : A -> result B) (l : list A) : result (list B) :=
  match l with
  | [] => Ok []
  | x :: rest => y <- f x ;; ys <- map_result f rest ;; Ok (y :: ys)
  end.

Definition array_map (f : jsval -> result jsval) (a : jsval)
  : result (list jsval) :=
  match a with
  | VArr l => map_result f l
  | _ => Throw (TypeError "map is not a function")
  end.

(** [v.path != null] *)
Definition has_path (v : jsval) : bool :=
  match v with
  | VObj o =>
      match get "path" o with
      | VUndefined | VNull => false
      | _ => true
      end
  | _ => false
  end.

(** The function mapped over the validated items. *)
Definition normalize_item (item : jsval) : result jsval :=
  match item with
  | VObj item =>
      let item := map_on_change item in
      datasources <- array_map mapDataSource (get "datasources" item) ;;
      let (fileDataSources, otherDataSources) :=
        Lodash.partition datasources has_path in
      let item := set "fileDataSources" (VArr fileDataSources) item in
      let item := set "otherDataSources" (VArr otherDataSources) item in
      dependencies <- array_map mapFilePath (get "dependencies" item) ;;
      let item := set "dependencies" (VArr dependencies) item in
      templates <- array_map mapFilePath (get "templates" item) ;;
      let item := set "templates" (VArr templates) item in
      files <- array_map mapFile (get "files" item) ;;
      let item := set "files" (VArr files) item in
      Ok (VObj item)
  | VUndefined | VNull =>
      Throw (TypeError "Cannot read property of undefined or null")
  | _ => Throw (Unmodelled "an item that is not an object")
  end.

Definition parseConfig (conf : string) : result (list jsval) :=
  curData <- YAML_parse conf ;;
  '(value, error) <-
    Joi.validate JSON_parse uri_regex validate_options ConfigSchema curData ;;
  match error with
  | Some e => Throw e
  | None => array_map normalize_item value
  end.

End Config.

(** ** A sample platform *)

(** Concrete stand-ins for the platform, to run the embedding on concrete
    inputs.  Each is right on the inputs it is used with below. *)
Module Sample.

(** [JSON.parse] on texts that are not JSON: it throws. *)
Definition JSON_parse : string -> option jsval := fun _ => None.

(** A scheme, [ALPHA *( ALPHA / DIGIT / "+" / "-" / "." )], followed by a
    colon: the scheme and what follows the colon. *)
Definition is_scheme_char (c : ascii) : bool :=
  is_alnum c || Ascii.eqb c "+" || Ascii.eqb c "-" || Ascii.eqb c ".".

Fixpoint split_scheme (s : string) : option (string * string) :=
  match s with
  | EmptyString => None
  | String c r =>
      if Ascii.eqb c ":" then Some (EmptyString, r)
      else if is_scheme_char c then
        match split_scheme r with
        | Some (scheme, rest) => Some (String c scheme, rest)
        | None => None
        end
      else None
  end.

Definition scheme_of (s : string) : option (string * string) :=
  match s with
  | String c _ => if is_alpha c then split_scheme s else None
  | EmptyString => None
  end.

(** The characters RFC 3986 lets stand in a URI. *)
Definition is_uri_char (c : ascii) : bool :=
  is_alnum c
  || existsb (Ascii.eqb c)
       (list_ascii_of_string "-._~:/?#[]@!$&'()*+,;=%").

(** [uri()]: a text with a scheme and only URI characters. *)
Definition uri_regex (s : string) : bool :=
  match scheme_of s with
  | Some _ => forallb_string is_uri_char s
  | None => false
  end.

Fixpoint take_until (p : ascii -> bool) (s : string) : string :=
  match s with
  | EmptyString => EmptyString
  | String c r => if p c then EmptyString else String c (take_until p r)
  end.

Fixpoint drop_until (p : ascii -> bool) (s : string) : string :=
  match s with
  | EmptyString => EmptyString
  | String c r => if p c then s else drop_until p r
  end.

Definition is_path_end (c : ascii) : bool :=
  Ascii.eqb c "?" || Ascii.eqb c "#".

(** [new URL(input)] for an input [scheme://authority/path] or
    [scheme:/path] without dot segments or characters to escape: the
    protocol is the scheme in lower case with its colon, the pathname
    starts at the first slash after the authority. *)
Definition new_URL (input : string) : result url :=
  match scheme_of input with
  | Some (scheme, rest) =>
      let after_authority :=
        if String.prefix "//" rest
        then drop_until (fun c => Ascii.eqb c "/" || is_path_end c)
               (substring_from 2 rest)
        else rest in
      Ok {| protocol := (toLowerCase scheme ++ ":")%string;
            pathname := take_until is_path_end after_authority |}
  | None => Throw (TypeError "Invalid URL")
  end.

(** A function known on the texts of a table. *)
Fixpoint table {A} (t : list (string * A)) (text : string) : option A :=
  match t with
  | [] => None
  | (k, v) :: rest => if k =? text then Some v else table rest text
  end.

(** [YAML.parse] known on the texts of a table. *)
Definition YAML_parse (t : list (string * jsval)) (text : string)
  : result jsval :=
  match table t text with
  | Some v => Ok v
  | None => Throw (Unmodelled "YAML.parse of another text")
  end.

(** [argsparse] known on the texts of a table. *)
Definition argsparse (t : list (string * list (string * jsval)))
  (text : string) : list (string * jsval) :=
  match table t text with
  | Some args => args
  | None => [("_", VArr [])]
  end.

(** [path.parse] and [path.join] on a POSIX path [dir/name.ext]. *)
Fixpoint last_index (c : ascii) (s : string) : option nat :=
  match s with
  | EmptyString => None
  | String c' r =>
      match last_index c r with
      | Some i => Some (S i)
      | None => if Ascii.eqb c' c then Some 0 else None
      end
  end.

Fixpoint take (n : nat) (s : string) : string :=
  match n, s with
  | S n', String c r => String c (take n' r)
  | _, _ => EmptyString
  end.

Definition path_parse (p : string) : string * string :=
  let (dir, base) :=
    match last_index "/" p with
    | Some i => (take i p, substring_from (S i) p)
    | None => (EmptyString, p)
    end in
  match last_index "." base with
  | Some (S i) => (dir, take (S i) base)
  | _ => (dir, base)
  end.

Definition path_join (dir name : string) : string :=
  match dir with
  | EmptyString => name
  | _ => (dir ++ "/" ++ name)%string
  end.

(** A file system holding the files of a table. *)
Definition readFile (files : list (string * string)) (path : string)
  : result string :=
  match table files path with
  | Some text => Ok text
  | None => Throw (SystemError "ENOENT" "no such file or directory")
  end.

(** [execFile]: a file that is not a string is refused before anything is
    spawned; the commands of a table print their text. *)
Definition execFile (commands : list (string * string)) (file : jsval)
  (args : list jsval) : result string :=
  match file with
  | VStr f =>
      match table commands f with
      | Some stdout => Ok stdout
      | None => Throw (SystemError "ENOENT" "spawn: no such file")
      end
  | _ => Throw (TypeError "The file argument must be of type string")
  end.

End Sample.

(** ** Concrete inputs *)

Definition gomplate_flag_0 : list (string * list (string * jsval)) :=
  [("gomplate -f 0", [("_", VArr [VStr "gomplate"]); ("f", VNum 0)])].

Definition gomplate_flag_path : list (string * list (string * jsval)) :=
  [("gomplate -f /etc/watcher/in.tpl",
    [("_", VArr [VStr "gomplate"]); ("f", VStr "/etc/watcher/in.tpl")])].

Definition gomplate_flag_t : list (string * list (string * jsval)) :=
  [("gomplate -t tmpl.tpl",
    [("_", VArr [VStr "gomplate"]); ("t", VStr "tmpl.tpl")])].

Definition watcher_files : list (string * string) :=
  [("/etc/watcher/config.yaml", "watch: true");
   ("/etc/watcher/config.yml", "watch: false")].

Definition flag_t_only : list (string * list (string * jsval)) :=
  [("-t tmpl.tpl", [("_", VArr []); ("t", VStr "tmpl.tpl")])].


(** The path of the item at position [n] of an array at [path]; a value
    wrapped by [single] keeps the path of the array. *)
Definition item_path (wasArray : bool) (path : list jsval) (n : nat)
  : list jsval :=
  if wasArray then path ++ [Joi.index n] else path.

(** ** Notions used in the statements *)

(** A bare string or an object: the two forms of an entry. *)
Definition str_or_obj (v : jsval) : Prop :=
  match v with
  | VStr _ | VObj _ => True
  | _ => False
  end.

(** The identifying field of an entry in either form. *)
Definition field_of (field : string) (v : jsval) : jsval :=
  match v with
  | VStr _ => v
  | VObj o => get field o
  | _ => VUndefined
  end.

(** The position [unique] reports for entries compared on [field]: the
    first entry whose field equals that of an earlier one. *)
Fixpoint duplicate_position (field : string) (records : list jsval) (i : nat)
  (value : list jsval) : option nat :=
  match value with
  | [] => None
  | item :: rest =>
      if existsb (fun r => strict_eq (field_of field r) (field_of field item))
           records
      then Some i
      else duplicate_position field (records ++ [item]) (S i) rest
  end.

Section Parts.

Variable JSON_parse : string -> option jsval.
Variable uri_regex : string -> bool.

(** A schema never throws. *)
Definition total (s : Joi.schema) : Prop :=
  forall path v,
    exists out,
      Joi._validate JSON_parse uri_regex validate_options s path v = Ok out.

(** A schema accepts a value, at whatever path. *)
Definition accepted (s : Joi.schema) (v : jsval) : Prop :=
  forall path,
    exists v',
      Joi._validate JSON_parse uri_regex validate_options s path v
      = Ok (v', []).

(** A schema rejects a value at a path: it reports an error. *)
Definition rejected (s : Joi.schema) (path : list jsval) (v : jsval) : Prop :=
  exists v' d errors,
    Joi._validate JSON_parse uri_regex validate_options s path v
    = Ok (v', d :: errors).

(** The values accepted by a schema, when defined, come out with [P]. *)
Definition accepts_only (s : Joi.schema) (P : jsval -> Prop) : Prop :=
  forall path v v',
    v <> VUndefined ->
    Joi._validate JSON_parse uri_regex validate_options s path v = Ok (v', []) ->
    P v'.

(** The parts of a document that validation visits below a value: the
    keys of an object, the items of an array (for a [single] array, when
    its schema cannot take the whole array as one item), the value itself
    wrapped by [single], and the value under each alternative when no
    alternative accepts it. *)
Inductive part
  : Joi.schema * list jsval * jsval -> Joi.schema * list jsval * jsval -> Prop :=
| part_key f children path o k s :
    NoDup (map fst children) ->
    In (k, s) children ->
    part (Joi.SObject f children, path, VObj o)
         (s, path ++ [VStr k], get k o)
| part_item f single_flag s tests path l n item :
    nth_error l n = Some item ->
    item <> VUndefined ->
    (single_flag = true -> forall p l', rejected s p (VArr l')) ->
    part (Joi.SArray f single_flag [s] tests, path, VArr l)
         (s, path ++ [Joi.index n], item)
| part_wrapped f s tests path o :
    part (Joi.SArray f true [s] tests, path, VObj o) (s, path, VObj o)
| part_alternative f matches path v m :
    In m matches ->
    v <> VUndefined ->
    rejected (Joi.SAlternatives f matches) path v ->
    part (Joi.SAlternatives f matches, path, v) (m, path, v).

(** Below, at any depth. *)
Inductive part_of
  : Joi.schema * list jsval * jsval -> Joi.schema * list jsval * jsval -> Prop :=
| part_here x : part_of x x
| part_below x y z : part x y -> part_of y z -> part_of x z.

End Parts.

(** A comparator that never throws on values with [P]. *)
Definition comparator_total (P : jsval -> Prop)
  (c : jsval -> jsval -> result bool) : Prop :=
  forall a b, P a -> P b -> exists r, c a b = Ok r.

Definition rule_total (P : jsval -> Prop) (t : Joi.array_rule) : Prop :=
  match t with
  | Joi.rule_min _ => True
  | Joi.rule_unique c => comparator_total P c
  end.

(** An entry that validation has accepted: a string, or an object holding
    only keys of the object form. *)
Definition entry_shape (keys : list string) (v : jsval) : Prop :=
  match v with
  | VStr _ => True
  | VObj o => forall k, lookup k o <> None -> In k keys
  | _ => False
  end.

(** The schema of an entry: a string, or an object with the given keys. *)
Definition entry_schema (children : list (string * Joi.schema)) : Joi.schema :=
  Joi.alternatives_try
    [Joi.string_ .> Joi.required; Joi.object_ children].

(** The schema of a list field of an item: entries, unique on a field,
    and the empty list by default. *)
Definition list_field (entry : Joi.schema) (field : string) : Joi.schema :=
  Joi.SArray {| Joi.presence_required := false;
                Joi.default_value := Some (VArr []) |}
    false [entry] [Joi.rule_unique (checkUniqueField field)].

(** An item of a document, with the path validation gives it: the
    document itself when it is a single object, an element of the
    document when it is a list. *)
Inductive document_item
  : jsval -> list jsval -> list (string * jsval) -> Prop :=
| item_alone o : document_item (VObj o) [] o
| item_listed items n o :
    nth_error items n = Some (VObj o) ->
    document_item (VArr items) [Joi.index n] o.

(** The schema of the [datasources] field of an item. *)
Definition datasources_schema : Joi.schema :=
  Joi.array_ .> Joi.items [DataSourceSchema]
    .> Joi.unique (checkUniqueField "url") .> Joi.default (VArr []).

(** Documents used below, with the texts they are parsed from. *)
Definition duplicate_url_document : list (string * jsval) :=
  [("datasources: ['https://example.com/d.json', {url: 'https://example.com/d.json'}]",
    VObj [("datasources",
           VArr [VStr "https://example.com/d.json";
                 VObj [("url", VStr "https://example.com/d.json")]])])].

Definition duplicate_path_document : list (string * jsval) :=
  [("datasources: [data.json, {url: data.json}]",
    VObj [("datasources",
           VArr [VStr "data.json"; VObj [("url", VStr "data.json")]])])].

Definition two_violations_document : list (string * jsval) :=
  [("[{watch: nope, args: []}]",
    VArr [VObj [("watch", VStr "nope"); ("args", VArr [])]])].

Definition duplicate_and_number_documents : list (string * jsval) :=
  [("datasources: ['https://example.com/d.json', 'https://example.com/d.json', 5]",
    VObj [("datasources",
           VArr [VStr "https://example.com/d.json";
                 VStr "https://example.com/d.json"; VNum 5])]);
   ("datasources: ['https://example.com/d.json', 'https://example.com/d.json']",
    VObj [("datasources",
           VArr [VStr "https://example.com/d.json";
                 VStr "https://example.com/d.json"])])].

Definition aliased_source : list (string * jsval) :=
  [("url", VStr "file:///data/x.json"); ("alias", VStr "data1")].

Definition filestore_document : list (string * jsval) :=
  [("datasources: ['filestore://bucket/x.json', 'https://example.com/y']",
    VObj [("datasources",
           VArr [VStr "filestore://bucket/x.json";
                 VStr "https://example.com/y"])])].

(** The keys of a data source in object form. *)
Definition data_source_keys : list string :=
  ["url"; "alias"; "on_change"; "args"].

(** A validated item: an object whose [datasources] is a list of accepted
    entries. *)
Definition item_shape (v : jsval) : Prop :=
  exists o ds,
    v = VObj o
    /\ get "datasources" o = VArr ds
    /\ Forall (entry_shape data_source_keys) ds.

(** What C8 says of a normalized item, with the protocol test the code
    makes: the two lists are the normalized data sources that have a path
    and those that do not, each in the original order, and a source has a
    path exactly when the protocol of its url starts with "file". *)
Definition partitioned (new_URL : string -> result url) (item : jsval) : Prop :=
  exists o raw_sources sources,
    item = VObj o
    /\ get "datasources" o = VArr raw_sources
    /\ map_result (mapDataSource new_URL) raw_sources = Ok sources
    /\ get "fileDataSources" o = VArr (filter has_path sources)
    /\ get "otherDataSources" o
       = VArr (filter (fun v => negb (has_path v)) sources)
    /\ Permutation sources
         (filter has_path sources
          ++ filter (fun v => negb (has_path v)) sources)
    /\ Forall
         (fun source =>
            exists props u,
              source = VObj props
              /\ URL_of new_URL (get "url" props) = Ok u
              /\ has_path source = startsWith "file" (protocol u))
         sources.

Definition file_and_remote_document : list (string * jsval) :=
  [("datasources: ['file:///data/x.json', 'https://example.com/y']",
    VObj [("datasources",
           VArr [VStr "file:///data/x.json"; VStr "https://example.com/y"])])].

(** The options of [parseConfig] with [abortEarly] switched on, for
    comparison. *)
Definition fail_fast_options : Joi.options :=
  {| Joi.abortEarly := true;
     Joi.allowUnknown := false;
     Joi.stripUnknown := {| Joi.arrays := false; Joi.objects := true |} |}.

(** ** Further notions used in the statements *)

(** The [-k v] pairs that one flag contributes to the argument vector. *)
Definition flag_pairs (k : string) (curVal : jsval) : list jsval :=
  match curVal with
  | VArr l => flat_map (fun v => [VStr ("-" ++ k); v]) l
  | _ => [VStr ("-" ++ k); curVal]
  end.

(** The argument vector rebuilt from a flag object. *)
Definition argv_of (args : list (string * jsval)) : list jsval :=
  flat_map (fun k => flag_pairs k (get k args)) (keys args).

(** No two members are equal for [Set]: the members of a set. *)
Definition set_members (l : list jsval) : Prop :=
  ForallOrdPairs (fun a b => strict_eq a b = false) l.

(** A text without a given character. *)
Definition without (c : ascii) (s : string) : bool :=
  forallb_string (fun x => negb (Ascii.eqb x c)) s.

(** An object with distinct keys, the first of which is [k]: what
    [Object.assign] builds from a literal with the one key [k]. *)
Definition headed (k : string) (o : list (string * jsval)) : Prop :=
  NoDup (keys o) /\ exists v rest, o = (k, v) :: rest.

(** The keys of an item that hold lists of entries. *)
Definition list_keys : list string :=
  ["dependencies"; "templates"; "datasources"; "files"].

(** The keys of an item that the schema knows. *)
Definition item_keys : list string :=
  ["watch"; "dependencies"; "templates"; "datasources"; "files";
   "on_change"; "args"].

Definition is_object (v : jsval) : Prop :=
  match v with VObj _ => True | _ => False end.

(** An item as validation returns it: known keys only, a boolean [watch]
    and the four lists. *)
Definition validated_item (v : jsval) : Prop :=
  exists o,
    v = VObj o
    /\ (forall k, lookup k o <> None -> In k item_keys)
    /\ (exists b, get "watch" o = VBool b)
    /\ (forall k, In k list_keys -> exists l, get k o = VArr l).

(** An item as [parseConfig] returns it: the known keys and the two lists
    of normalized data sources, a boolean [watch], and lists of objects
    where the entries have been normalized. *)
Definition normalized_item (v : jsval) : Prop :=
  exists o,
    v = VObj o
    /\ (forall k, lookup k o <> None ->
          In k (item_keys ++ ["fileDataSources"; "otherDataSources"]))
    /\ (exists b, get "watch" o = VBool b)
    /\ (forall k,
          In k ["dependencies"; "templates"; "files"; "fileDataSources";
                "otherDataSources"] ->
          exists l, get k o = VArr l /\ Forall is_object l).

(** The items of a document: the elements of a list (also of a string
    that holds a list in JSON), or the document itself as the one item. *)
Definition document_items (JSON_parse : string -> option jsval) (raw : jsval)
  : list jsval :=
  match Joi.safeParse_array JSON_parse raw with
  | VArr l => l
  | v => [v]
  end.

(** The lists of an item: the key, the schema of an entry and the field
    on which the entries are compared. *)
Definition list_fields : list (string * Joi.schema * string) :=
  [("dependencies", FilePathSchema, "path");
   ("templates", FilePathSchema, "path");
   ("datasources", DataSourceSchema, "url");
   ("files", FileSchema, "input_path")].

(** No two entries of a list have the same identifying field. *)
Definition distinct_on (field : string) (entries : list jsval) : Prop :=
  forall a b x y,
    a < b ->
    nth_error entries a = Some x -> nth_error entries b = Some y ->
    strict_eq (field_of field x) (field_of field y) = false.

(** The flags of a key that is [required()]. *)
Definition required_flags : Joi.flags :=
  {| Joi.presence_required := true; Joi.default_value := None |}.

(** Further documents, with the texts they are parsed from. *)
Definition two_item_document : list (string * jsval) :=
  [("[{templates: [a.tpl], files: [{input_path: in.tpl, output_path: 'out-[name].txt'}]}, {watch: true}]",
    VArr [VObj [("templates", VArr [VStr "a.tpl"]);
                ("files",
                 VArr [VObj [("input_path", VStr "in.tpl");
                             ("output_path", VStr "out-[name].txt")]])];
          VObj [("watch", VBool true)]])].

Definition relative_url_document : list (string * jsval) :=
  [("datasources: [data.json]",
    VObj [("datasources", VArr [VStr "data.json"])])].


(** * Properties *)

(** ** The template compiler *)

Example template_scan_1 :
  Lodash.template (VStr "out-[name].txt") templateInterpolateReg
  = Ok (VTemplate [Lit "out-"; Interp "name"; Lit ".txt"]).
Proof. reflexivity. Qed.

Example template_scan_2 :
  Lodash.template (VStr "[a][b-c][[d]]e[") templateInterpolateReg
  = Ok (VTemplate [Interp "a"; Lit "[b-c]["; Interp "d"; Lit "]e["]).
Proof. reflexivity. Qed.

(** C9.  Compiling "out-[name].txt" gives one function; called with the
    context {name: "a"} it gives "out-a.txt", and the same function called
    with {name: "b"} gives "out-b.txt".  [mapFile] stores that function as
    [makeOutputPath] of a file whose [output_path] is this template. *)
Theorem template_round_trip :
  exists makeOutputPath : jsval,
    Lodash.template (VStr "out-[name].txt") templateInterpolateReg
    = Ok makeOutputPath
    /\ Lodash.call makeOutputPath [("name", VStr "a")] = Ok "out-a.txt"
    /\ Lodash.call makeOutputPath [("name", VStr "b")] = Ok "out-b.txt"
    /\ mapFile
         (VObj [("input_path", VStr "in.tpl");
                ("output_path", VStr "out-[name].txt")])
       = Ok (VObj [("input_path", VStr "in.tpl");
                   ("output_path", VStr "out-[name].txt");
                   ("makeOutputPath", makeOutputPath)]).
Proof.
  exists (VTemplate [Lit "out-"; Interp "name"; Lit ".txt"]).
  repeat split; reflexivity.
Qed.

(** ** Acquisition *)

Lemma set_and_not_empty_true (v : option string) (s : string) :
  v = Some s -> s <> EmptyString -> set_and_not_empty v = true.
Proof.
  intros -> Hs. unfold set_and_not_empty.
  destruct (String.eqb_spec s EmptyString); [contradiction | reflexivity].
Qed.

Lemma strict_eq_code (e : exn) (c : string) :
  strict_eq (code e) (VStr c) = true <-> code e = VStr c.
Proof.
  destruct e; simpl; split; intros H; try discriminate.
  - apply String.eqb_eq in H. now subst.
  - injection H as ->. apply String.eqb_refl.
Qed.

Section Acquisition.

Variable new_URL : string -> result url.
Variable argsparse : string -> list (string * jsval).
Variable path_parse : string -> string * string.
Variable path_join : string -> string -> string.
Variable readFile : string -> result string.
Variable execFile : jsval -> list jsval -> result string.
Variable ENV : environment.
Variable process_env_CONFIG_PATH : option string.

Local Abbreviation run :=
  (getConfig new_URL argsparse path_parse path_join readFile execFile ENV
     process_env_CONFIG_PATH).

(** With both variables set, [getConfig] throws before anything else: the
    conflict when [args.f] is truthy, and otherwise the [ReferenceError] of
    the assignment [args.f = value.CONFIG_PATH]. *)
Lemma command_mode_with_config_path (templateArgs : string) :
  CONFIG_TEMPLATE_ARGS ENV = Some templateArgs ->
  set_and_not_empty (CONFIG_TEMPLATE_ARGS ENV) = true ->
  set_and_not_empty process_env_CONFIG_PATH = true ->
  run = ([], Throw (if truthy (get "f" (argsparse templateArgs))
                    then Error (conflict_message templateArgs)
                    else ReferenceError "value")).
Proof.
  intros Hargs Hset Hpath. unfold getConfig.
  rewrite Hset, Hargs, Hpath.
  destruct (truthy (get "f" (argsparse templateArgs))); reflexivity.
Qed.

(** C1 (amended).  When the templated-args variable and the file-path
    variable are both set to a non-empty text and the parsed flags hold a
    truthy value under [f], [getConfig] throws the error whose message
    names both sources, and nothing has been read or executed. *)
Theorem conflict_is_raised_before_any_io (templateArgs configPath : string) :
  CONFIG_TEMPLATE_ARGS ENV = Some templateArgs ->
  templateArgs <> EmptyString ->
  process_env_CONFIG_PATH = Some configPath ->
  configPath <> EmptyString ->
  truthy (get "f" (argsparse templateArgs)) = true ->
  run = ([], Throw (Error (conflict_message templateArgs)))
  /\ occurs "CONFIG_PATH env" (conflict_message templateArgs) = true
  /\ occurs "option of CONFIG_TEMPLATE_ARGS env"
       (conflict_message templateArgs) = true.
Proof.
  intros Hargs Hne Hpath Hpne Hf. split; [| split].
  - rewrite (command_mode_with_config_path templateArgs Hargs).
    + now rewrite Hf.
    + now apply set_and_not_empty_true with templateArgs.
    + now apply set_and_not_empty_true with configPath.
  - reflexivity.
  - reflexivity.
Qed.

(** C3.  In file mode [getConfig] reads [<dir>/<base>.yaml] and then
    [<dir>/<base>.yml].  A failure of the first read whose code is not
    ENOENT is thrown.  Otherwise, whether the first read succeeded (its
    text is dropped) or failed with ENOENT, the second read is made and
    its text is the configuration, with the base path without extension as
    the only dependency. *)
Theorem file_mode_reads_yml (p : string) :
  set_and_not_empty (CONFIG_TEMPLATE_ARGS ENV) = false ->
  CONFIG_PATH ENV = Some p ->
  let curPath := path_join (fst (path_parse p)) (snd (path_parse p)) in
  let yaml := (curPath ++ ".yaml")%string in
  let yml := (curPath ++ ".yml")%string in
  (forall e, readFile yaml = Throw e -> code e <> VStr "ENOENT" ->
     run = ([ReadFile yaml], Throw e))
  /\ ((exists discarded, readFile yaml = Ok discarded)
      \/ (exists e, readFile yaml = Throw e /\ code e = VStr "ENOENT") ->
      run = ([ReadFile yaml; ReadFile yml],
             match readFile yml with
             | Ok text => Ok {| config := text; configDeps := [VStr curPath] |}
             | Throw e => Throw e
             end)).
Proof.
  intros Hmode Hp curPath yaml yml. unfold getConfig.
  rewrite Hmode, Hp. destruct (path_parse p) as [dir name]. simpl fst in *.
  simpl snd in *. fold curPath. fold yaml. fold yml.
  unfold fs_readFile, io_catch, io_bind, io_ret, io_throw. split.
  - intros e He Hcode. rewrite He.
    destruct (strict_eq (code e) (VStr "ENOENT")) eqn:E.
    + apply strict_eq_code in E. contradiction.
    + reflexivity.
  - intros [[c Hc] | [e [He Hcode]]].
    + rewrite Hc. simpl. now destruct (readFile yml).
    + rewrite He. apply strict_eq_code in Hcode. rewrite Hcode. simpl.
      now destruct (readFile yml).
Qed.


(** What the reducer does with one flag, by the letter of the flag. *)
Lemma getPathFromArg_t_f (v : jsval) :
  getPathFromArg new_URL "t" v = Ok v /\ getPathFromArg new_URL "f" v = Ok v.
Proof. split; reflexivity. Qed.

Lemma getPathFromArg_d (s : string) (u : url) :
  new_URL
    (substring_from
       (match indexOf "=" s with Some i => i + 1 | None => 0 end) s) = Ok u ->
  getPathFromArg new_URL "d" (VStr s)
  = Ok (if startsWith "file" (protocol u) then VStr (pathname u) else VNull).
Proof.
  intros H. unfold getPathFromArg. simpl. rewrite H. simpl.
  now destruct (startsWith "file" (protocol u)).
Qed.

Lemma getPathFromArg_other (arg : string) (v : jsval) :
  arg <> "t" -> arg <> "f" -> arg <> "d" ->
  getPathFromArg new_URL arg v = Ok VNull.
Proof.
  intros Ht Hf Hd. unfold getPathFromArg. simpl.
  destruct (String.eqb_spec arg "t"); [contradiction |].
  destruct (String.eqb_spec arg "f"); [contradiction |].
  destruct (String.eqb_spec arg "d"); [contradiction |].
  reflexivity.
Qed.

(** C4.  For the flags {t: "tmpl.tpl", d: ["alias=file:///data/x.json",
    "alias2=https://example.com/y"]} the dependencies collected while the
    argument vector is rebuilt are exactly "tmpl.tpl" and "/data/x.json".
    A [t] or [f] flag gives its value; a [d] flag gives the pathname of
    the URL after the first '=' when its protocol starts with "file" and
    nothing otherwise; no other flag gives anything.  When the command
    of these flags prints its text, [getConfig] returns that text with
    these two dependencies. *)
Theorem argv_dependency_extraction :
  new_URL "file:///data/x.json"
  = Ok {| protocol := "file:"; pathname := "/data/x.json" |} ->
  new_URL "https://example.com/y"
  = Ok {| protocol := "https:"; pathname := "/y" |} ->
  cmdArgs new_URL
    [("t", VStr "tmpl.tpl");
     ("d", VArr [VStr "alias=file:///data/x.json";
                 VStr "alias2=https://example.com/y"])]
  = Ok ([VStr "-t"; VStr "tmpl.tpl";
         VStr "-d"; VStr "alias=file:///data/x.json";
         VStr "-d"; VStr "alias2=https://example.com/y"],
        [VStr "tmpl.tpl"; VStr "/data/x.json"])
  /\ (forall v, getPathFromArg new_URL "t" v = Ok v)
  /\ (forall v, getPathFromArg new_URL "f" v = Ok v)
  /\ (forall s u,
        new_URL
          (substring_from
             (match indexOf "=" s with Some i => i + 1 | None => 0 end) s)
        = Ok u ->
        getPathFromArg new_URL "d" (VStr s)
        = Ok (if startsWith "file" (protocol u)
              then VStr (pathname u) else VNull))
  /\ (forall arg v, arg <> "t" -> arg <> "f" -> arg <> "d" ->
        getPathFromArg new_URL arg v = Ok VNull)
  /\ (forall templateArgs stdout,
        CONFIG_TEMPLATE_ARGS ENV = Some templateArgs ->
        templateArgs <> EmptyString ->
        set_and_not_empty process_env_CONFIG_PATH = false ->
        argsparse templateArgs
        = [("_", VArr [VStr "gomplate"]);
           ("t", VStr "tmpl.tpl");
           ("d", VArr [VStr "alias=file:///data/x.json";
                       VStr "alias2=https://example.com/y"])] ->
        execFile (VStr "gomplate")
          [VStr "-t"; VStr "tmpl.tpl";
           VStr "-d"; VStr "alias=file:///data/x.json";
           VStr "-d"; VStr "alias2=https://example.com/y"] = Ok stdout ->
        snd run
        = Ok {| config := stdout;
                configDeps := [VStr "tmpl.tpl"; VStr "/data/x.json"] |}).
Proof.
  intros Hfile Hhttps.
  assert (Hcmd :
    cmdArgs new_URL
      [("t", VStr "tmpl.tpl");
       ("d", VArr [VStr "alias=file:///data/x.json";
                   VStr "alias2=https://example.com/y"])]
    = Ok ([VStr "-t"; VStr "tmpl.tpl";
           VStr "-d"; VStr "alias=file:///data/x.json";
           VStr "-d"; VStr "alias2=https://example.com/y"],
          [VStr "tmpl.tpl"; VStr "/data/x.json"])).
  { unfold cmdArgs, reduce, reducer, forEach, push_arg, getPathFromArg.
    simpl. rewrite Hfile. simpl. rewrite Hhttps. reflexivity. }
  split; [exact Hcmd |]. split; [| split; [| split; [| split]]].
  - intros v. apply getPathFromArg_t_f.
  - intros v. apply getPathFromArg_t_f.
  - apply getPathFromArg_d.
  - apply getPathFromArg_other.
  - intros templateArgs stdout Hargs Hne Hpath Hparsed Hexec.
    unfold getConfig.
    rewrite (set_and_not_empty_true _ _ Hargs Hne), Hargs, Hpath, Hparsed.
    cbv [io_bind io_ret io_lift io_throw execFileAsync].
    cbn [get lookup String.eqb Ascii.eqb Bool.eqb first_element].
    change (delete "_"
              [("_", VArr [VStr "gomplate"]);
               ("t", VStr "tmpl.tpl");
               ("d", VArr [VStr "alias=file:///data/x.json";
                           VStr "alias2=https://example.com/y"])])
      with [("t", VStr "tmpl.tpl");
            ("d", VArr [VStr "alias=file:///data/x.json";
                        VStr "alias2=https://example.com/y"])].
    rewrite Hcmd. cbn [is_nil]. rewrite Hexec. reflexivity.
Qed.

(** C5 (amended).  In command mode, with the file-path variable unset and
    no positional token, [getConfig] fails and nothing is executed, given
    that [execFile] refuses a command that is [undefined] (Node checks
    that the file is a string, and throws a [TypeError], before it spawns
    anything).  [getConfig] itself does not look at the command: a failure
    while the flags are turned into arguments is its failure; with an
    empty argument vector it throws its error about the missing argument,
    before any call; otherwise it makes the call of [execFile] with
    [undefined] as the command, and fails with the [TypeError] of that
    refused call, which is the one event of the run. *)
Theorem missing_command_fails_without_execution (templateArgs : string) :
  CONFIG_TEMPLATE_ARGS ENV = Some templateArgs ->
  templateArgs <> EmptyString ->
  set_and_not_empty process_env_CONFIG_PATH = false ->
  get "_" (argsparse templateArgs) = VArr [] ->
  (forall arr, exists message,
      execFile VUndefined arr = Throw (TypeError message)) ->
  let flags := delete "_" (argsparse templateArgs) in
  (exists e, snd run = Throw e)
  /\ (forall e, cmdArgs new_URL flags = Throw e -> run = ([], Throw e))
  /\ (forall deps,
        cmdArgs new_URL flags = Ok ([], deps) ->
        run = ([],
               Throw (Error
                        "CONFIG_TEMPLATE_ARGS env requires at least one argument")))
  /\ (forall arr deps,
        cmdArgs new_URL flags = Ok (arr, deps) ->
        arr <> [] ->
        exists message,
          execFile VUndefined arr = Throw (TypeError message)
          /\ run = ([ExecFile VUndefined arr], Throw (TypeError message))).
Proof.
  intros Hargs Hne Hpath Hpos Hnode flags.
  assert (Hrun :
    run
    = match cmdArgs new_URL flags with
      | Throw e => ([], Throw e)
      | Ok ([], _) =>
          ([],
           Throw (Error
                    "CONFIG_TEMPLATE_ARGS env requires at least one argument"))
      | Ok (arr, deps) =>
          ([ExecFile VUndefined arr],
           match execFile VUndefined arr with
           | Ok stdout => Ok {| config := stdout; configDeps := deps |}
           | Throw e => Throw e
           end)
      end).
  { unfold getConfig.
    rewrite (set_and_not_empty_true _ _ Hargs Hne), Hargs, Hpath.
    cbv [io_bind io_ret io_lift io_throw execFileAsync].
    rewrite Hpos. cbn [first_element]. fold flags.
    destruct (cmdArgs new_URL flags) as [[[| a arr] deps] | e];
      cbn [is_nil]; try reflexivity.
    now destruct (execFile VUndefined (a :: arr)). }
  rewrite Hrun. split; [| split; [| split]].
  - destruct (cmdArgs new_URL flags) as [[[| a arr] deps] | e];
      cbn [snd]; eauto.
    destruct (Hnode (a :: arr)) as [message ->]. eauto.
  - intros e ->. reflexivity.
  - intros deps ->. reflexivity.
  - intros arr deps -> Harr. destruct arr as [| a arr]; [contradiction |].
    destruct (Hnode (a :: arr)) as [message Hm]. exists message.
    split; [exact Hm | now rewrite Hm].
Qed.

End Acquisition.

(** *** Concrete acquisitions *)

(** C1, as stated, fails: with "-f 0" the parsed flags include [f], the
    file-path variable is set, and [getConfig] throws the
    [ReferenceError] of line 119, not the conflict. *)
Lemma conflict_not_raised_for_falsy_flag :
  let args := Sample.argsparse gomplate_flag_0 "gomplate -f 0" in
  let outcome :=
    getConfig Sample.new_URL (Sample.argsparse gomplate_flag_0)
      Sample.path_parse Sample.path_join (Sample.readFile [])
      (Sample.execFile [])
      {| CONFIG_TEMPLATE_ARGS := Some "gomplate -f 0";
         CONFIG_PATH := Some "/etc/watcher/config.yml" |}
      (Some "/etc/watcher/config.yml") in
  lookup "f" args = Some (VNum 0)
  /\ outcome = ([], Throw (ReferenceError "value"))
  /\ outcome <> ([], Throw (Error (conflict_message "gomplate -f 0"))).
Proof. repeat split. discriminate. Qed.

Lemma conflict_is_raised_before_any_io_witness :
  getConfig Sample.new_URL (Sample.argsparse gomplate_flag_path)
    Sample.path_parse Sample.path_join (Sample.readFile [])
    (Sample.execFile [])
    {| CONFIG_TEMPLATE_ARGS := Some "gomplate -f /etc/watcher/in.tpl";
       CONFIG_PATH := Some "/etc/watcher/config.yml" |}
    (Some "/etc/watcher/config.yml")
  = ([], Throw (Error (conflict_message "gomplate -f /etc/watcher/in.tpl"))).
Proof.
  apply (conflict_is_raised_before_any_io Sample.new_URL
           (Sample.argsparse gomplate_flag_path) Sample.path_parse
           Sample.path_join (Sample.readFile []) (Sample.execFile [])
           _ _ "gomplate -f /etc/watcher/in.tpl" "/etc/watcher/config.yml");
    [reflexivity | discriminate | reflexivity | discriminate | reflexivity].
Defined.

(** C2.  With "gomplate -t tmpl.tpl" as templated args (no [f] flag) and
    the file-path variable set, [getConfig] does not inject the path: it
    throws the [ReferenceError] of [args.f = value.CONFIG_PATH], before
    the command is run. *)
Theorem file_path_injection_throws :
  getConfig Sample.new_URL (Sample.argsparse gomplate_flag_t)
    Sample.path_parse Sample.path_join (Sample.readFile [])
    (Sample.execFile [("gomplate", "watch: true")])
    {| CONFIG_TEMPLATE_ARGS := Some "gomplate -t tmpl.tpl";
       CONFIG_PATH := Some "/etc/watcher/config.yml" |}
    (Some "/etc/watcher/config.yml")
  = ([], Throw (ReferenceError "value")).
Proof. reflexivity. Qed.

Lemma file_mode_reads_yml_witness :
  getConfig Sample.new_URL (Sample.argsparse []) Sample.path_parse
    Sample.path_join (Sample.readFile watcher_files) (Sample.execFile [])
    {| CONFIG_TEMPLATE_ARGS := None;
       CONFIG_PATH := Some "/etc/watcher/config.yml" |} None
  = ([ReadFile "/etc/watcher/config.yaml"; ReadFile "/etc/watcher/config.yml"],
     Ok {| config := "watch: false";
           configDeps := [VStr "/etc/watcher/config"] |}).
Proof.
  apply (proj2
           (file_mode_reads_yml Sample.new_URL (Sample.argsparse [])
              Sample.path_parse Sample.path_join
              (Sample.readFile watcher_files) (Sample.execFile [])
              {| CONFIG_TEMPLATE_ARGS := None;
                 CONFIG_PATH := Some "/etc/watcher/config.yml" |} None
              "/etc/watcher/config.yml" eq_refl eq_refl)).
  left. exists "watch: true". reflexivity.
Defined.

Lemma argv_dependency_extraction_witness :
  cmdArgs Sample.new_URL
    [("t", VStr "tmpl.tpl");
     ("d", VArr [VStr "alias=file:///data/x.json";
                 VStr "alias2=https://example.com/y"])]
  = Ok ([VStr "-t"; VStr "tmpl.tpl";
         VStr "-d"; VStr "alias=file:///data/x.json";
         VStr "-d"; VStr "alias2=https://example.com/y"],
        [VStr "tmpl.tpl"; VStr "/data/x.json"]).
Proof.
  apply (argv_dependency_extraction Sample.new_URL (Sample.argsparse [])
           Sample.path_parse Sample.path_join (Sample.readFile [])
           (Sample.execFile [])
           {| CONFIG_TEMPLATE_ARGS := None; CONFIG_PATH := None |} None);
    reflexivity.
Defined.

(** C5, as stated, fails: without a positional token [getConfig] detects
    nothing and does attempt the execution: it calls [execFile] with
    [undefined] as the command, and the error is the [TypeError] with
    which that call is refused. *)
Lemma missing_command_reaches_execFile :
  let outcome :=
    getConfig Sample.new_URL (Sample.argsparse flag_t_only)
      Sample.path_parse Sample.path_join (Sample.readFile [])
      (Sample.execFile [])
      {| CONFIG_TEMPLATE_ARGS := Some "-t tmpl.tpl"; CONFIG_PATH := None |}
      None in
  outcome
  = ([ExecFile VUndefined [VStr "-t"; VStr "tmpl.tpl"]],
     Throw (TypeError "The file argument must be of type string"))
  /\ fst outcome <> [].
Proof. split. reflexivity. discriminate. Qed.

Lemma missing_command_fails_without_execution_witness :
  let run :=
    getConfig Sample.new_URL (Sample.argsparse flag_t_only)
      Sample.path_parse Sample.path_join (Sample.readFile [])
      (Sample.execFile [])
      {| CONFIG_TEMPLATE_ARGS := Some "-t tmpl.tpl"; CONFIG_PATH := None |}
      None in
  (exists e, snd run = Throw e)
  /\ exists message,
       Sample.execFile [] VUndefined [VStr "-t"; VStr "tmpl.tpl"]
       = Throw (TypeError message)
       /\ run = ([ExecFile VUndefined [VStr "-t"; VStr "tmpl.tpl"]],
                 Throw (TypeError message)).
Proof.
  destruct (missing_command_fails_without_execution Sample.new_URL
              (Sample.argsparse flag_t_only) Sample.path_parse
              Sample.path_join (Sample.readFile []) (Sample.execFile [])
              {| CONFIG_TEMPLATE_ARGS := Some "-t tmpl.tpl";
                 CONFIG_PATH := None |} None
              "-t tmpl.tpl" eq_refl ltac:(discriminate) eq_refl eq_refl
              (fun arr =>
                 ex_intro _ "The file argument must be of type string"
                   eq_refl))
    as (Hfails & _ & _ & Hcall).
  split; [exact Hfails |].
  apply (Hcall [VStr "-t"; VStr "tmpl.tpl"] [VStr "tmpl.tpl"]).
  - reflexivity.
  - discriminate.
Defined.

(** ** Objects *)

Lemma lookup_set_same (k : string) (v : jsval) (o : list (string * jsval)) :
  lookup k (set k v o) = Some v.
Proof.
  induction o as [| [k' v'] o IH]; simpl.
  - now rewrite String.eqb_refl.
  - destruct (String.eqb_spec k' k) as [-> | Hne]; simpl.
    + now rewrite String.eqb_refl.
    + destruct (String.eqb_spec k' k); [contradiction | exact IH].
Qed.

Lemma lookup_set_other (k k' : string) (v : jsval)
  (o : list (string * jsval)) :
  k <> k' -> lookup k (set k' v o) = lookup k o.
Proof.
  intros Hne. induction o as [| [k0 v0] o IH]; simpl.
  - destruct (String.eqb_spec k' k); [congruence | reflexivity].
  - destruct (String.eqb_spec k0 k') as [-> | Hne0]; simpl.
    + destruct (String.eqb_spec k' k); [congruence | reflexivity].
    + destruct (String.eqb_spec k0 k); [reflexivity | exact IH].
Qed.

Lemma get_set_same (k : string) (v : jsval) (o : list (string * jsval)) :
  get k (set k v o) = v.
Proof. unfold get. now rewrite lookup_set_same. Qed.

Lemma get_set_other (k k' : string) (v : jsval) (o : list (string * jsval)) :
  k <> k' -> get k (set k' v o) = get k o.
Proof. intros H. unfold get. now rewrite lookup_set_other. Qed.

Lemma lookup_filter_kept (p : string -> bool) (k : string)
  (o : list (string * jsval)) :
  p k = true -> lookup k (filter (fun kv => p (fst kv)) o) = lookup k o.
Proof.
  intros Hp. induction o as [| [k' v'] o IH]; simpl; [reflexivity |].
  destruct (p k') eqn:Hk'; simpl.
  - destruct (String.eqb_spec k' k); [reflexivity | exact IH].
  - destruct (String.eqb_spec k' k) as [-> | _]; [congruence | exact IH].
Qed.

Lemma lookup_filter_dropped (p : string -> bool) (k : string)
  (o : list (string * jsval)) :
  p k = false -> lookup k (filter (fun kv => p (fst kv)) o) = None.
Proof.
  intros Hp. induction o as [| [k' v'] o IH]; simpl; [reflexivity |].
  destruct (p k') eqn:Hk'; simpl; [| exact IH].
  destruct (String.eqb_spec k' k) as [-> | _]; [congruence | exact IH].
Qed.

Lemma lookup_set_keys (k k' : string) (v : jsval)
  (o : list (string * jsval)) :
  lookup k (set k' v o) <> None -> k = k' \/ lookup k o <> None.
Proof.
  intros H. destruct (String.eqb_spec k k') as [-> | Hne]; [now left |].
  right. now rewrite lookup_set_other in H.
Qed.

(** ** Facts about the validation algorithm *)

(** The validation of the keys of an object, without [abortEarly]: every
    key is validated at the value the object has for it, all its errors
    are kept, and a key validated without error ends up holding the
    validated value. *)
Lemma validate_children_spec (children : list (string * Joi.validator))
  (path : list jsval) :
  NoDup (map fst children) ->
  forall target target' errors,
    Joi.validate_children validate_options children path target
    = Ok (target', errors) ->
    Forall
      (fun kc =>
         exists v e,
           snd kc (path ++ [VStr (fst kc)]) (get (fst kc) target) = Ok (v, e)
           /\ incl e errors
           /\ (e = [] ->
               get (fst kc) target'
               = match v with
                 | VUndefined => get (fst kc) target
                 | _ => v
                 end))
      children
    /\ (forall k, ~ In k (map fst children) -> get k target' = get k target)
    /\ (forall k, lookup k target' <> None ->
          In k (map fst children) \/ lookup k target <> None).
Proof.
  induction children as [| [k0 c0] rest IH]; intros Hnd target target' errors H.
  - simpl in H. injection H as <- <-. repeat split; auto.
  - simpl in H. inversion Hnd as [| ? ? Hnotin Hnd']; subst.
    destruct (c0 (path ++ [VStr k0]) (get k0 target)) as [[v e] | ex] eqn:Hc0;
      simpl in H; [| discriminate].
    destruct e as [| d e]; simpl in H.
    + (* the key is accepted *)
      set (target1 := match v with
                      | VUndefined => target
                      | _ => set k0 v target
                      end) in *.
      assert (Hother : forall k, k <> k0 -> get k target1 = get k target).
      { intros k Hk. subst target1.
        destruct v; auto using get_set_other. }
      assert (Hsame : get k0 target1
                      = match v with
                        | VUndefined => get k0 target
                        | _ => v
                        end).
      { subst target1. destruct v; auto using get_set_same. }
      destruct (IH Hnd' _ _ _ H) as (Hall & Hout & Hkeys).
      split; [| split].
      * constructor.
        -- exists v, []. simpl. split; [exact Hc0 |]. split.
           ++ intros x [].
           ++ intros _. rewrite Hout by exact Hnotin. exact Hsame.
        -- rewrite Forall_forall in *. intros [k c] Hin.
           destruct (Hall _ Hin) as (v' & e' & Hv & Hincl & Hget).
           simpl in *. assert (Hk : k <> k0).
           { intros ->. apply Hnotin. now apply (in_map fst) in Hin. }
           exists v', e'. rewrite <- (Hother k Hk). rewrite Hv.
           split; [reflexivity |]. split; [exact Hincl |].
           intros He. rewrite (Hget He). now rewrite (Hother k Hk).
      * intros k Hk. simpl in Hk. rewrite Hout by tauto.
        apply Hother. intros ->. tauto.
      * intros k Hk. destruct (Hkeys k Hk) as [Hin | Hl].
        -- left. now right.
        -- subst target1. destruct v; auto;
             (destruct (lookup_set_keys _ _ _ _ Hl) as [-> | Hl'];
              [left; now left | now right]).
    + (* the key is rejected *)
      destruct (Joi.validate_children validate_options rest path target)
        as [[t1 e1] | ex] eqn:Hrest; simpl in H; [| discriminate].
      injection H as <- <-.
      destruct (IH Hnd' _ _ _ Hrest) as (Hall & Hout & Hkeys).
      split; [| split].
      * constructor.
        -- exists v, (d :: e). simpl. split; [exact Hc0 |]. split.
           ++ intros x Hx. apply (in_or_app (d :: e) e1 x). now left.
           ++ discriminate.
        -- rewrite Forall_forall in *. intros kc Hin.
           destruct (Hall _ Hin) as (v' & e' & Hv & Hincl & Hget).
           exists v', e'. split; [exact Hv |]. split; [| exact Hget].
           intros x Hx. apply (in_or_app (d :: e) e1 x). right. now apply Hincl.
      * intros k Hk. simpl in Hk. apply Hout. tauto.
      * intros k Hk. destruct (Hkeys k Hk) as [Hin | Hl].
        -- left. now right.
        -- now right.
Qed.


Section JoiFacts.

Variable JSON_parse : string -> option jsval.
Variable uri_regex : string -> bool.

Local Abbreviation V := (Joi._validate JSON_parse uri_regex validate_options).
Arguments Joi._validate : simpl never.
Local Abbreviation children_of c :=
  (map (fun kc : string * Joi.schema => (fst kc, V (snd kc))) c).

(** One item against the single inclusion of an array. *)
Lemma check_item_single (inclusion : Joi.validator) (path : list jsval)
  (item : jsval) :
  Joi.check_item validate_options [inclusion] path item
  = match item with
    | VUndefined => Ok (Some item, [Joi.err path "array.sparse"])
    | _ =>
        '(v, e) <- inclusion path item ;;
        if is_nil e then Ok (Some v, []) else Ok (Some item, e)
    end.
Proof. destruct item; reflexivity. Qed.

Lemma check_item_cases (inclusion : Joi.validator) (path : list jsval)
  (item : jsval) (r : option jsval) (e : list detail) :
  Joi.check_item validate_options [inclusion] path item = Ok (r, e) ->
  (item = VUndefined /\ r = Some item
   /\ e = [Joi.err path "array.sparse"])
  \/ (item <> VUndefined
      /\ exists v,
          inclusion path item = Ok (v, e)
          /\ r = Some (if is_nil e then v else item)).
Proof.
  rewrite check_item_single.
  destruct item; simpl;
    try (intros H; right; split; [discriminate |];
         match type of H with
         | context [inclusion path ?it] =>
             destruct (inclusion path it) as [[v e0] | ex]; simpl in H;
             [| discriminate]
         end;
         destruct e0; simpl in H; injection H as <- <-; exists v;
         split; reflexivity).
  intros H. injection H as <- <-. left. repeat split.
Qed.

(** The items of an array, without [abortEarly]: every defined item is
    validated at its position, all the errors are kept, and an item
    validated without error is replaced by the validated value. *)
Lemma checkItems_spec (inclusion : Joi.validator) (wasArray : bool)
  (path : list jsval) :
  forall items i out errors,
    Joi.checkItems validate_options [inclusion] wasArray path i items
    = Ok (out, errors) ->
    List.length out = List.length items
    /\ forall n item,
        nth_error items n = Some item ->
        (item = VUndefined
         /\ In (Joi.err (item_path wasArray path (i + n)) "array.sparse")
              errors)
        \/ (item <> VUndefined
            /\ exists v e,
                inclusion (item_path wasArray path (i + n)) item = Ok (v, e)
                /\ incl e errors
                /\ (e = [] -> nth_error out n = Some v)).
Proof.
  induction items as [| item0 rest IH]; intros i out errors H.
  - simpl in H. injection H as <- <-. split; [reflexivity |].
    intros [| n] item Hn; discriminate.
  - cbn [Joi.checkItems] in H. fold (item_path wasArray path i) in H.
    destruct (Joi.check_item validate_options [inclusion]
                (item_path wasArray path i) item0) as [[r e0] | ex] eqn:Hci;
      [| discriminate].
    cbn [bind Joi.abortEarly validate_options andb] in H.
    assert (Hr : exists v0, r = Some v0).
    { destruct (check_item_cases _ _ _ _ _ Hci)
        as [(_ & -> & _) | (_ & v & _ & ->)]; eauto. }
    destruct Hr as [v0 ->].
    destruct (Joi.checkItems validate_options [inclusion] wasArray path
                (S i) rest) as [[rest' errors'] | ex] eqn:Hrest;
      simpl in H; [| discriminate].
    injection H as <- <-.
    destruct (IH _ _ _ Hrest) as (Hlen & Hnth). split.
    + simpl. now rewrite Hlen.
    + intros [| n] item Hn; simpl in Hn.
      * injection Hn as <-. rewrite Nat.add_0_r.
        destruct (check_item_cases _ _ _ _ _ Hci)
          as [(-> & _ & ->) | (Hdef & v & Hinc & Hv0)].
        -- left. split; [reflexivity |]. apply in_or_app. left. now left.
        -- right. split; [exact Hdef |]. exists v, e0.
           split; [exact Hinc |]. split.
           ++ intros x Hx. apply in_or_app. now left.
           ++ intros ->. simpl in Hv0. now injection Hv0 as ->.
      * replace (i + S n) with (S i + n) by lia.
        destruct (Hnth n item Hn)
          as [[-> Hin] | (Hdef & v & e & Hinc & Hincl & Hout)].
        -- left. split; [reflexivity |]. apply in_or_app. now right.
        -- right. split; [exact Hdef |]. exists v, e.
           split; [exact Hinc |]. split.
           ++ intros x Hx. apply in_or_app. right. now apply Hincl.
           ++ exact Hout.
Qed.


(** *** [_validate], type by type *)

Lemma validate_string f tests path value :
  V (Joi.SString f tests) path value
  = Joi.presence f path value
      (let empty :=
         match value with
         | VStr EmptyString => [Joi.err path "any.empty"]
         | _ => []
         end in
       match value with
       | VStr str =>
           errors <-
             Joi.run_tests validate_options
               (Joi.string_test uri_regex path str) tests ;;
           Ok (Joi.finalize f value (empty ++ errors))
       | _ => Ok (Joi.finalize f value (empty ++ [Joi.err path "string.base"]))
       end).
Proof. reflexivity. Qed.

Lemma validate_boolean f path value :
  V (Joi.SBoolean f) path value
  = Joi.presence f path value
      (let (v, errors) := Joi.boolean_base path value in
       Ok (Joi.finalize f v errors)).
Proof. reflexivity. Qed.

Lemma validate_array f single_flag inclusions tests path value :
  V (Joi.SArray f single_flag inclusions tests) path value
  = Joi.presence f path value
      ('(v, errors) <-
         Joi.array_base JSON_parse validate_options
           (map (fun i => V i) inclusions) single_flag path value ;;
       if is_nil errors then
         match v with
         | VArr l =>
             errors' <-
               Joi.run_tests validate_options (Joi.array_test path l) tests ;;
             Ok (Joi.finalize f v errors')
         | _ => Ok (Joi.finalize f v [])
         end
       else Ok (Joi.finalize f v errors)).
Proof. reflexivity. Qed.

Lemma validate_object f children path value :
  V (Joi.SObject f children) path value
  = Joi.presence f path value
      ('(v, errors) <-
         Joi.object_base JSON_parse validate_options (children_of children)
           path value ;;
       Ok (Joi.finalize f v errors)).
Proof. reflexivity. Qed.

Lemma validate_alternatives f matches path value :
  V (Joi.SAlternatives f matches) path value
  = Joi.presence f path value
      ('(v, errors) <-
         Joi.alternatives_base (map (fun m => V m) matches) path value ;;
       Ok (Joi.finalize f v errors)).
Proof. reflexivity. Qed.

Lemma finalize_errors f v errors :
  snd (Joi.finalize f v errors) = errors.
Proof. unfold Joi.finalize. destruct v, (Joi.default_value f); reflexivity. Qed.

Lemma finalize_defined f v errors :
  v <> VUndefined -> Joi.finalize f v errors = (v, errors).
Proof. intros H. unfold Joi.finalize. destruct v; try reflexivity; congruence. Qed.

Lemma finalize_ok f v e v' e' :
  Ok (Joi.finalize f v e) = Ok (v', e') ->
  e = e' /\ (v <> VUndefined -> v' = v).
Proof.
  intros H. injection H as H. pose proof (finalize_errors f v e) as He.
  rewrite H in He. simpl in He. split; [now symmetry |].
  intros Hv. rewrite (finalize_defined f v e Hv) in H. now injection H.
Qed.

Lemma presence_defined f path v k :
  v <> VUndefined -> Joi.presence f path v k = k.
Proof. intros H. destruct v; try reflexivity; congruence. Qed.

(** *** Alternatives *)

(** When no alternative accepts, the errors of all of them are kept; when
    one accepts, the first that does gives the value. *)
Lemma try_matches_spec (path : list jsval) (value : jsval) :
  forall (matches : list Joi.validator) r errors,
    Joi.try_matches matches path value = Ok (r, errors) ->
    match r with
    | None =>
        forall m, In m matches ->
          exists v d e, m path value = Ok (v, d :: e) /\ incl (d :: e) errors
    | Some v =>
        errors = [] /\ exists m, In m matches /\ m path value = Ok (v, [])
    end.
Proof.
  induction matches as [| m0 rest IH]; intros r errors H; simpl in H.
  - injection H as <- <-. intros m [].
  - destruct (m0 path value) as [[v0 e0] | ex] eqn:Hm0; simpl in H;
      [| discriminate].
    destruct e0 as [| d e0]; simpl in H.
    + injection H as <- <-. split; [reflexivity |]. exists m0. split; auto.
      now left.
    + destruct (Joi.try_matches rest path value) as [[r1 e1] | ex] eqn:Hrest;
        simpl in H; [| discriminate].
      specialize (IH _ _ eq_refl). destruct r1 as [v1 |].
      * injection H as <- <-. destruct IH as (_ & m & Hin & Hm).
        split; [reflexivity |]. exists m. split; [now right | exact Hm].
      * injection H as <- <-. intros m [<- | Hin].
        -- exists v0, d, e0. split; [exact Hm0 |].
           intros x Hx. apply (in_or_app (d :: e0) e1 x). now left.
        -- destruct (IH m Hin) as (v & d' & e' & Hm & Hincl).
           exists v, d', e'. split; [exact Hm |].
           intros x Hx. apply (in_or_app (d :: e0) e1 x). right.
           now apply Hincl.
Qed.

Lemma try_matches_total (path : list jsval) (value : jsval) :
  forall matches : list Joi.validator,
    Forall (fun m : Joi.validator => exists out, m path value = Ok out)
      matches ->
    exists out, Joi.try_matches matches path value = Ok out.
Proof.
  induction matches as [| m0 rest IH]; intros Hall; simpl.
  - eauto.
  - inversion Hall as [| ? ? [[v0 e0] Hm0] Hrest]; subst.
    rewrite Hm0. simpl. destruct e0; simpl; [eauto |].
    destruct (IH Hrest) as [[r1 e1] ->]. simpl. destruct r1; eauto.
Qed.


(** *** Validation never throws *)

Local Abbreviation total := (total JSON_parse uri_regex).
Local Abbreviation accepts_only := (accepts_only JSON_parse uri_regex).

Lemma run_string_tests_total path str tests :
  exists r,
    Joi.run_tests validate_options (Joi.string_test uri_regex path str) tests
    = Ok r.
Proof.
  induction tests as [| t ts [r IH]]; simpl; [eauto |].
  destruct t; simpl;
    match goal with
    | |- context [if ?b then None else Some _] => destruct b
    end; simpl; rewrite IH; simpl; eauto.
Qed.

Lemma total_string f tests : total (Joi.SString f tests).
Proof.
  intros path v. rewrite validate_string.
  destruct v; simpl; try solve [destruct (Joi.presence_required f); eauto].
  destruct (run_string_tests_total path s tests) as [r ->]. simpl. eauto.
Qed.

Lemma total_boolean f : total (Joi.SBoolean f).
Proof.
  intros path v. rewrite validate_boolean.
  destruct v; simpl; try solve [destruct (Joi.presence_required f); eauto].
  destruct (Joi.boolean_base path (VStr s)). eauto.
Qed.

Lemma validate_children_total (children : list (string * Joi.validator))
  (path : list jsval) :
  Forall (fun kc : string * Joi.validator =>
            forall p v, exists out, snd kc p v = Ok out) children ->
  forall target,
    exists out,
      Joi.validate_children validate_options children path target = Ok out.
Proof.
  induction children as [| [k0 c0] rest IH]; intros Hall target; simpl.
  - eauto.
  - inversion Hall as [| ? ? Hc0 Hrest]; subst. simpl in Hc0.
    destruct (Hc0 (path ++ [VStr k0]) (get k0 target)) as [[v e] ->]. simpl.
    destruct e; simpl.
    + apply IH. exact Hrest.
    + destruct (IH Hrest target) as [[t1 e1] ->]. simpl. eauto.
Qed.

Lemma total_children (children : list (string * Joi.schema)) :
  Forall (fun kc => total (snd kc)) children ->
  Forall (fun kc : string * Joi.validator =>
            forall p v, exists out, snd kc p v = Ok out)
    (children_of children).
Proof.
  intros H. rewrite Forall_map. eapply Forall_impl; [| exact H].
  intros [k s] Hs. exact Hs.
Qed.

Lemma object_base_total children path value :
  Forall (fun kc => total (snd kc)) children ->
  exists out,
    Joi.object_base JSON_parse validate_options (children_of children) path
      value = Ok out.
Proof.
  intros Hall. unfold Joi.object_base.
  destruct (Joi.safeParse_object JSON_parse value); eauto.
  destruct (validate_children_total _ path (total_children _ Hall) props)
    as [[t e] ->].
  simpl. eauto.
Qed.

Lemma total_object f children :
  Forall (fun kc => total (snd kc)) children ->
  total (Joi.SObject f children).
Proof.
  intros Hall path v. rewrite validate_object.
  destruct (object_base_total children path v Hall) as [[v' e] Hbase].
  destruct v; simpl;
    try solve [destruct (Joi.presence_required f); eauto];
    simpl in Hbase; rewrite Hbase; simpl; eauto.
Qed.

Lemma total_alternatives f matches :
  Forall total matches -> total (Joi.SAlternatives f matches).
Proof.
  intros Hall path v. rewrite validate_alternatives.
  assert (Hbase : exists out,
             Joi.alternatives_base (map (fun m => V m) matches) path v
             = Ok out).
  { unfold Joi.alternatives_base.
    destruct (map (fun m => V m) matches) eqn:Hmap; [eauto |].
    rewrite <- Hmap.
    destruct (try_matches_total path v (map (fun m => V m) matches))
      as [[r0 e0] ->].
    - rewrite Forall_map. eapply Forall_impl; [| exact Hall].
      intros m Hm. apply Hm.
    - simpl. destruct r0; eauto. }
  destruct Hbase as [[v' e] Hbase].
  destruct v; simpl;
    try solve [destruct (Joi.presence_required f); eauto];
    rewrite Hbase; simpl; eauto.
Qed.


(** *** Arrays *)

Lemma first_match_total (inclusions : list Joi.validator) path item :
  Forall (fun m : Joi.validator => forall p v, exists out, m p v = Ok out)
    inclusions ->
  exists out, Joi.first_match inclusions path item = Ok out.
Proof.
  induction inclusions as [| m rest IH]; intros Hall; simpl; [eauto |].
  inversion Hall as [| ? ? Hm Hrest]; subst.
  destruct (Hm path item) as [[v e] ->]. simpl. destruct e; simpl; eauto.
Qed.

Lemma check_item_total (inclusions : list Joi.validator) path item :
  Forall (fun m : Joi.validator => forall p v, exists out, m p v = Ok out)
    inclusions ->
  exists out, Joi.check_item validate_options inclusions path item = Ok out.
Proof.
  intros Hall.
  assert (Hdefined :
    exists out,
      match inclusions with
      | [] => Ok (Some item, [])
      | [inclusion] =>
          '(v, errors) <- inclusion path item ;;
          if is_nil errors then Ok (Some v, [])
          else if Joi.arrays (Joi.stripUnknown validate_options)
               then Ok (None, [])
               else Ok (Some item, errors)
      | _ =>
          m <- Joi.first_match inclusions path item ;;
          match m with
          | Some v => Ok (Some v, [])
          | None =>
              if Joi.arrays (Joi.stripUnknown validate_options)
              then Ok (None, [])
              else Ok (Some item, [Joi.err path "array.includes"])
          end
      end = Ok out).
  { destruct inclusions as [| a [| b rest]]; [eauto | |].
    - inversion Hall as [| ? ? Ha _]; subst.
      destruct (Ha path item) as [[v e] ->]. simpl. destruct e; simpl; eauto.
    - destruct (first_match_total (a :: b :: rest) path item Hall)
        as [m ->].
      simpl. destruct m; eauto. }
  destruct item; simpl; eauto.
Qed.

Lemma checkItems_total (inclusions : list Joi.validator) wasArray path :
  Forall (fun m : Joi.validator => forall p v, exists out, m p v = Ok out)
    inclusions ->
  forall items i,
    exists out,
      Joi.checkItems validate_options inclusions wasArray path i items
      = Ok out.
Proof.
  intros Hall. induction items as [| item rest IH]; intros i; simpl.
  - eauto.
  - destruct (check_item_total inclusions
                (if wasArray then path ++ [Joi.index i] else path) item Hall)
      as [[r e] ->].
    simpl. destruct r as [v |].
    + destruct (IH (S i)) as [[rest' e'] ->]. simpl. eauto.
    + destruct (IH i) as [[rest' e'] ->]. simpl. eauto.
Qed.

Lemma array_base_total (inclusions : list Joi.validator) single_flag path
  value :
  Forall (fun m : Joi.validator => forall p v, exists out, m p v = Ok out)
    inclusions ->
  exists out,
    Joi.array_base JSON_parse validate_options inclusions single_flag path
      value = Ok out.
Proof.
  intros Hall. unfold Joi.array_base.
  destruct (Joi.safeParse_array JSON_parse value)
    as [| | b | n | str | items | props | t].
  6: { destruct (checkItems_total inclusions true path Hall items 0)
         as [[l1 e1] ->].
       cbn [bind is_nil]. destruct e1; cbn [bind is_nil]; [eauto |]. destruct single_flag; [| eauto].
       destruct (checkItems_total inclusions true path Hall [VArr l1] 0)
         as [[l2 e2] ->].
       cbn [bind is_nil]. destruct e2; cbn [bind is_nil]; eauto. }
  all: destruct single_flag; [| eauto];
    match goal with
    | |- context [Joi.checkItems ?o ?i ?w ?p ?n ?l] =>
        destruct (checkItems_total i w p Hall l n) as [[l1 e1] ->]
    end; cbn [bind is_nil]; eauto.
Qed.

(** An array that passes its base is an array. *)
Lemma array_base_success (inclusions : list Joi.validator) single_flag path
  value v :
  Joi.array_base JSON_parse validate_options inclusions single_flag path value
  = Ok (v, []) ->
  exists l, v = VArr l.
Proof.
  unfold Joi.array_base.
  destruct (Joi.safeParse_array JSON_parse value)
    as [| | b | n | str | items | props | t].
  6: { destruct (Joi.checkItems validate_options inclusions true path 0 items)
         as [[l1 e1] |]; cbn [bind is_nil]; [| discriminate].
       destruct e1; cbn [bind is_nil].
       - intros H. injection H as <-. eauto.
       - destruct single_flag; [| discriminate].
         destruct (Joi.checkItems validate_options inclusions true path 0
                     [VArr l1]) as [[l2 e2] |]; cbn [bind is_nil]; [| discriminate].
         destruct e2; cbn [bind is_nil]; [| discriminate].
         intros H. injection H as <-. eauto. }
  all: destruct single_flag; [| discriminate];
    match goal with
    | |- context [Joi.checkItems ?o ?i ?w ?p ?n ?l] =>
        destruct (Joi.checkItems o i w p n l) as [[l1 e1] |]
    end; cbn [bind is_nil]; [| discriminate];
    intros H; injection H as <- _; eauto.
Qed.

(** The items that come out of a pass without error are validated. *)
Lemma checkItems_accepted (inclusion : Joi.validator) (P : jsval -> Prop)
  wasArray path items i out :
  (forall p v v', v <> VUndefined -> inclusion p v = Ok (v', []) -> P v') ->
  Joi.checkItems validate_options [inclusion] wasArray path i items
  = Ok (out, []) ->
  Forall P out.
Proof.
  intros HP H. destruct (checkItems_spec _ _ _ _ _ _ _ H) as (Hlen & Hnth).
  rewrite Forall_forall. intros x Hx.
  destruct (In_nth_error _ _ Hx) as [n Hn].
  assert (Hlt : n < List.length items).
  { rewrite <- Hlen. apply nth_error_Some. congruence. }
  destruct (nth_error items n) as [item |] eqn:Hitem;
    [| apply nth_error_None in Hitem; lia].
  destruct (Hnth n item Hitem)
    as [[_ []] | (Hdef & v & e & Hinc & Hincl & Hout)].
  assert (He : e = []).
  { destruct e as [| d e]; [reflexivity |]. destruct (Hincl d). now left. }
  subst e. rewrite (Hout eq_refl) in Hn. injection Hn as ->.
  eapply HP; eauto.
Qed.

Lemma array_base_accepted (s : Joi.schema) (P : jsval -> Prop) single_flag
  path value l :
  accepts_only s P ->
  Joi.array_base JSON_parse validate_options [V s] single_flag path value
  = Ok (VArr l, []) ->
  Forall P l.
Proof.
  intros HP. unfold Joi.array_base.
  destruct (Joi.safeParse_array JSON_parse value)
    as [| | b | n | str | items | props | t].
  6: { destruct (Joi.checkItems validate_options [V s] true path 0 items)
         as [[l1 e1] |] eqn:Hci; cbn [bind is_nil]; [| discriminate].
       destruct e1; cbn [bind is_nil].
       - intros H. injection H as <-.
         eapply checkItems_accepted; [| exact Hci]; exact HP.
       - destruct single_flag; [| discriminate].
         destruct (Joi.checkItems validate_options [V s] true path 0
                     [VArr l1]) as [[l2 e2] |] eqn:Hci2; cbn [bind is_nil];
           [| discriminate].
         destruct e2; cbn [bind is_nil]; [| discriminate]. intros H. injection H as <-.
         eapply checkItems_accepted; [| exact Hci2]; exact HP. }
  all: destruct single_flag; [| discriminate];
    match goal with
    | |- context [Joi.checkItems ?o ?i ?w ?p ?n ?l] =>
        destruct (Joi.checkItems o i w p n l) as [[l1 e1] |] eqn:Hci
    end; cbn [bind is_nil]; [| discriminate];
    intros H; injection H as <- ->;
    eapply checkItems_accepted; [| exact Hci]; exact HP.
Qed.

Lemma seen_before_total (P : jsval -> Prop) c records item :
  comparator_total P c -> Forall P records -> P item ->
  exists b, Joi.seen_before c records item = Ok b.
Proof.
  intros Hc Hall Hitem. induction Hall as [| r rs Hr _ IH]; simpl; [eauto |].
  destruct (Hc r item Hr Hitem) as [b ->]. simpl. destruct b; eauto.
Qed.

Lemma first_duplicate_total (P : jsval -> Prop) c :
  comparator_total P c ->
  forall value records i,
    Forall P records -> Forall P value ->
    exists r, Joi.first_duplicate c records i value = Ok r.
Proof.
  intros Hc. induction value as [| item rest IH]; intros records i Hrec Hval;
    simpl; [eauto |].
  inversion Hval as [| ? ? Hitem Hrest]; subst.
  destruct (seen_before_total P c records item Hc Hrec Hitem) as [b ->].
  simpl. destruct b; [eauto |]. apply IH; [| exact Hrest].
  apply Forall_app. split; [exact Hrec | now constructor].
Qed.

Lemma run_array_tests_total (P : jsval -> Prop) path l tests :
  Forall (rule_total P) tests -> Forall P l ->
  exists r,
    Joi.run_tests validate_options (Joi.array_test path l) tests = Ok r.
Proof.
  intros Htests Hl. induction Htests as [| t ts Ht _ [r IH]]; simpl; [eauto |].
  destruct t as [limit | c]; simpl.
  - destruct (limit <=? List.length l)%nat; simpl; rewrite IH; simpl; eauto.
  - destruct (first_duplicate_total P c Ht l [] 0 (Forall_nil _) Hl)
      as [d ->].
    simpl. destruct d; simpl; rewrite IH; simpl; eauto.
Qed.

Lemma total_array f single_flag inclusions tests (P : jsval -> Prop) :
  Forall total inclusions ->
  (inclusions = []
   \/ exists s, inclusions = [s] /\ accepts_only s P) ->
  Forall (rule_total (fun v => inclusions = [] \/ P v)) tests ->
  total (Joi.SArray f single_flag inclusions tests).
Proof.
  intros Hall Hshape Htests path v. rewrite validate_array.
  assert (Hval :
    Forall (fun m : Joi.validator => forall p v, exists out, m p v = Ok out)
      (map (fun i => V i) inclusions)).
  { rewrite Forall_map. eapply Forall_impl; [| exact Hall].
    intros s Hs. exact Hs. }
  destruct (array_base_total _ single_flag path v Hval) as [[v' e] Hbase].
  assert (Hk :
    exists out,
      ('(v, errors) <-
         Joi.array_base JSON_parse validate_options
           (map (fun i => V i) inclusions) single_flag path v ;;
       if is_nil errors then
         match v with
         | VArr l =>
             errors' <-
               Joi.run_tests validate_options (Joi.array_test path l) tests ;;
             Ok (Joi.finalize f v errors')
         | _ => Ok (Joi.finalize f v [])
         end
       else Ok (Joi.finalize f v errors)) = Ok out).
  { rewrite Hbase. simpl. destruct e; simpl; [| eauto].
    destruct (array_base_success _ _ _ _ _ Hbase) as [l ->].
    assert (Hl : Forall (fun v => inclusions = [] \/ P v) l).
    { destruct Hshape as [-> | (s & -> & HP)].
      - rewrite Forall_forall. intros x _. now left.
      - eapply Forall_impl;
          [| exact (array_base_accepted s P _ _ _ _ HP Hbase)].
        intros x Hx. now right. }
    destruct (run_array_tests_total _ path l tests Htests Hl) as [r ->].
    simpl. eauto. }
  destruct v; simpl;
    try solve [destruct (Joi.presence_required f); eauto]; exact Hk.
Qed.


(** *** Objects *)

Lemma is_child_keys (children : list (string * Joi.schema)) (k : string) :
  Joi.is_child (children_of children) k = true -> In k (map fst children).
Proof.
  unfold Joi.is_child. rewrite existsb_exists.
  intros [[k' c] [Hin Hk]]. simpl in Hk. apply String.eqb_eq in Hk. subst k'.
  apply in_map_iff in Hin. destruct Hin as [[k0 s0] [Heq Hin]].
  simpl in Heq. injection Heq as <- _. now apply (in_map fst) in Hin.
Qed.

(** What the base of an object does with a value. *)
Lemma object_base_spec children path value v errors :
  Joi.object_base JSON_parse validate_options (children_of children) path
    value = Ok (v, errors) ->
  (exists o target,
      Joi.safeParse_object JSON_parse value = VObj o
      /\ Joi.validate_children validate_options (children_of children) path o
         = Ok (target, errors)
      /\ v = VObj (filter
                     (fun kv => Joi.is_child (children_of children) (fst kv))
                     target))
  \/ ((forall o, Joi.safeParse_object JSON_parse value <> VObj o)
      /\ errors = [Joi.err path "object.base"]).
Proof.
  unfold Joi.object_base.
  destruct (Joi.safeParse_object JSON_parse value) as [| | b | n | s | l | o | t];
    try (intros H; injection H as <- <-; right; split;
         [intros o; discriminate | reflexivity]).
  destruct (Joi.validate_children validate_options (children_of children)
              path o) as [[target e] |] eqn:Hch; [| discriminate].
  cbn. intros H. injection H as <- <-. left. now exists o, target.
Qed.

Lemma keys_children_of (children : list (string * Joi.schema)) :
  map fst (children_of children) = map fst children.
Proof. rewrite map_map. reflexivity. Qed.

(** *** Entries: a string or an object *)

Lemma string_required_accepts path v v' :
  V (Joi.string_ .> Joi.required) path v = Ok (v', []) ->
  exists s, v = VStr s /\ v' = VStr s /\ s <> EmptyString.
Proof.
  unfold Joi.required, Joi.string_. cbn [Joi.with_flags Joi.schema_flags].
  rewrite validate_string.
  destruct v; simpl; try discriminate.
  destruct s; simpl; [discriminate |].
  intros H. injection H as <-. eexists. repeat split. discriminate.
Qed.

Lemma entry_accepted_cases children path v v' :
  v <> VUndefined ->
  V (entry_schema children) path v = Ok (v', []) ->
  (exists s, v = VStr s /\ v' = VStr s /\ s <> EmptyString)
  \/ (exists o target,
        Joi.safeParse_object JSON_parse v = VObj o
        /\ Joi.validate_children validate_options (children_of children)
             path o = Ok (target, [])
        /\ v' = VObj (filter
                        (fun kv =>
                           Joi.is_child (children_of children) (fst kv))
                        target)).
Proof.
  intros Hdef. unfold entry_schema, Joi.alternatives_try.
  rewrite validate_alternatives, (presence_defined _ _ _ _ Hdef).
  unfold Joi.alternatives_base. cbn [map].
  destruct (Joi.try_matches
              [V (Joi.string_ .> Joi.required); V (Joi.object_ children)]
              path v) as [[r e] |] eqn:Htry; cbn [bind]; [| discriminate].
  pose proof (try_matches_spec _ _ _ _ _ Htry) as Hspec.
  destruct r as [v1 |].
  - destruct Hspec as (-> & m & Hin & Hm).
    intros H. cbn in H.
    assert (Hv : v1 = v') by (destruct v1; now injection H). subst v1.
    destruct Hin as [<- | [<- | []]].
    + left. exact (string_required_accepts _ _ _ Hm).
    + right. unfold Joi.object_ in Hm. rewrite validate_object in Hm.
      rewrite (presence_defined _ _ _ _ Hdef) in Hm.
      destruct (Joi.object_base JSON_parse validate_options
                  (children_of children) path v) as [[v0 e0] |] eqn:Hbase;
        cbn [bind] in Hm; [| discriminate].
      destruct (finalize_ok _ _ _ _ _ Hm) as [-> Hv0].
      destruct (object_base_spec _ _ _ _ _ Hbase)
        as [(o & target & Hparse & Hch & ->) | (_ & Hbad)];
        [| discriminate].
      rewrite Hv0 by discriminate. now exists o, target.
  - destruct (Hspec (V (Joi.string_ .> Joi.required)) (or_introl eq_refl))
      as (v0 & d & e0 & _ & Hincl).
    intros H. cbn [bind] in H.
    destruct (finalize_ok _ _ _ _ _ H) as [-> _].
    destruct (Hincl d). now left.
Qed.

Lemma entry_accepts_only children :
  accepts_only (entry_schema children) (entry_shape (map fst children)).
Proof.
  intros path v v' Hdef H.
  destruct (entry_accepted_cases _ _ _ _ Hdef H)
    as [(s & _ & -> & _) | (o & target & _ & _ & ->)]; simpl; [exact I |].
  intros k Hk. apply is_child_keys.
  destruct (Joi.is_child (children_of children) k) eqn:E; [reflexivity |].
  now rewrite (lookup_filter_dropped _ _ _ E) in Hk.
Qed.

Lemma entry_shape_str_or_obj keys v : entry_shape keys v -> str_or_obj v.
Proof. destruct v; simpl; auto. Qed.

(** *** checkUniqueField *)

Lemma checkUniqueField_spec field a b :
  str_or_obj a -> str_or_obj b ->
  checkUniqueField field a b
  = Ok (strict_eq (field_of field a) (field_of field b)).
Proof.
  assert (Hget : forall s, get field [(field, VStr s)] = VStr s).
  { intros s. unfold get. simpl. now rewrite String.eqb_refl. }
  destruct a, b; simpl; try contradiction; intros _ _;
    unfold checkUniqueField; simpl; rewrite ?Hget; simpl;
    match goal with
    | |- (if ?c then _ else _) = _ => destruct c
    end; reflexivity.
Qed.

Lemma checkUniqueField_total field :
  comparator_total str_or_obj (checkUniqueField field).
Proof.
  intros a b Ha Hb. rewrite (checkUniqueField_spec field a b Ha Hb). eauto.
Qed.


(** *** The schemas of the module never throw *)

Lemma total_entry children :
  Forall (fun kc => total (snd kc)) children -> total (entry_schema children).
Proof.
  intros H. apply total_alternatives. repeat constructor.
  - apply total_string.
  - now apply total_object.
Qed.

Lemma total_min_array : total argsSchema.
Proof.
  apply (total_array _ _ _ _ (fun _ => True)).
  - constructor.
  - now left.
  - repeat constructor.
Qed.

Lemma total_onChangeSchema : total onChangeSchema.
Proof.
  apply total_alternatives. repeat constructor.
  - exact total_min_array.
  - apply total_object. repeat constructor; simpl.
    + exact total_min_array.
    + apply total_boolean.
    + apply total_boolean.
Qed.

Lemma total_DataSourceSchema : total DataSourceSchema.
Proof.
  apply total_entry. repeat constructor; simpl.
  - apply total_string.
  - apply total_string.
  - exact total_onChangeSchema.
  - exact total_min_array.
Qed.

Lemma total_FileSchema : total FileSchema.
Proof.
  apply total_entry. repeat constructor; simpl;
    try apply total_string.
  - exact total_onChangeSchema.
  - exact total_min_array.
Qed.

Lemma total_FilePathSchema : total FilePathSchema.
Proof.
  apply total_entry. repeat constructor; simpl.
  - apply total_string.
  - exact total_onChangeSchema.
  - exact total_min_array.
Qed.

Lemma total_list_field children field :
  total (entry_schema children) ->
  total (list_field (entry_schema children) field).
Proof.
  intros Hentry. apply (total_array _ _ _ _ str_or_obj).
  - now constructor.
  - right. eexists. split; [reflexivity |].
    intros path v v' Hdef H.
    eapply entry_shape_str_or_obj, entry_accepts_only; eauto.
  - constructor; [| constructor]. simpl. intros a b [Ha | Ha] [Hb | Hb];
      try discriminate.
    now apply checkUniqueField_total.
Qed.

Lemma total_ConfigItemSchema : total ConfigItemSchema.
Proof.
  apply total_object. repeat constructor; simpl.
  - apply total_boolean.
  - exact (total_list_field _ "path" total_FilePathSchema).
  - exact (total_list_field _ "path" total_FilePathSchema).
  - exact (total_list_field _ "url" total_DataSourceSchema).
  - exact (total_list_field _ "input_path" total_FileSchema).
  - exact total_onChangeSchema.
  - exact total_min_array.
Qed.

Lemma total_ConfigSchema : total ConfigSchema.
Proof.
  apply (total_array _ _ _ _ (fun _ => True)).
  - constructor; [exact total_ConfigItemSchema | constructor].
  - right. eexists. split; [reflexivity |]. intros path v v' _ _. exact I.
  - repeat constructor.
Qed.


(** *** Duplicates *)

Lemma strict_eq_sym a b : strict_eq a b = strict_eq b a.
Proof.
  destruct a, b; simpl; try reflexivity.
  - now destruct b, b0.
  - apply Z.eqb_sym.
  - apply String.eqb_sym.
Qed.

Lemma seen_before_spec field records item :
  Forall str_or_obj records -> str_or_obj item ->
  Joi.seen_before (checkUniqueField field) records item
  = Ok (existsb
          (fun r => strict_eq (field_of field r) (field_of field item))
          records).
Proof.
  intros Hall Hitem. induction Hall as [| r rs Hr _ IH]; simpl; [reflexivity |].
  rewrite (checkUniqueField_spec field r item Hr Hitem). simpl.
  destruct (strict_eq (field_of field r) (field_of field item)); [reflexivity |].
  exact IH.
Qed.

Lemma first_duplicate_spec field :
  forall value records i,
    Forall str_or_obj records -> Forall str_or_obj value ->
    Joi.first_duplicate (checkUniqueField field) records i value
    = Ok (duplicate_position field records i value).
Proof.
  induction value as [| item rest IH]; intros records i Hrec Hval; simpl;
    [reflexivity |].
  inversion Hval as [| ? ? Hitem Hrest]; subst.
  rewrite (seen_before_spec field records item Hrec Hitem). simpl.
  destruct (existsb _ records); [reflexivity |].
  apply IH; [| exact Hrest].
  apply Forall_app. split; [exact Hrec | now constructor].
Qed.

(** When no position is reported, no two entries have the same field. *)
Lemma duplicate_position_none field :
  forall value records i,
    duplicate_position field records i value = None ->
    (forall r x, In r records -> In x value ->
       strict_eq (field_of field r) (field_of field x) = false)
    /\ (forall a b x y, a < b ->
          nth_error value a = Some x -> nth_error value b = Some y ->
          strict_eq (field_of field x) (field_of field y) = false).
Proof.
  induction value as [| item rest IH]; intros records i H; simpl in H.
  - split; [intros r x _ [] |].
    intros a b x y _ Ha. destruct a; discriminate.
  - destruct (existsb _ records) eqn:Hex; [discriminate |].
    destruct (IH _ _ H) as (Hrec & Hpairs). split.
    + intros r x Hr [<- | Hx].
      * destruct (strict_eq (field_of field r) (field_of field item)) eqn:E;
          [| reflexivity].
        assert (Htrue : existsb
                   (fun r => strict_eq (field_of field r)
                               (field_of field item)) records = true).
        { apply existsb_exists. now exists r. }
        congruence.
      * apply Hrec; [| exact Hx]. apply in_or_app. now left.
    + intros a b x y Hab Ha Hb. destruct b as [| b]; [lia |].
      simpl in Hb. destruct a as [| a]; simpl in Ha.
      * injection Ha as <-. apply Hrec.
        -- apply in_or_app. right. now left.
        -- eapply nth_error_In. exact Hb.
      * apply (Hpairs a b); [lia | exact Ha | exact Hb].
Qed.

Lemma duplicate_position_bound field :
  forall value records i p,
    duplicate_position field records i value = Some p ->
    i <= p < i + List.length value.
Proof.
  induction value as [| item rest IH]; intros records i p H; simpl in H;
    [discriminate |].
  destruct (existsb _ records).
  - injection H as <-. simpl. lia.
  - apply IH in H. simpl. lia.
Qed.

(** Two entries with the same field, in either order, make [unique]
    report a position. *)
Lemma duplicate_found field value a b x y :
  a <> b ->
  nth_error value a = Some x -> nth_error value b = Some y ->
  strict_eq (field_of field x) (field_of field y) = true ->
  exists p,
    duplicate_position field [] 0 value = Some p /\ p < List.length value.
Proof.
  intros Hab Ha Hb Heq.
  destruct (duplicate_position field [] 0 value) as [p |] eqn:Hd.
  - exists p. split; [reflexivity |].
    apply duplicate_position_bound in Hd. lia.
  - destruct (duplicate_position_none _ _ _ _ Hd) as (_ & Hpairs).
    destruct (Nat.lt_total a b) as [Hlt | [-> | Hlt]]; [| contradiction |].
    + rewrite (Hpairs a b x y Hlt Ha Hb) in Heq. discriminate.
    + rewrite strict_eq_sym in Heq.
      rewrite (Hpairs b a y x Hlt Hb Ha) in Heq. discriminate.
Qed.

(** *** Nothing found in a part is dropped *)

Lemma part_errors_kept x y :
  part JSON_parse uri_regex x y ->
  forall v' errors,
    V (fst (fst x)) (snd (fst x)) (snd x) = Ok (v', errors) ->
    exists v e,
      V (fst (fst y)) (snd (fst y)) (snd y) = Ok (v, e) /\ incl e errors.
Proof.
  intros Hpart. destruct Hpart
    as [f children path o k s Hnd Hin
       | f single_flag s tests path l n item Hn Hdef Hsingle
       | f s tests path o
       | f matches path v m Hin Hdef Hrej];
    cbn [fst snd]; intros v' errors H.
  - (* a key of an object *)
    rewrite validate_object, presence_defined in H by discriminate.
    destruct (Joi.object_base JSON_parse validate_options
                (children_of children) path (VObj o)) as [[v0 e0] |] eqn:Hbase;
      cbn [bind] in H; [| discriminate].
    destruct (finalize_ok _ _ _ _ _ H) as [<- _].
    destruct (object_base_spec _ _ _ _ _ Hbase)
      as [(o' & target & Hparse & Hch & _) | (Hbad & _)];
      [| now destruct (Hbad o)].
    cbn in Hparse. injection Hparse as <-.
    destruct (validate_children_spec (children_of children) path) with
      (1 := eq_ind_r (fun l => NoDup l) Hnd (keys_children_of children))
      (2 := Hch) as (Hall & _).
    rewrite Forall_forall in Hall.
    destruct (Hall (k, V s)) as (v & e & Hv & Hincl & _).
    { apply in_map_iff. now exists (k, s). }
    now exists v, e.
  - (* an item of an array *)
    rewrite validate_array, presence_defined in H by discriminate.
    unfold Joi.array_base in H. cbn [map Joi.safeParse_array] in H.
    destruct (Joi.checkItems validate_options [V s] true path 0 l)
      as [[l1 e1] |] eqn:Hci; cbn [bind] in H; [| discriminate].
    destruct (checkItems_spec _ _ _ _ _ _ _ Hci) as (_ & Hnth).
    destruct (Hnth n item Hn) as [[-> _] | (_ & v & e & Hv & Hincl & _)];
      [contradiction |].
    cbn [item_path] in Hv. rewrite Nat.add_0_l in Hv.
    exists v, e. split; [exact Hv |].
    destruct e as [| d e]; [intros x [] |].
    destruct e1 as [| d1 e1]; [destruct (Hincl d); now left |].
    cbn [is_nil] in H.
    assert (Hbase :
      (if single_flag
       then
         '(l2, errors2) <-
           Joi.checkItems validate_options [V s] true path 0 [VArr l1] ;;
         if is_nil errors2 then Ok (VArr l2, [])
         else Ok (VArr l1, d1 :: e1)
       else Ok (VArr l1, d1 :: e1))
      = Ok (VArr l1, d1 :: e1)).
    { destruct single_flag; [| reflexivity].
      destruct (Joi.checkItems validate_options [V s] true path 0 [VArr l1])
        as [[l2 e2] |] eqn:Hci2.
      - cbn [bind]. destruct e2 as [| d2 e2]; [| reflexivity].
        destruct (checkItems_spec _ _ _ _ _ _ _ Hci2) as (_ & Hnth2).
        destruct (Hnth2 0 (VArr l1) eq_refl)
          as [[Hu _] | (_ & v2 & e2 & Hv2 & Hincl2 & _)]; [discriminate |].
        destruct (Hsingle eq_refl (item_path true path (0 + 0)) l1)
          as (v3 & d3 & e3 & Hrej).
        rewrite Hrej in Hv2. injection Hv2 as <- <-.
        destruct (Hincl2 d3). now left.
      - exfalso.
        destruct (Hsingle eq_refl (path ++ [Joi.index 0]) l1)
          as (v3 & d3 & e3 & Hrej).
        cbn [Joi.checkItems] in Hci2. rewrite check_item_single in Hci2.
        rewrite Hrej in Hci2. cbn in Hci2. discriminate. }
    rewrite Hbase in H. cbn [bind is_nil] in H.
    destruct (finalize_ok _ _ _ _ _ H) as [<- _]. exact Hincl.
  - (* a value wrapped by single *)
    rewrite validate_array, presence_defined in H by discriminate.
    unfold Joi.array_base in H. cbn [map Joi.safeParse_array] in H.
    destruct (Joi.checkItems validate_options [V s] false path 0 [VObj o])
      as [[l1 e1] |] eqn:Hci; cbn [bind] in H; [| discriminate].
    destruct (checkItems_spec _ _ _ _ _ _ _ Hci) as (_ & Hnth).
    destruct (Hnth 0 (VObj o) eq_refl)
      as [[Hu _] | (_ & v & e & Hv & Hincl & _)]; [discriminate |].
    cbn [item_path] in Hv. exists v, e. split; [exact Hv |].
    destruct e as [| d e]; [intros x [] |].
    destruct e1 as [| d1 e1]; [destruct (Hincl d); now left |].
    cbn [is_nil] in H. destruct (finalize_ok _ _ _ _ _ H) as [<- _].
    exact Hincl.
  - (* an alternative of a rejected value *)
    destruct Hrej as (v0 & d & e0 & Hrej). rewrite Hrej in H.
    injection H as <- <-.
    rewrite validate_alternatives, presence_defined in Hrej by exact Hdef.
    unfold Joi.alternatives_base in Hrej.
    destruct (map (fun m => V m) matches) as [| m0 ms] eqn:Hmap.
    { destruct matches; [destruct Hin | discriminate]. }
    rewrite <- Hmap in Hrej.
    destruct (Joi.try_matches (map (fun m => V m) matches) path v)
      as [[r e1] |] eqn:Htry; cbn [bind] in Hrej; [| discriminate].
    pose proof (try_matches_spec _ _ _ _ _ Htry) as Hspec.
    destruct r as [v1 |].
    + destruct (finalize_ok _ _ _ _ _ Hrej) as [Habs _]. discriminate.
    + destruct (finalize_ok _ _ _ _ _ Hrej) as [-> _].
      destruct (Hspec (V m)) as (v2 & d2 & e2 & Hm & Hincl).
      { apply in_map_iff. now exists m. }
      now exists v2, (d2 :: e2).
Qed.

Theorem part_of_errors_kept x z :
  part_of JSON_parse uri_regex x z ->
  forall v' errors,
    V (fst (fst x)) (snd (fst x)) (snd x) = Ok (v', errors) ->
    exists v e,
      V (fst (fst z)) (snd (fst z)) (snd z) = Ok (v, e) /\ incl e errors.
Proof.
  induction 1 as [x | x y z Hxy _ IH]; intros v' errors H.
  - exists v', errors. split; [exact H | apply incl_refl].
  - destruct (part_errors_kept x y Hxy v' errors H) as (vy & ey & Hy & Hincl).
    destruct (IH vy ey Hy) as (vz & ez & Hz & Hincl').
    exists vz, ez. split; [exact Hz |].
    intros d Hd. apply Hincl, Hincl', Hd.
Qed.

End JoiFacts.

(** ** Validation of a document *)

(** *** Text without placeholders *)

Lemma append_empty_r (s : string) : (s ++ EmptyString)%string = s.
Proof. induction s as [| c s IH]; simpl; [reflexivity | now rewrite IH]. Qed.

Lemma append_assoc (s t u : string) :
  ((s ++ t) ++ u)%string = (s ++ (t ++ u))%string.
Proof. induction s as [| c s IH]; simpl; [reflexivity | now rewrite IH]. Qed.

Lemma not_bracket_no_match (c : ascii) (r : string) :
  is_alnum c = true -> templateInterpolateReg (String c r) = None.
Proof.
  destruct c as [[] [] [] [] [] [] [] []]; intros H; try discriminate H;
    reflexivity.
Qed.

Lemma alnum_no_delimiter (a : string) :
  forallb_string is_alnum a = true -> occurs "<%" a = false.
Proof.
  induction a as [| c r IH]; intros H; [reflexivity |].
  simpl in H. apply andb_true_iff in H as [Hc Hr].
  cbn [occurs]. rewrite (IH Hr), orb_false_r.
  destruct c as [[] [] [] [] [] [] [] []]; try discriminate Hc; reflexivity.
Qed.

Lemma scan_alnum (a : string) :
  forallb_string is_alnum a = true ->
  forall lit,
    Lodash.scan templateInterpolateReg a 0 lit = Lodash.flush (lit ++ a)%string.
Proof.
  induction a as [| c r IH]; intros H lit.
  - simpl. now rewrite append_empty_r.
  - simpl in H. apply andb_true_iff in H as [Hc Hr].
    cbn [Lodash.scan]. rewrite (not_bracket_no_match c r Hc), (IH Hr).
    f_equal. rewrite append_assoc. reflexivity.
Qed.

(** A text of alphanumeric characters compiles to itself. *)
Lemma template_alnum (a : string) :
  a <> EmptyString ->
  forallb_string is_alnum a = true ->
  Lodash.template (VStr a) templateInterpolateReg = Ok (VTemplate [Lit a]).
Proof.
  intros Hne H. unfold Lodash.template.
  rewrite (alnum_no_delimiter a H), (scan_alnum a H). simpl.
  destruct a; [contradiction | reflexivity].
Qed.

Section Validation.

Variable JSON_parse : string -> option jsval.
Variable uri_regex : string -> bool.
Variable new_URL : string -> result url.
Variable YAML_parse : string -> result jsval.

Local Abbreviation V := (Joi._validate JSON_parse uri_regex validate_options).
Local Abbreviation children_of c :=
  (map (fun kc : string * Joi.schema => (fst kc, V (snd kc))) c).
Local Abbreviation parse :=
  (parseConfig JSON_parse uri_regex new_URL YAML_parse).

(** *** The alias of a data source *)

Lemma string_alphanum_accepts path v v' :
  V (Joi.string_ .> Joi.alphanum) path v = Ok (v', []) ->
  v = VUndefined
  \/ exists a,
      v = VStr a /\ a <> EmptyString /\ forallb_string is_alnum a = true.
Proof.
  unfold Joi.alphanum, Joi.string_. cbn [app]. rewrite validate_string.
  destruct v; simpl; try discriminate; [now left |].
  destruct (Joi.alphanum_regex s) eqn:E; simpl.
  - intros _. right. exists s. unfold Joi.alphanum_regex in E.
    apply andb_true_iff in E as [Hne Hall]. repeat split; [| exact Hall].
    intros ->. discriminate.
  - destruct s; discriminate.
Qed.

(** The keys of an accepted object entry have been accepted one by one. *)
Lemma object_entry_children children path o v' :
  NoDup (map fst children) ->
  V (entry_schema children) path (VObj o) = Ok (v', []) ->
  exists target,
    v' = VObj (filter
                 (fun kv => Joi.is_child (children_of children) (fst kv))
                 target)
    /\ forall k s, In (k, s) children ->
         exists v,
           V s (path ++ [VStr k]) (get k o) = Ok (v, [])
           /\ get k target
              = match v with VUndefined => get k o | _ => v end.
Proof.
  intros Hnd H.
  destruct (entry_accepted_cases JSON_parse uri_regex children path (VObj o)
              v' ltac:(discriminate) H)
    as [(s & Hs & _) | (o' & target & Hparse & Hch & ->)]; [discriminate Hs |].
  cbn in Hparse. injection Hparse as <-. exists target. split; [reflexivity |].
  intros k s Hin.
  destruct (validate_children_spec (children_of children) path) with
    (1 := eq_ind_r (fun l => NoDup l) Hnd
            (keys_children_of JSON_parse uri_regex children))
    (2 := Hch) as (Hall & _).
  rewrite Forall_forall in Hall.
  destruct (Hall (k, V s)) as (v & e & Hv & Hincl & Hget).
  { apply in_map_iff. now exists (k, s). }
  cbn [fst snd] in *.
  assert (He : e = []).
  { destruct e as [| d e]; [reflexivity |]. destruct (Hincl d). now left. }
  subst e. exists v. split; [exact Hv | exact (Hget eq_refl)].
Qed.

Lemma DataSourceSchema_keys :
  NoDup (map fst
           [ ("url", Joi.string_ .> Joi.uri .> Joi.required);
             ("alias", Joi.string_ .> Joi.alphanum);
             ("on_change", onChangeSchema);
             ("args", argsSchema) ]).
Proof.
  cbn. repeat constructor; cbn; intuition discriminate.
Qed.

(** C10.  A data source in object form is accepted only if its alias,
    when there is one, is a non-empty text of alphanumeric characters; an
    alias with any other character, such as the brackets of "[name]", gets
    the source rejected.  So the alias of an accepted source compiles to a
    template without interpolation: [makeAlias] has no placeholder to
    substitute. *)
Theorem validated_alias_has_no_placeholder (path : list jsval)
  (o : list (string * jsval)) :
  (forall v',
     V DataSourceSchema path (VObj o) = Ok (v', []) ->
     match get "alias" o with
     | VUndefined =>
         Lodash.template (get "alias" o) templateInterpolateReg
         = Ok (VTemplate [])
     | VStr a =>
         a <> EmptyString
         /\ forallb_string is_alnum a = true
         /\ Lodash.template (get "alias" o) templateInterpolateReg
            = Ok (VTemplate [Lit a])
     | _ => False
     end)
  /\ (forall a,
        get "alias" o = VStr a ->
        forallb_string is_alnum a = false ->
        rejected JSON_parse uri_regex DataSourceSchema path (VObj o))
  /\ (get "alias" o = VStr "[name]" ->
      rejected JSON_parse uri_regex DataSourceSchema path (VObj o)).
Proof.
  assert (Haccepted :
    forall v',
      V DataSourceSchema path (VObj o) = Ok (v', []) ->
      get "alias" o = VUndefined
      \/ exists a,
          get "alias" o = VStr a /\ a <> EmptyString
          /\ forallb_string is_alnum a = true).
  { intros v' H.
    destruct (object_entry_children _ _ _ _ DataSourceSchema_keys H)
      as (target & _ & Hkeys).
    destruct (Hkeys "alias" (Joi.string_ .> Joi.alphanum)) as (v & Hv & _).
    { cbn. tauto. }
    exact (string_alphanum_accepts _ _ _ Hv). }
  assert (Hrejected :
    forall a,
      get "alias" o = VStr a ->
      forallb_string is_alnum a = false ->
      rejected JSON_parse uri_regex DataSourceSchema path (VObj o)).
  { intros a Ha Hbad.
    destruct (total_DataSourceSchema JSON_parse uri_regex path (VObj o))
      as [[v' e] Hv].
    destruct e as [| d e]; [| now exists v', d, e].
    destruct (Haccepted v' Hv) as [Hu | (a' & Ha' & _ & Hall)]; congruence. }
  split; [| split].
  - intros v' H.
    destruct (Haccepted v' H) as [-> | (a & -> & Hne & Hall)];
      [reflexivity |].
    repeat split; auto using template_alnum.
  - exact Hrejected.
  - intros Ha. now apply (Hrejected "[name]").
Qed.


(** *** The document as a whole *)

(** [parseConfig] throws the error of a rejected document. *)
Lemma parseConfig_rejects conf raw value d errors :
  YAML_parse conf = Ok raw ->
  V ConfigSchema [] raw = Ok (value, d :: errors) ->
  parse conf = Throw (ValidationError (d :: errors)).
Proof.
  intros Hyaml Hv. unfold parseConfig, Joi.validate.
  rewrite Hyaml. cbn [bind]. rewrite Hv. reflexivity.
Qed.

Lemma ConfigItemSchema_rejects_arrays path l :
  rejected JSON_parse uri_regex ConfigItemSchema path (VArr l).
Proof.
  exists (VArr l), (Joi.err path "object.base"), []. reflexivity.
Qed.

Lemma ConfigItemSchema_keys :
  NoDup (map fst
           [ ("watch", Joi.boolean_ .> Joi.default (VBool false));
             ("dependencies", list_field FilePathSchema "path");
             ("templates", list_field FilePathSchema "path");
             ("datasources", datasources_schema);
             ("files", list_field FileSchema "input_path");
             ("on_change", onChangeSchema);
             ("args", argsSchema) ]).
Proof.
  cbn. repeat constructor; cbn; intuition discriminate.
Qed.

(** The [datasources] list of an item is a part of the document. *)
Lemma datasources_part raw prefix o :
  document_item raw prefix o ->
  part_of JSON_parse uri_regex (ConfigSchema, [], raw)
    (datasources_schema, prefix ++ [VStr "datasources"],
     get "datasources" o).
Proof.
  intros Hitem.
  assert (Hkey :
    part JSON_parse uri_regex (ConfigItemSchema, prefix, VObj o)
      (datasources_schema, prefix ++ [VStr "datasources"],
       get "datasources" o)).
  { apply (part_key JSON_parse uri_regex Joi.optional _ prefix o
             "datasources" datasources_schema ConfigItemSchema_keys).
    cbn. tauto. }
  destruct Hitem as [o | items n o Hn].
  - eapply part_below; [| eapply part_below; [exact Hkey | apply part_here]].
    apply part_wrapped.
  - eapply part_below; [| eapply part_below; [exact Hkey | apply part_here]].
    apply (part_item JSON_parse uri_regex Joi.optional true ConfigItemSchema
             [Joi.rule_min 1] [] items n (VObj o) Hn).
    + discriminate.
    + intros _ p l'. apply ConfigItemSchema_rejects_arrays.
Qed.

(** *** Duplicates among the data sources *)

Lemma checkItems_all_accepted (s : Joi.schema) path :
  forall items i,
    Forall (fun d => d <> VUndefined /\ accepted JSON_parse uri_regex s d)
      items ->
    exists out,
      Joi.checkItems validate_options [V s] true path i items = Ok (out, []).
Proof.
  induction items as [| item rest IH]; intros i Hall.
  - now exists [].
  - inversion Hall as [| ? ? [Hdef Hacc] Hrest]; subst.
    cbn [Joi.checkItems]. rewrite check_item_single.
    destruct (Hacc (path ++ [Joi.index i])) as [v Hv].
    destruct (IH (S i) Hrest) as [out Hout].
    exists (v :: out).
    destruct item; try contradiction; rewrite Hv; cbn; rewrite Hout;
      reflexivity.
Qed.

Lemma entry_string children path u :
  u <> EmptyString ->
  V (entry_schema children) path (VStr u) = Ok (VStr u, []).
Proof.
  intros Hne. destruct u; [contradiction | reflexivity].
Qed.

Lemma string_schema_value f tests path s v e :
  V (Joi.SString f tests) path (VStr s) = Ok (v, e) -> v = VStr s.
Proof.
  rewrite validate_string. cbn [Joi.presence].
  destruct (Joi.run_tests validate_options
              (Joi.string_test uri_regex path s) tests); cbn; [| discriminate].
  intros H. now injection H.
Qed.

Lemma required_uri_accepts path u v :
  V (Joi.string_ .> Joi.uri .> Joi.required) path (VStr u) = Ok (v, []) ->
  u <> EmptyString.
Proof.
  intros H ->. unfold Joi.required, Joi.uri, Joi.string_ in H.
  cbn [Joi.with_flags Joi.schema_flags app] in H.
  rewrite validate_string in H. cbn in H.
  destruct (uri_regex EmptyString); discriminate H.
Qed.

Lemma datasources_duplicate path ds a b u p :
  nth_error ds a = Some (VStr u) ->
  nth_error ds b = Some (VObj p) ->
  get "url" p = VStr u ->
  Forall (fun d => d <> VUndefined
                   /\ accepted JSON_parse uri_regex DataSourceSchema d) ds ->
  exists out pos,
    V datasources_schema path (VArr ds)
    = Ok (out, [Joi.err (path ++ [Joi.index pos]) "array.unique"])
    /\ pos < List.length ds.
Proof.
  intros Ha Hb Hurl Hall.
  destruct (checkItems_all_accepted DataSourceSchema path ds 0 Hall)
    as [out Hci].
  destruct (checkItems_spec _ _ _ _ _ _ _ Hci) as (Hlen & Hnth).
  assert (Hnil : forall e : list detail, incl e [] -> e = []).
  { intros [| d e] He; [reflexivity |]. destruct (He d). now left. }
  (* the entry in object form *)
  destruct (Hnth b _ Hb) as [[Hu _] | (_ & vb & eb & Hvb & Hinclb & Houtb)];
    [discriminate Hu |].
  rewrite (Hnil _ Hinclb) in *. specialize (Houtb eq_refl).
  destruct (object_entry_children _ _ _ _ DataSourceSchema_keys Hvb)
    as (target & -> & Hkeys).
  destruct (Hkeys "url" (Joi.string_ .> Joi.uri .> Joi.required))
    as (vu & Hvu & Hget).
  { cbn. tauto. }
  rewrite Hurl in Hvu, Hget.
  pose proof (required_uri_accepts _ _ _ Hvu) as Hne.
  rewrite (string_schema_value _ _ _ _ _ _ Hvu) in Hget.
  (* the entry in string form *)
  destruct (Hnth a _ Ha) as [[Hu _] | (_ & va & ea & Hva & Hincla & Houta)];
    [discriminate Hu |].
  rewrite (Hnil _ Hincla) in *. specialize (Houta eq_refl).
  change DataSourceSchema with
    (entry_schema
       [ ("url", Joi.string_ .> Joi.uri .> Joi.required);
         ("alias", Joi.string_ .> Joi.alphanum);
         ("on_change", onChangeSchema);
         ("args", argsSchema) ]) in Hva.
  rewrite (entry_string _ _ u Hne) in Hva. injection Hva as <-.
  (* the two are duplicates *)
  assert (Hshape : Forall str_or_obj out).
  { eapply checkItems_accepted; [| exact Hci].
    intros p0 v v' Hdef Hv.
    eapply entry_shape_str_or_obj.
    eapply (entry_accepts_only JSON_parse uri_regex); eauto. }
  assert (Hab : a <> b).
  { intros ->. rewrite Ha in Hb. discriminate Hb. }
  match type of Houtb with
  | nth_error _ _ = Some ?y =>
      assert (Heq : strict_eq (field_of "url" (VStr u)) (field_of "url" y)
                    = true)
  end.
  { cbn [field_of]. unfold get at 1.
    rewrite lookup_filter_kept by reflexivity. fold (get "url" target).
    rewrite Hget. cbn. apply String.eqb_refl. }
  destruct (duplicate_found "url" out a b _ _ Hab Houta Houtb Heq)
    as (pos & Hpos & Hlt).
  exists (VArr out), pos. split; [| now rewrite <- Hlen].
  change datasources_schema with (list_field DataSourceSchema "url").
  unfold list_field. rewrite validate_array.
  rewrite presence_defined by discriminate.
  unfold Joi.array_base. cbn [map Joi.safeParse_array]. rewrite Hci.
  cbn [bind is_nil Joi.run_tests Joi.array_test].
  rewrite (first_duplicate_spec "url" out [] 0 (Forall_nil _) Hshape), Hpos.
  reflexivity.
Qed.

(** C6 (amended).  When an item of the document lists two data sources
    with the same url, one as a bare string and one as an object, and
    every entry of that list is defined and by itself acceptable as a data
    source, [parseConfig] throws a [ValidationError] with an
    [array.unique] detail at a position of that list. *)
Theorem duplicate_data_source_is_rejected (conf : string) (raw : jsval)
  (prefix : list jsval) (o : list (string * jsval)) (ds : list jsval)
  (a b : nat) (u : string) (p : list (string * jsval)) :
  YAML_parse conf = Ok raw ->
  document_item raw prefix o ->
  get "datasources" o = VArr ds ->
  nth_error ds a = Some (VStr u) ->
  nth_error ds b = Some (VObj p) ->
  get "url" p = VStr u ->
  Forall (fun d => d <> VUndefined
                   /\ accepted JSON_parse uri_regex DataSourceSchema d) ds ->
  exists details pos,
    parse conf = Throw (ValidationError details)
    /\ pos < List.length ds
    /\ In {| d_path := prefix ++ [VStr "datasources"; Joi.index pos];
             d_type := "array.unique" |} details.
Proof.
  intros Hyaml Hitem Hds Ha Hb Hurl Hall.
  destruct (total_ConfigSchema JSON_parse uri_regex [] raw)
    as [[value errors] Hv].
  destruct (part_of_errors_kept JSON_parse uri_regex _ _
              (datasources_part raw prefix o Hitem) value errors Hv)
    as (v & e & Hpart & Hincl).
  cbn [fst snd] in Hpart. rewrite Hds in Hpart.
  destruct (datasources_duplicate (prefix ++ [VStr "datasources"]) ds a b u p
              Ha Hb Hurl Hall) as (out & pos & Hdup & Hlt).
  rewrite Hdup in Hpart. injection Hpart as <- <-.
  assert (Hin : In (Joi.err ((prefix ++ [VStr "datasources"])
                               ++ [Joi.index pos]) "array.unique") errors).
  { apply Hincl. now left. }
  rewrite <- app_assoc in Hin. cbn [app] in Hin.
  destruct errors as [| d errors]; [destruct Hin |].
  exists (d :: errors), pos. split; [| split; [exact Hlt | exact Hin]].
  exact (parseConfig_rejects conf raw value d errors Hyaml Hv).
Qed.

(** C7 (amended).  [parseConfig] validates without [abortEarly]: whatever
    part of the document a violation is found in (a key of an item, an
    entry of a list, a key of an entry, at any depth), the violation is in
    the details of the one [ValidationError] that [parseConfig] throws.
    (The rules of a list are among the violations of a part only when all
    the entries of the list are valid: see [part_errors_kept].) *)
Theorem violations_are_aggregated (conf : string) (raw : jsval)
  (s : Joi.schema) (path : list jsval) (v v' : jsval) (e : list detail) :
  YAML_parse conf = Ok raw ->
  part_of JSON_parse uri_regex (ConfigSchema, [], raw) (s, path, v) ->
  V s path v = Ok (v', e) ->
  e <> [] ->
  exists details,
    parse conf = Throw (ValidationError details) /\ incl e details.
Proof.
  intros Hyaml Hpart Hv Hne.
  destruct (total_ConfigSchema JSON_parse uri_regex [] raw)
    as [[value errors] Htop].
  destruct (part_of_errors_kept JSON_parse uri_regex _ _ Hpart value errors
              Htop) as (v2 & e2 & Hv2 & Hincl).
  cbn [fst snd] in Hv2. rewrite Hv in Hv2. injection Hv2 as <- <-.
  destruct errors as [| d errors].
  - destruct e as [| d e]; [contradiction |]. destruct (Hincl d). now left.
  - exists (d :: errors). split; [| exact Hincl].
    exact (parseConfig_rejects conf raw value d errors Hyaml Htop).
Qed.

End Validation.

(** ** Normalization *)

Lemma lookup_assign_keys (k : string) (source : list (string * jsval)) :
  forall target,
    lookup k (assign target source) <> None ->
    lookup k target <> None \/ lookup k source <> None.
Proof.
  unfold assign. induction source as [| [k0 v0] rest IH]; intros target H.
  - now left.
  - cbn [fold_left fst snd] in H. destruct (IH _ H) as [Ht | Hr].
    + destruct (lookup_set_keys _ _ _ _ Ht) as [-> | Ht'].
      * right. cbn. now rewrite String.eqb_refl.
      * now left.
    + right. cbn. destruct (k0 =? k); [discriminate | exact Hr].
Qed.

Lemma filter_partition_permutation {A} (p : A -> bool) (l : list A) :
  Permutation l (filter p l ++ filter (fun v => negb (p v)) l).
Proof.
  induction l as [| x l IH]; [constructor |].
  cbn. destruct (p x); cbn.
  - now constructor.
  - now apply Permutation_cons_app.
Qed.

Lemma map_result_Forall2 {A B} (f : A -> result B) :
  forall l l', map_result f l = Ok l' -> Forall2 (fun x y => f x = Ok y) l l'.
Proof.
  induction l as [| x l IH]; intros l' H; cbn in H.
  - injection H as <-. constructor.
  - destruct (f x) as [y |] eqn:Hx; cbn in H; [| discriminate].
    destruct (map_result f l) as [ys |]; cbn in H; [| discriminate].
    injection H as <-. constructor; [exact Hx | now apply IH].
Qed.

Lemma get_map_on_change (k : string) (o : list (string * jsval)) :
  k <> "on_change" -> get k (map_on_change o) = get k o.
Proof.
  intros Hk. unfold map_on_change.
  destruct (truthy (get "on_change" o)); [| reflexivity].
  now apply get_set_other.
Qed.

Lemma lookup_map_on_change (k : string) (o : list (string * jsval)) :
  k <> "on_change" -> lookup k (map_on_change o) = lookup k o.
Proof.
  intros Hk. unfold map_on_change.
  destruct (truthy (get "on_change" o)); [| reflexivity].
  now apply lookup_set_other.
Qed.

Section Normalization.

Variable JSON_parse : string -> option jsval.
Variable uri_regex : string -> bool.
Variable new_URL : string -> result url.
Variable YAML_parse : string -> result jsval.

Local Abbreviation V := (Joi._validate JSON_parse uri_regex validate_options).
Local Abbreviation children_of c :=
  (map (fun kc : string * Joi.schema => (fst kc, V (snd kc))) c).
Local Abbreviation parse :=
  (parseConfig JSON_parse uri_regex new_URL YAML_parse).

(** A normalized data source has a path exactly when the protocol of
    its url starts with "file". *)
Lemma mapDataSource_spec (v source : jsval) :
  entry_shape data_source_keys v ->
  mapDataSource new_URL v = Ok source ->
  exists props u,
    source = VObj props
    /\ URL_of new_URL (get "url" props) = Ok u
    /\ has_path source = startsWith "file" (protocol u).
Proof.
  intros Hshape. unfold mapDataSource.
  assert (Hcur :
    exists curV,
      match v with
      | VStr _ => Ok (set "url" v [("url", VNull)])
      | _ => assign_from [("url", VNull)] v
      end = Ok curV
      /\ lookup "path" curV = None).
  { destruct v; try contradiction.
    - eexists. split; reflexivity.
    - eexists. split; [reflexivity |].
      destruct (lookup "path" (assign [("url", VNull)] props)) eqn:E;
        [| reflexivity].
      destruct (lookup_assign_keys "path" props [("url", VNull)])
        as [H | H]; [congruence | now destruct H |].
      apply Hshape in H. cbn in H. intuition discriminate. }
  destruct Hcur as (curV & -> & Hpath). cbn [bind].
  assert (Hpath' : get "path" (map_on_change curV) = VUndefined).
  { unfold get. rewrite lookup_map_on_change by discriminate.
    now rewrite Hpath. }
  destruct (URL_of new_URL (get "url" (map_on_change curV))) as [u |] eqn:Hu;
    cbn [bind]; [| discriminate].
  destruct (startsWith "file" (protocol u)) eqn:Hfile.
  - destruct (Lodash.template _ templateInterpolateReg) as [makeAlias |];
      cbn [bind]; [| discriminate].
    intros H. injection H as <-. eexists. exists u.
    split; [reflexivity |]. split.
    + rewrite !get_set_other by discriminate. exact Hu.
    + cbn [has_path]. rewrite get_set_other by discriminate.
      now rewrite get_set_same.
  - intros H. injection H as <-. exists (map_on_change curV), u.
    split; [reflexivity |]. split; [exact Hu |].
    cbn [has_path]. now rewrite Hpath'.
Qed.

(** *** What validation hands to the normalization *)

Lemma array_accepted f single_flag s tests (P : jsval -> Prop) path v v' :
  accepts_only JSON_parse uri_regex s P ->
  v <> VUndefined ->
  V (Joi.SArray f single_flag [s] tests) path v = Ok (v', []) ->
  exists l, v' = VArr l /\ Forall P l.
Proof.
  intros HP Hdef. rewrite validate_array, presence_defined by exact Hdef.
  cbn [map].
  destruct (Joi.array_base JSON_parse validate_options [V s] single_flag path
              v) as [[v0 e0] |] eqn:Hbase; cbn [bind]; [| discriminate].
  destruct e0 as [| d e0]; cbn [is_nil].
  - destruct (array_base_success _ _ _ _ _ _ Hbase) as [l ->].
    destruct (Joi.run_tests validate_options (Joi.array_test path l) tests)
      as [errors' |]; cbn [bind]; [| discriminate].
    intros H. destruct (finalize_ok _ _ _ _ _ H) as [-> Hv].
    exists l. split; [now apply Hv |].
    exact (array_base_accepted JSON_parse uri_regex s P _ _ _ _ HP Hbase).
  - intros H. destruct (finalize_ok _ _ _ _ _ H) as [Habs _].
    discriminate Habs.
Qed.

Lemma datasources_accepted path v v' :
  V datasources_schema path v = Ok (v', []) ->
  exists l, v' = VArr l /\ Forall (entry_shape data_source_keys) l.
Proof.
  intros H.
  assert (Hdefined :
    v <> VUndefined ->
    exists l, v' = VArr l /\ Forall (entry_shape data_source_keys) l).
  { intros Hdef.
    refine (array_accepted _ _ DataSourceSchema _
              (entry_shape data_source_keys) path v v' _ Hdef H).
    exact (entry_accepts_only JSON_parse uri_regex
             [ ("url", Joi.string_ .> Joi.uri .> Joi.required);
               ("alias", Joi.string_ .> Joi.alphanum);
               ("on_change", onChangeSchema);
               ("args", argsSchema) ]). }
  destruct v; try (apply Hdefined; discriminate).
  cbv in H. injection H as <-. now exists [].
Qed.

Lemma ConfigItemSchema_accepts :
  accepts_only JSON_parse uri_regex ConfigItemSchema item_shape.
Proof.
  intros path v v' Hdef. unfold ConfigItemSchema, Joi.object_.
  rewrite validate_object, presence_defined by exact Hdef.
  destruct (Joi.object_base JSON_parse validate_options _ path v)
    as [[v0 e0] |] eqn:Hbase; cbn [bind]; [| discriminate].
  intros H. destruct (finalize_ok _ _ _ _ _ H) as [-> Hv].
  destruct (object_base_spec _ _ _ _ _ _ _ Hbase)
    as [(o & target & _ & Hch & ->) | (_ & Hbad)]; [| discriminate Hbad].
  rewrite Hv by discriminate. clear Hv H Hbase.
  match type of Hch with
  | Joi.validate_children _ ?c _ _ = _ =>
      assert (Hnd : NoDup (map fst c))
        by (cbn; repeat constructor; cbn; intuition discriminate);
      destruct (validate_children_spec c path Hnd _ _ _ Hch) as (Hall & _)
  end.
  rewrite Forall_forall in Hall.
  destruct (Hall ("datasources", V datasources_schema))
    as (vd & e & Hvd & Hincl & Hget).
  { cbn. tauto. }
  cbn [fst snd] in *.
  assert (He : e = []).
  { destruct e as [| d e]; [reflexivity |]. destruct (Hincl d). now left. }
  subst e. specialize (Hget eq_refl).
  destruct (datasources_accepted _ _ _ Hvd) as (l & -> & Hl).
  eexists. exists l. split; [reflexivity |]. split; [| exact Hl].
  unfold get at 1. rewrite lookup_filter_kept by reflexivity. exact Hget.
Qed.

(** *** The item after normalization *)

Lemma normalize_item_spec (o : list (string * jsval)) (ds : list jsval)
  (item : jsval) :
  get "datasources" o = VArr ds ->
  normalize_item new_URL (VObj o) = Ok item ->
  exists o' sources,
    item = VObj o'
    /\ get "datasources" o' = VArr ds
    /\ map_result (mapDataSource new_URL) ds = Ok sources
    /\ get "fileDataSources" o' = VArr (filter has_path sources)
    /\ get "otherDataSources" o'
       = VArr (filter (fun v => negb (has_path v)) sources).
Proof.
  intros Hds. unfold normalize_item.
  rewrite (get_map_on_change "datasources" o) by discriminate.
  rewrite Hds. cbn [array_map].
  destruct (map_result (mapDataSource new_URL) ds) as [sources |];
    cbn [bind]; [| discriminate].
  unfold Lodash.partition.
  destruct (array_map mapFilePath _) as [dependencies |]; cbn [bind];
    [| discriminate].
  destruct (array_map mapFilePath _) as [templates |]; cbn [bind];
    [| discriminate].
  destruct (array_map mapFile _) as [files |]; cbn [bind]; [| discriminate].
  intros H. injection H as <-. eexists. exists sources.
  split; [reflexivity |].
  repeat split.
  - rewrite !get_set_other by discriminate.
    rewrite (get_map_on_change "datasources" o) by discriminate. exact Hds.
  - rewrite !get_set_other by discriminate. apply get_set_same.
  - rewrite !get_set_other by discriminate. apply get_set_same.
Qed.

(** C8 (amended).  For every item that [parseConfig] returns, the
    [fileDataSources] and [otherDataSources] are the normalized data
    sources of its [datasources] that have a path and those that do not,
    each in the order of the list, together a rearrangement of all of
    them; and a normalized source has a path exactly when the protocol of
    its url starts with "file". *)
Theorem data_sources_are_partitioned (conf : string) (items : list jsval) :
  parse conf = Ok items ->
  Forall (partitioned new_URL) items.
Proof.
  unfold parseConfig, Joi.validate.
  destruct (YAML_parse conf) as [raw |]; cbn [bind]; [| discriminate].
  destruct (V ConfigSchema [] raw) as [[value errors] |] eqn:Hv; cbn [bind];
    [| discriminate].
  destruct errors as [| d errors]; cbn [is_nil]; [| discriminate].
  intros Hmap.
  assert (Hraw : raw <> VUndefined).
  { intros ->. cbv in Hv. injection Hv as <-. discriminate Hmap. }
  destruct (array_accepted _ _ _ _ _ _ _ _ ConfigItemSchema_accepts Hraw Hv)
    as (l & -> & Hl).
  cbn [array_map] in Hmap. apply map_result_Forall2 in Hmap.
  clear Hv Hraw. revert Hl.
  induction Hmap as [| x item l items Hx _ IH]; intros Hl; [constructor |].
  inversion Hl as [| ? ? (o & ds & -> & Hds & Hshape) Hl']; subst.
  constructor; [| exact (IH Hl')].
  destruct (normalize_item_spec o ds item Hds Hx)
    as (o' & sources & -> & Hds' & Hsources & Hfile & Hother).
  exists o', ds, sources. repeat split; auto.
  - apply filter_partition_permutation.
  - apply map_result_Forall2 in Hsources. clear - Hsources Hshape.
    induction Hsources as [| v source ds sources Hv _ IH]; [constructor |].
    inversion Hshape as [| ? ? Hv' Hrest]; subst.
    constructor; [| exact (IH Hrest)].
    exact (mapDataSource_spec v source Hv' Hv).
Qed.

End Normalization.

(** ** Concrete documents *)

Lemma validated_alias_has_no_placeholder_witness :
  Lodash.template (VStr "data1") templateInterpolateReg
  = Ok (VTemplate [Lit "data1"]).
Proof.
  exact (proj2 (proj2
           (proj1
              (validated_alias_has_no_placeholder Sample.JSON_parse
                 Sample.uri_regex [] aliased_source)
              (VObj aliased_source) eq_refl))).
Defined.

Lemma duplicate_data_source_is_rejected_witness :
  exists details pos,
    parseConfig Sample.JSON_parse Sample.uri_regex Sample.new_URL
      (Sample.YAML_parse duplicate_url_document)
      "datasources: ['https://example.com/d.json', {url: 'https://example.com/d.json'}]"
    = Throw (ValidationError details)
    /\ pos < 2
    /\ In {| d_path := [VStr "datasources"; Joi.index pos];
             d_type := "array.unique" |} details.
Proof.
  apply (duplicate_data_source_is_rejected Sample.JSON_parse Sample.uri_regex
           Sample.new_URL (Sample.YAML_parse duplicate_url_document)
           "datasources: ['https://example.com/d.json', {url: 'https://example.com/d.json'}]"
           (VObj [("datasources",
                   VArr [VStr "https://example.com/d.json";
                         VObj [("url", VStr "https://example.com/d.json")]])])
           []
           [("datasources",
             VArr [VStr "https://example.com/d.json";
                   VObj [("url", VStr "https://example.com/d.json")]])]
           [VStr "https://example.com/d.json";
            VObj [("url", VStr "https://example.com/d.json")]]
           0 1 "https://example.com/d.json"
           [("url", VStr "https://example.com/d.json")]).
  - reflexivity.
  - constructor.
  - reflexivity.
  - reflexivity.
  - reflexivity.
  - reflexivity.
  - repeat constructor; try discriminate; intros path; eexists;
      vm_compute; reflexivity.
Defined.

(** C6, as stated, fails: the two data sources have the same url
    "data.json", one as a string and one as an object, and the
    [ValidationError] has no [array.unique] detail.  The object form
    requires a URI, the string form does not; an entry that is rejected
    ends the validation of the list before its [unique] rule. *)
Lemma duplicate_relative_url_not_reported :
  let details :=
    [ {| d_path := [VStr "datasources"; VNum 1]; d_type := "string.base" |};
      {| d_path := [VStr "datasources"; VNum 1; VStr "url"];
         d_type := "string.uri" |} ] in
  parseConfig Sample.JSON_parse Sample.uri_regex Sample.new_URL
    (Sample.YAML_parse duplicate_path_document)
    "datasources: [data.json, {url: data.json}]"
  = Throw (ValidationError details)
  /\ forall d, In d details -> d_type d <> "array.unique".
Proof.
  split; [reflexivity |].
  intros d [<- | [<- | []]]; discriminate.
Qed.

Lemma violations_are_aggregated_witness :
  exists details,
    parseConfig Sample.JSON_parse Sample.uri_regex Sample.new_URL
      (Sample.YAML_parse two_violations_document) "[{watch: nope, args: []}]"
    = Throw (ValidationError details)
    /\ incl [ {| d_path := [VNum 0; VStr "watch"];
                 d_type := "boolean.base" |} ] details.
Proof.
  apply (violations_are_aggregated Sample.JSON_parse Sample.uri_regex
           Sample.new_URL (Sample.YAML_parse two_violations_document)
           "[{watch: nope, args: []}]"
           (VArr [VObj [("watch", VStr "nope"); ("args", VArr [])]])
           (Joi.boolean_ .> Joi.default (VBool false))
           [VNum 0; VStr "watch"] (VStr "nope") (VStr "nope")).
  - reflexivity.
  - eapply part_below.
    + apply (part_item Sample.JSON_parse Sample.uri_regex Joi.optional true
               ConfigItemSchema [Joi.rule_min 1] []
               [VObj [("watch", VStr "nope"); ("args", VArr [])]] 0
               (VObj [("watch", VStr "nope"); ("args", VArr [])]) eq_refl).
      * discriminate.
      * intros _ p l'. apply ConfigItemSchema_rejects_arrays.
    + eapply part_below; [| apply part_here].
      apply (part_key Sample.JSON_parse Sample.uri_regex Joi.optional _
               [Joi.index 0] [("watch", VStr "nope"); ("args", VArr [])]
               "watch" (Joi.boolean_ .> Joi.default (VBool false))
               ConfigItemSchema_keys).
      cbn. tauto.
  - reflexivity.
  - discriminate.
Defined.

(** The same document under [abortEarly]: the first violation only. *)
Example fail_fast_reports_one_violation :
  Joi.validate Sample.JSON_parse Sample.uri_regex fail_fast_options
    ConfigSchema (VArr [VObj [("watch", VStr "nope"); ("args", VArr [])]])
  = Ok (VArr [VObj [("watch", VStr "nope"); ("args", VArr [])]],
        Some (ValidationError
                [ {| d_path := [VNum 0; VStr "watch"];
                     d_type := "boolean.base" |} ]))
  /\ parseConfig Sample.JSON_parse Sample.uri_regex Sample.new_URL
       (Sample.YAML_parse two_violations_document) "[{watch: nope, args: []}]"
     = Throw
         (ValidationError
            [ {| d_path := [VNum 0; VStr "watch"]; d_type := "boolean.base" |};
              {| d_path := [VNum 0; VStr "args"]; d_type := "array.min" |} ]).
Proof. split; vm_compute; reflexivity. Qed.

(** C7, as stated, fails: the first two entries of the list are
    duplicates (the list of these two alone is rejected for it), yet with
    a third entry that is not a data source the [ValidationError] lists
    only the violations of the third. *)
Lemma duplicate_hidden_by_invalid_entry :
  parseConfig Sample.JSON_parse Sample.uri_regex Sample.new_URL
    (Sample.YAML_parse duplicate_and_number_documents)
    "datasources: ['https://example.com/d.json', 'https://example.com/d.json', 5]"
  = Throw
      (ValidationError
         [ {| d_path := [VStr "datasources"; VNum 2]; d_type := "string.base" |};
           {| d_path := [VStr "datasources"; VNum 2]; d_type := "object.base" |} ])
  /\ parseConfig Sample.JSON_parse Sample.uri_regex Sample.new_URL
       (Sample.YAML_parse duplicate_and_number_documents)
       "datasources: ['https://example.com/d.json', 'https://example.com/d.json']"
     = Throw
         (ValidationError
            [ {| d_path := [VStr "datasources"; VNum 1];
                 d_type := "array.unique" |} ]).
Proof. split; reflexivity. Qed.

Lemma data_sources_are_partitioned_witness :
  exists items,
    parseConfig Sample.JSON_parse Sample.uri_regex Sample.new_URL
      (Sample.YAML_parse file_and_remote_document)
      "datasources: ['file:///data/x.json', 'https://example.com/y']"
    = Ok items
    /\ Forall (partitioned Sample.new_URL) items.
Proof.
  eexists. split; [vm_compute; reflexivity |].
  apply (data_sources_are_partitioned Sample.JSON_parse Sample.uri_regex
           Sample.new_URL (Sample.YAML_parse file_and_remote_document)
           "datasources: ['file:///data/x.json', 'https://example.com/y']").
  vm_compute. reflexivity.
Defined.

(** C8, as stated, fails: the scheme of "filestore://bucket/x.json" is
    not [file], and the source is among the [fileDataSources], because
    its protocol starts with "file". *)
Lemma file_prefixed_scheme_counts_as_file :
  parseConfig Sample.JSON_parse Sample.uri_regex Sample.new_URL
    (Sample.YAML_parse filestore_document)
    "datasources: ['filestore://bucket/x.json', 'https://example.com/y']"
  = Ok [VObj
          [("datasources",
            VArr [VStr "filestore://bucket/x.json";
                  VStr "https://example.com/y"]);
           ("watch", VBool false);
           ("dependencies", VArr []);
           ("templates", VArr []);
           ("files", VArr []);
           ("fileDataSources",
            VArr [VObj [("url", VStr "filestore://bucket/x.json");
                        ("path", VStr "/x.json");
                        ("makeAlias", VTemplate [])]]);
           ("otherDataSources",
            VArr [VObj [("url", VStr "https://example.com/y")]])]]
  /\ Sample.new_URL "filestore://bucket/x.json"
     = Ok {| protocol := "filestore:"; pathname := "/x.json" |}
  /\ "filestore:" <> "file:".
Proof.
  split; [vm_compute; reflexivity |].
  split; [reflexivity | discriminate].
Qed.

(** * Further properties *)

(** ** Acquisition *)

Lemma ForallOrdPairs_snoc {A} (R : A -> A -> Prop) (l : list A) (v : A) :
  ForallOrdPairs R l -> Forall (fun x => R x v) l ->
  ForallOrdPairs R (l ++ [v]).
Proof.
  induction 1 as [| x l Hx _ IH]; intros Hall; cbn.
  - repeat constructor.
  - inversion Hall as [| ? ? Hxv Hrest]; subst. constructor.
    + apply Forall_app. split; [exact Hx | now constructor].
    + now apply IH.
Qed.

Lemma strict_eq_string (s : string) (x : jsval) :
  strict_eq (VStr s) x = true -> x = VStr s.
Proof.
  destruct x; cbn; try discriminate. intros H.
  apply String.eqb_eq in H. now subst.
Qed.

Lemma Set_add_members (v : jsval) (s : list jsval) :
  set_members s -> set_members (Set_add v s).
Proof.
  intros Hs. unfold Set_add.
  destruct (existsb (strict_eq v) s) eqn:E; [exact Hs |].
  apply ForallOrdPairs_snoc; [exact Hs |].
  rewrite Forall_forall. intros x Hx.
  destruct (strict_eq x v) eqn:Hxv; [| reflexivity].
  rewrite strict_eq_sym in Hxv.
  assert (Habs : existsb (strict_eq v) s = true).
  { apply existsb_exists. now exists x. }
  congruence.
Qed.

Lemma Set_add_keeps (v x : jsval) (s : list jsval) :
  In x s -> In x (Set_add v s).
Proof.
  intros Hx. unfold Set_add. destruct (existsb (strict_eq v) s); [exact Hx |].
  apply in_or_app. now left.
Qed.

Lemma Set_add_string (str : string) (s : list jsval) :
  In (VStr str) (Set_add (VStr str) s).
Proof.
  unfold Set_add. destruct (existsb (strict_eq (VStr str)) s) eqn:E.
  - apply existsb_exists in E as [x [Hx Heq]].
    now rewrite (strict_eq_string _ _ Heq) in Hx.
  - apply in_or_app. right. now left.
Qed.

Section MoreAcquisition.

Variable new_URL : string -> result url.
Variable argsparse : string -> list (string * jsval).
Variable path_parse : string -> string * string.
Variable path_join : string -> string -> string.
Variable readFile : string -> result string.
Variable execFile : jsval -> list jsval -> result string.
Variable ENV : environment.
Variable process_env_CONFIG_PATH : option string.

Local Abbreviation run :=
  (getConfig new_URL argsparse path_parse path_join readFile execFile ENV
     process_env_CONFIG_PATH).

(** What one pair does to the accumulator and to the set. *)
Lemma push_arg_spec k v arr deps arr' deps' :
  push_arg new_URL k v (arr, deps) = Ok (arr', deps') ->
  arr' = arr ++ [VStr ("-" ++ k); v]
  /\ (set_members deps -> set_members deps')
  /\ (Forall (fun d => truthy d = true) deps ->
      Forall (fun d => truthy d = true) deps')
  /\ (forall x, In x deps -> In x deps').
Proof.
  unfold push_arg.
  destruct (getPathFromArg new_URL k v) as [depPath |]; cbn [bind];
    [| discriminate].
  intros H. injection H as <- <-. split; [reflexivity |].
  destruct (truthy depPath) eqn:Ht.
  - split; [apply Set_add_members |]. split; [| intros x; apply Set_add_keeps].
    intros Hall. unfold Set_add.
    destruct (existsb (strict_eq depPath) deps); [exact Hall |].
    apply Forall_app. split; [exact Hall | now constructor].
  - repeat split; auto.
Qed.

Lemma forEach_spec k :
  forall l arr deps arr' deps',
    forEach new_URL k l (arr, deps) = Ok (arr', deps') ->
    arr' = arr ++ flat_map (fun v => [VStr ("-" ++ k); v]) l
    /\ (set_members deps -> set_members deps')
    /\ (Forall (fun d => truthy d = true) deps ->
        Forall (fun d => truthy d = true) deps')
    /\ (forall x, In x deps -> In x deps').
Proof.
  induction l as [| v l IH]; intros arr deps arr' deps' H;
    cbn [forEach] in H.
  - injection H as <- <-. rewrite app_nil_r. repeat split; auto.
  - destruct (push_arg new_URL k v (arr, deps)) as [[arr1 deps1] |] eqn:Hp;
      cbn [bind] in H; [| discriminate].
    destruct (push_arg_spec _ _ _ _ _ _ Hp) as (-> & Hm & Ht & Hk).
    destruct (IH _ _ _ _ H) as (-> & Hm' & Ht' & Hk').
    split; [now rewrite <- app_assoc |]. repeat split; auto.
Qed.

Lemma reducer_spec args k arr deps arr' deps' :
  reducer new_URL args (arr, deps) k = Ok (arr', deps') ->
  arr' = arr ++ flag_pairs k (get k args)
  /\ (set_members deps -> set_members deps')
  /\ (Forall (fun d => truthy d = true) deps ->
      Forall (fun d => truthy d = true) deps')
  /\ (forall x, In x deps -> In x deps').
Proof.
  unfold reducer, flag_pairs.
  destruct (get k args); try apply push_arg_spec. apply forEach_spec.
Qed.

Lemma reduce_spec args :
  forall ks arr deps arr' deps',
    reduce new_URL args ks (arr, deps) = Ok (arr', deps') ->
    arr' = arr ++ flat_map (fun k => flag_pairs k (get k args)) ks
    /\ (set_members deps -> set_members deps')
    /\ (Forall (fun d => truthy d = true) deps ->
        Forall (fun d => truthy d = true) deps')
    /\ (forall x, In x deps -> In x deps').
Proof.
  induction ks as [| k ks IH]; intros arr deps arr' deps' H;
    cbn [reduce] in H.
  - injection H as <- <-. rewrite app_nil_r. repeat split; auto.
  - destruct (reducer new_URL args (arr, deps) k) as [[arr1 deps1] |] eqn:Hr;
      cbn [bind] in H; [| discriminate].
    destruct (reducer_spec _ _ _ _ _ _ Hr) as (-> & Hm & Ht & Hk).
    destruct (IH _ _ _ _ H) as (-> & Hm' & Ht' & Hk').
    split; [cbn; now rewrite <- app_assoc |]. repeat split; auto.
Qed.

Lemma flag_pairs_nil k v : flag_pairs k v = [] <-> v = VArr [].
Proof.
  split; [| now intros ->].
  destruct v; cbn; try discriminate. destruct items; [reflexivity | discriminate].
Qed.

Lemma argv_of_nil (args : list (string * jsval)) :
  argv_of args = [] <-> Forall (fun k => get k args = VArr []) (keys args).
Proof.
  unfold argv_of. induction (keys args) as [| k ks IH]; cbn.
  - split; constructor.
  - split.
    + intros Hnil. apply app_eq_nil in Hnil as [Hk Hks]. constructor.
      * exact (proj1 (flag_pairs_nil _ _) Hk).
      * now apply IH.
    + intros Hall. inversion Hall as [| ? ? Hk Hks]; subst.
      rewrite Hk. cbn. now apply IH.
Qed.


(** X1.  The argument vector that [getConfig] rebuilds from the flags is,
    flag by flag in key order, one [-flag value] pair for a flag with a
    single value and one pair per element, in order, for a flag whose
    value is an array.  It is empty exactly when every flag holds an empty
    array (in particular when there is no flag). *)
Theorem rebuilt_argument_vector (args : list (string * jsval))
  (arr deps : list jsval) :
  cmdArgs new_URL args = Ok (arr, deps) ->
  arr = argv_of args
  /\ (arr = [] <-> Forall (fun k => get k args = VArr []) (keys args)).
Proof.
  intros H. destruct (reduce_spec _ _ _ _ _ _ H) as (Harr & _).
  cbn in Harr. fold (argv_of args) in Harr. split; [exact Harr |].
  rewrite Harr. apply argv_of_nil.
Qed.

(** X2.  The dependencies collected from the flags form a set: no two of
    them are equal, and every one is a truthy value.  Every non-empty
    string held directly by a [t] or [f] flag is among them. *)
Theorem config_deps_form_a_set (args : list (string * jsval))
  (arr deps : list jsval) :
  cmdArgs new_URL args = Ok (arr, deps) ->
  set_members deps
  /\ Forall (fun d => truthy d = true) deps
  /\ (forall k s,
        In k (keys args) -> k = "t" \/ k = "f" -> get k args = VStr s ->
        s <> EmptyString -> In (VStr s) deps).
Proof.
  intros H. destruct (reduce_spec _ _ _ _ _ _ H) as (_ & Hm & Ht & _).
  split; [apply Hm; constructor |]. split; [apply Ht; constructor |].
  intros k s Hin Hk Hget Hne. unfold cmdArgs in H.
  revert H. generalize (@nil jsval) at 1 as arr0.
  generalize (@nil jsval) as deps0.
  induction (keys args) as [| k0 ks IH]; intros deps0 arr0 H; [destruct Hin |].
  cbn [reduce] in H.
  destruct (reducer new_URL args (arr0, deps0) k0) as [[arr1 deps1] |] eqn:Hr;
    cbn [bind] in H; [| discriminate].
  destruct Hin as [-> | Hin].
  - destruct (reduce_spec _ _ _ _ _ _ H) as (_ & _ & _ & Hkeep).
    apply Hkeep. unfold reducer in Hr. rewrite Hget in Hr.
    unfold push_arg in Hr.
    assert (Hpath : getPathFromArg new_URL k (VStr s) = Ok (VStr s)).
    { destruct Hk as [-> | ->]; reflexivity. }
    rewrite Hpath in Hr. cbn [bind truthy] in Hr.
    destruct (String.eqb_spec s EmptyString); [contradiction |].
    cbn in Hr. injection Hr as _ <-. apply Set_add_string.
  - exact (IH Hin _ _ H).
Qed.

(** X3.  With the file-path variable unset and a readable positional
    list, a failure while the flags are turned into arguments (a [d] value
    that is not a URL, or not a string) is the failure of [getConfig], and
    nothing is executed.  A [d] flag whose value is neither a string nor an
    array always causes such a failure. *)
Theorem argument_error_precedes_execution (templateArgs : string)
  (cmd : jsval) :
  CONFIG_TEMPLATE_ARGS ENV = Some templateArgs ->
  templateArgs <> EmptyString ->
  set_and_not_empty process_env_CONFIG_PATH = false ->
  first_element (get "_" (argsparse templateArgs)) = Ok cmd ->
  let flags := delete "_" (argsparse templateArgs) in
  (forall e, cmdArgs new_URL flags = Throw e -> run = ([], Throw e))
  /\ (In "d" (keys flags) ->
      (forall s, get "d" flags <> VStr s) ->
      (forall l, get "d" flags <> VArr l) ->
      exists e, run = ([], Throw e)).
Proof.
  intros Hargs Hne Hpath Hcmd flags.
  assert (Hthrow : forall e, cmdArgs new_URL flags = Throw e ->
                             run = ([], Throw e)).
  { intros e He. unfold getConfig.
    rewrite (set_and_not_empty_true _ _ Hargs Hne), Hargs, Hpath.
    cbv [io_bind io_ret io_lift io_throw execFileAsync].
    rewrite Hcmd. fold flags. rewrite He. reflexivity. }
  split; [exact Hthrow |].
  intros Hin Hstr Harr.
  assert (Hfail : forall ks st,
            In "d" ks -> exists e, reduce new_URL flags ks st = Throw e).
  { induction ks as [| k ks IH]; intros st Hk; [destruct Hk |].
    cbn. destruct (reducer new_URL flags st k) as [st1 |] eqn:Hr;
      cbn [bind]; [| eauto].
    destruct Hk as [-> | Hk]; [| now apply IH].
    exfalso. unfold reducer in Hr.
    destruct (get "d" flags) eqn:Hd;
      try (destruct st; cbn in Hr; discriminate Hr).
    - now destruct (Hstr s).
    - now destruct (Harr items). }
  destruct (Hfail (keys flags) ([], []) Hin) as [e He].
  exists e. now apply Hthrow.
Qed.

Lemma indexOf_after (alias rest : string) :
  without "=" alias = true ->
  indexOf "=" (alias ++ String "=" rest)
  = Some (String.length alias).
Proof.
  induction alias as [| c alias IH]; intros H; cbn in *; [reflexivity |].
  apply andb_true_iff in H as [Hc Hrest].
  destruct (Ascii.eqb c "="); [discriminate |]. now rewrite (IH Hrest).
Qed.

Lemma substring_from_after (alias rest : string) :
  substring_from (String.length alias + 1) (alias ++ String "=" rest) = rest.
Proof. induction alias as [| c alias IH]; cbn; [reflexivity | exact IH]. Qed.

Lemma indexOf_none (s : string) :
  without "=" s = true -> indexOf "=" s = None.
Proof.
  induction s as [| c s IH]; intros H; cbn in *; [reflexivity |].
  apply andb_true_iff in H as [Hc Hrest].
  destruct (Ascii.eqb c "="); [discriminate |]. now rewrite (IH Hrest).
Qed.

(** X4.  For a [d] value [alias=URL] the URL is all that follows the
    first '=', further '=' included; for a value without '=' the URL is
    the whole value.  The dependency is the pathname of that URL when its
    protocol starts with "file", and none otherwise; a URL that does not
    parse is an error. *)
Theorem d_flag_url_follows_first_equals (alias rest : string) :
  without "=" alias = true ->
  getPathFromArg new_URL "d" (VStr (alias ++ String "=" rest))
  = (curUrl <- new_URL rest ;;
     Ok (if startsWith "file" (protocol curUrl)
         then VStr (pathname curUrl) else VNull))
  /\ getPathFromArg new_URL "d" (VStr alias)
     = (curUrl <- new_URL alias ;;
        Ok (if startsWith "file" (protocol curUrl)
            then VStr (pathname curUrl) else VNull)).
Proof.
  intros H. unfold getPathFromArg. cbn [existsb String.eqb Ascii.eqb Bool.eqb orb].
  rewrite (indexOf_after alias rest H), substring_from_after, (indexOf_none alias H).
  cbn [substring_from]. split.
  - destruct (new_URL rest) as [u |]; cbn; [| reflexivity].
    now destruct (startsWith "file" (protocol u)).
  - destruct (new_URL alias) as [u |]; cbn; [| reflexivity].
    now destruct (startsWith "file" (protocol u)).
Qed.

(** X5.  Whenever the templated-args variable and the file-path variable
    are both set to a non-empty text, [getConfig] fails, whatever the
    flags are, with the conflict error or with the reference error of the
    undefined name, and has neither read a file nor executed a command. *)
Theorem both_variables_set_always_fails (templateArgs configPath : string) :
  CONFIG_TEMPLATE_ARGS ENV = Some templateArgs ->
  templateArgs <> EmptyString ->
  process_env_CONFIG_PATH = Some configPath ->
  configPath <> EmptyString ->
  run = ([], Throw (Error (conflict_message templateArgs)))
  \/ run = ([], Throw (ReferenceError "value")).
Proof.
  intros Hargs Hne Hpath Hpne. unfold getConfig.
  rewrite (set_and_not_empty_true _ _ Hargs Hne), Hargs.
  rewrite (set_and_not_empty_true _ _ Hpath Hpne).
  destruct (truthy (get "f" (argsparse templateArgs)));
    [left | right]; reflexivity.
Qed.

(** X6.  The two modes do not mix.  With the templated-args variable set,
    [getConfig] reads no file and calls [execFile] at most once, as the
    last thing it does, with the first positional token as the command and
    the vector rebuilt from the flags.  Without it, [getConfig] executes
    nothing and reads, in this order, the [.yaml] and then the [.yml] file
    of the path that [CONFIG_PATH] gives without its extension, and
    nothing else; without a [CONFIG_PATH] it reads nothing. *)
Theorem modes_do_not_mix :
  if set_and_not_empty (CONFIG_TEMPLATE_ARGS ENV)
  then
    let args :=
      argsparse
        match CONFIG_TEMPLATE_ARGS ENV with
        | Some s => s
        | None => EmptyString
        end in
    fst run = []
    \/ exists cmd arr deps,
         first_element (get "_" args) = Ok cmd
         /\ cmdArgs new_URL (delete "_" args) = Ok (arr, deps)
         /\ fst run = [ExecFile cmd arr]
  else
    match CONFIG_PATH ENV with
    | None => fst run = []
    | Some p =>
        let curPath := path_join (fst (path_parse p)) (snd (path_parse p)) in
        fst run = [ReadFile (curPath ++ ".yaml")%string]
        \/ fst run = [ReadFile (curPath ++ ".yaml")%string;
                      ReadFile (curPath ++ ".yml")%string]
    end.
Proof.
  unfold getConfig.
  destruct (set_and_not_empty (CONFIG_TEMPLATE_ARGS ENV)).
  - destruct (set_and_not_empty process_env_CONFIG_PATH).
    + destruct (truthy _); now left.
    + cbv [io_bind io_ret io_lift io_throw execFileAsync].
      destruct (first_element _) as [cmd |]; [| now left].
      destruct (cmdArgs new_URL _) as [[arr deps] |]; [| now left].
      destruct arr as [| a arr]; cbn [is_nil]; [now left |].
      right. exists cmd, (a :: arr), deps.
      split; [reflexivity |]. split; [reflexivity |].
      now destruct (execFile cmd (a :: arr)).
  - destruct (CONFIG_PATH ENV) as [p |]; [| reflexivity].
    destruct (path_parse p) as [dir name]. cbn [fst snd].
    cbv [io_bind io_ret io_throw io_catch fs_readFile].
    destruct (readFile (path_join dir name ++ ".yaml")) as [c | e].
    + right. now destruct (readFile (path_join dir name ++ ".yml")).
    + destruct (negb (strict_eq (code e) (VStr "ENOENT"))); [now left |].
      right. now destruct (readFile (path_join dir name ++ ".yml")).
Qed.


End MoreAcquisition.

(** ** Templates *)

















(** A placeholder that is a reserved word and not an expression, or a
    name directly after a number: the function cannot be compiled, and
    [template] throws, in [mapFile] too. *)
Example reserved_word_placeholder_is_refused :
  Lodash.template (VStr "out-[if].txt") templateInterpolateReg
  = Throw (SyntaxError "Unexpected token")
  /\ Lodash.template (VStr "out-[0abc].txt") templateInterpolateReg
     = Throw (SyntaxError "Unexpected token")
  /\ Lodash.template (VStr "out-[this]-[42].txt") templateInterpolateReg
     = Ok (VTemplate [Lit "out-"; Interp "this"; Lit "-"; Interp "42";
                      Lit ".txt"])
  /\ mapFile
       (VObj [("input_path", VStr "in.tpl");
              ("output_path", VStr "out-[if].txt")])
     = Throw (SyntaxError "Unexpected token").
Proof. repeat split; reflexivity. Qed.

(** ** Validation, once more *)

Section MoreValidation.

Variable JSON_parse : string -> option jsval.
Variable uri_regex : string -> bool.
Variable new_URL : string -> result url.
Variable YAML_parse : string -> result jsval.

Local Abbreviation V := (Joi._validate JSON_parse uri_regex validate_options).
Arguments Joi._validate : simpl never.
Local Abbreviation children_of c :=
  (map (fun kc : string * Joi.schema => (fst kc, V (snd kc))) c).
Local Abbreviation parse :=
  (parseConfig JSON_parse uri_regex new_URL YAML_parse).

(** *** Commands *)

(** An array schema without [items] keeps every defined element. *)
Lemma checkItems_any (path : list jsval) :
  forall items i,
    Forall (fun v => v <> VUndefined) items ->
    Joi.checkItems validate_options
      (@nil (list jsval -> jsval -> result Joi.outcome)) true path i items
    = Ok (items, []).
Proof.
  induction items as [| item rest IH]; intros i Hall; [reflexivity |].
  inversion Hall as [| ? ? Hdef Hrest]; subst.
  cbn [Joi.checkItems]. rewrite (IH (S i) Hrest).
  destruct item; try contradiction; reflexivity.
Qed.

Lemma command_accepted (path : list jsval) (cmd : list jsval) :
  cmd <> [] ->
  Forall (fun v => v <> VUndefined) cmd ->
  V onChangeCmdSchema path (VArr cmd) = Ok (VArr cmd, []).
Proof.
  intros Hne Hall. unfold onChangeCmdSchema, Joi.min, Joi.array_.
  rewrite validate_array. cbn [Joi.presence map].
  unfold Joi.array_base. cbn [Joi.safeParse_array].
  rewrite (checkItems_any path cmd 0 Hall).
  destruct cmd; [contradiction | reflexivity].
Qed.

(** X10.  The two ways of writing [on_change] agree: a non-empty command
    list [cmd] and the object [{command: cmd}] are both accepted, and
    after [mapOnChange] both are the object with that command, [stdout]
    false and [stderr] true; [mapOnChange] leaves that object as it is. *)
Theorem on_change_forms_agree (path : list jsval) (cmd : list jsval) :
  cmd <> [] ->
  Forall (fun v => v <> VUndefined) cmd ->
  let canonical :=
    VObj [("command", VArr cmd); ("stdout", VBool false);
          ("stderr", VBool true)] in
  exists list_form object_form,
    V onChangeSchema path (VArr cmd) = Ok (list_form, [])
    /\ V onChangeSchema path (VObj [("command", VArr cmd)])
       = Ok (object_form, [])
    /\ mapOnChange list_form = canonical
    /\ mapOnChange object_form = canonical
    /\ mapOnChange canonical = canonical.
Proof.
  intros Hne Hall canonical. exists (VArr cmd), canonical.
  split; [| split; [| repeat split]].
  - unfold onChangeSchema, Joi.alternatives_try.
    rewrite validate_alternatives.
    cbn [Joi.presence map Joi.alternatives_base Joi.try_matches].
    rewrite (command_accepted path cmd Hne Hall). reflexivity.
  - unfold onChangeSchema, Joi.alternatives_try, Joi.object_.
    rewrite validate_alternatives.
    cbn [Joi.presence map Joi.alternatives_base Joi.try_matches].
    replace (V onChangeCmdSchema path (VObj [("command", VArr cmd)]))
      with (Ok (VObj [("command", VArr cmd)], [Joi.err path "array.base"])
            : result Joi.outcome) by reflexivity.
    cbn [bind is_nil]. rewrite validate_object.
    cbn [Joi.presence map fst snd]. unfold Joi.object_base.
    cbn [Joi.safeParse_object Joi.validate_children get lookup String.eqb
         Ascii.eqb Bool.eqb].
    rewrite (command_accepted _ cmd Hne Hall). cbn [bind is_nil].
    reflexivity.
Qed.

(** One key of an object schema whose value is accepted. *)
Lemma validate_children_step (key : string) (child : Joi.validator)
  (rest : list (string * Joi.validator)) (path : list jsval)
  (target : list (string * jsval)) (v : jsval) :
  child (path ++ [VStr key]) (get key target) = Ok (v, []) ->
  Joi.validate_children validate_options ((key, child) :: rest) path target
  = Joi.validate_children validate_options rest path
      (match v with VUndefined => target | _ => set key v target end).
Proof. intros H. cbn [Joi.validate_children]. now rewrite H. Qed.

(** One key whose value is refused: the other keys are still looked at. *)
Lemma validate_children_step_error (key : string) (child : Joi.validator)
  (rest : list (string * Joi.validator)) (path : list jsval)
  (target : list (string * jsval)) (v : jsval) (d : detail)
  (e : list detail) :
  child (path ++ [VStr key]) (get key target) = Ok (v, d :: e) ->
  Joi.validate_children validate_options ((key, child) :: rest) path target
  = ('(target', errors') <-
       Joi.validate_children validate_options rest path target ;;
     Ok (target', (d :: e) ++ errors')).
Proof. intros H. cbn [Joi.validate_children]. now rewrite H. Qed.

(** *** Entries in short form *)


Lemma uri_checked path u :
  u <> EmptyString ->
  V (Joi.string_ .> Joi.uri .> Joi.required) path (VStr u)
  = Ok (VStr u, if uri_regex u then [] else [Joi.err path "string.uri"]).
Proof.
  intros Hne. unfold Joi.required, Joi.uri, Joi.string_.
  cbn [Joi.with_flags Joi.schema_flags app]. rewrite validate_string.
  destruct u as [| c u]; [contradiction |].
  cbn [Joi.presence Joi.run_tests Joi.string_test bind app].
  now destruct (uri_regex (String c u)).
Qed.



Lemma data_source_object_checked path u :
  u <> EmptyString ->
  V DataSourceSchema path (VObj [("url", VStr u)])
  = Ok (VObj [("url", VStr u)],
        if uri_regex u then []
        else [Joi.err path "string.base";
              Joi.err (path ++ [VStr "url"]) "string.uri"]).
Proof.
  intros Hne. unfold DataSourceSchema, Joi.alternatives_try, Joi.object_.
  rewrite validate_alternatives.
  cbn [Joi.presence map Joi.alternatives_base Joi.try_matches].
  replace (V (Joi.string_ .> Joi.required) path (VObj [("url", VStr u)]))
    with (Ok (VObj [("url", VStr u)], [Joi.err path "string.base"])
          : result Joi.outcome) by reflexivity.
  cbn [bind is_nil]. rewrite validate_object.
  cbn [Joi.presence map fst snd]. unfold Joi.object_base.
  cbn [Joi.safeParse_object].
  pose proof (uri_checked (path ++ [VStr "url"]) u Hne) as Hurl.
  destruct (uri_regex u).
  - rewrite (validate_children_step "url" _ _ path _ (VStr u)) by exact Hurl.
    rewrite (validate_children_step "alias" _ _ path _ VUndefined)
      by reflexivity.
    rewrite (validate_children_step "on_change" _ _ path _ VUndefined)
      by reflexivity.
    rewrite (validate_children_step "args" _ _ path _ VUndefined)
      by reflexivity.
    reflexivity.
  - rewrite (validate_children_step_error "url" _ _ path _ (VStr u) _ [])
      by exact Hurl.
    rewrite (validate_children_step "alias" _ _ path _ VUndefined)
      by reflexivity.
    rewrite (validate_children_step "on_change" _ _ path _ VUndefined)
      by reflexivity.
    rewrite (validate_children_step "args" _ _ path _ VUndefined)
      by reflexivity.
    reflexivity.
Qed.


(** X12.  The [uri] rule guards the [url] key of the object form only.  A
    data source written as a bare string is accepted whatever the
    (non-empty) string is, while the object form with the same string as
    [url] is rejected when the string is not a URI.  When [new URL] then
    rejects the bare string, the error of [parseConfig] is that of
    [new URL], not a [ValidationError]. *)
Theorem shorthand_url_is_not_checked (path : list jsval) (u : string) :
  u <> EmptyString ->
  uri_regex u = false ->
  V DataSourceSchema path (VStr u) = Ok (VStr u, [])
  /\ rejected JSON_parse uri_regex DataSourceSchema path
       (VObj [("url", VStr u)])
  /\ forall e conf,
       new_URL u = Throw e ->
       YAML_parse conf = Ok (VObj [("datasources", VArr [VStr u])]) ->
       parse conf = Throw e.
Proof.
  intros Hne Huri.
  split; [exact (entry_string JSON_parse uri_regex _ path u Hne) |]. split.
  - unfold rejected. rewrite (data_source_object_checked path u Hne), Huri.
    eauto.
  - intros e conf He Hyaml. unfold parseConfig. rewrite Hyaml. cbn [bind].
    destruct u as [| c u]; [contradiction |].
    replace (Joi.validate JSON_parse uri_regex validate_options ConfigSchema
               (VObj [("datasources", VArr [VStr (String c u)])]))
      with (Ok (VArr [VObj [("datasources", VArr [VStr (String c u)]);
                            ("watch", VBool false);
                            ("dependencies", VArr []);
                            ("templates", VArr []);
                            ("files", VArr [])]], None)
            : result (jsval * option exn)) by reflexivity.
    cbn [bind array_map map_result]. unfold normalize_item.
    unfold map_on_change.
    cbn [get lookup String.eqb Ascii.eqb Bool.eqb truthy array_map map_result
         bind].
    unfold mapDataSource at 1.
    cbn [bind set String.eqb Ascii.eqb Bool.eqb]. unfold map_on_change.
    cbn [get lookup String.eqb Ascii.eqb Bool.eqb truthy URL_of].
    rewrite He. reflexivity.
Qed.

(** *** Items *)

Lemma lookup_filter_known (p : string -> bool) (k : string)
  (o : list (string * jsval)) :
  lookup k (filter (fun kv => p (fst kv)) o) <> None -> p k = true.
Proof.
  intros H. destruct (p k) eqn:E; [reflexivity |].
  now rewrite lookup_filter_dropped in H.
Qed.

Lemma watch_accepted path x v :
  V (Joi.boolean_ .> Joi.default (VBool false)) path x = Ok (v, []) ->
  exists b, v = VBool b /\ (x = VUndefined -> b = false).
Proof.
  unfold Joi.default, Joi.boolean_. cbn [Joi.with_flags Joi.schema_flags].
  rewrite validate_boolean.
  destruct x as [| | b | n | s | l | o | t]; cbn;
    try discriminate; intros H.
  - injection H as <-. exists false. now split.
  - injection H as <-. exists b. split; [reflexivity | discriminate].
  - revert H. unfold Joi.boolean_base.
    destruct (toLowerCase s =? "true"); cbn.
    + intros H. injection H as <-. exists true.
      split; [reflexivity | discriminate].
    + destruct (toLowerCase s =? "false"); cbn; [| discriminate].
      intros H. injection H as <-. exists false.
      split; [reflexivity | discriminate].
Qed.

Lemma list_accepted single_flag inclusions tests path x v :
  V (Joi.SArray {| Joi.presence_required := false;
                   Joi.default_value := Some (VArr []) |}
       single_flag inclusions tests) path x = Ok (v, []) ->
  exists l, v = VArr l /\ (x = VUndefined -> l = []).
Proof.
  rewrite validate_array.
  assert (Hx : x = VUndefined \/ x <> VUndefined)
    by (destruct x; (now left) || (right; discriminate)).
  destruct Hx as [-> | Hdef].
  - cbn. intros H. injection H as <-. now exists [].
  - rewrite presence_defined by exact Hdef.
    destruct (Joi.array_base JSON_parse validate_options _ single_flag path x)
      as [[v0 e0] |] eqn:Hbase; cbn [bind]; [| discriminate].
    destruct e0 as [| d e0]; cbn [is_nil].
    + destruct (array_base_success _ _ _ _ _ _ Hbase) as [l ->].
      destruct (Joi.run_tests validate_options (Joi.array_test path l) tests)
        as [errors' |]; cbn [bind]; [| discriminate].
      intros H. destruct (finalize_ok _ _ _ _ _ H) as [_ Hv].
      exists l. split; [apply Hv; discriminate | contradiction].
    + intros H. destruct (finalize_ok _ _ _ _ _ H) as [Habs _].
      discriminate Habs.
Qed.

(** The keys of an accepted item, one by one. *)
Lemma item_accepted path v v' :
  v <> VUndefined ->
  V ConfigItemSchema path v = Ok (v', []) ->
  exists o o',
    Joi.safeParse_object JSON_parse v = VObj o
    /\ v' = VObj o'
    /\ (forall k, lookup k o' <> None -> In k item_keys)
    /\ (exists b, get "watch" o' = VBool b
                  /\ (get "watch" o = VUndefined -> b = false))
    /\ (forall k, In k list_keys ->
          exists l, get k o' = VArr l /\ (get k o = VUndefined -> l = [])).
Proof.
  intros Hdef. unfold ConfigItemSchema, Joi.object_.
  rewrite validate_object, presence_defined by exact Hdef.
  destruct (Joi.object_base JSON_parse validate_options _ path v)
    as [[v0 e0] |] eqn:Hbase; cbn [bind]; [| discriminate].
  intros H. destruct (finalize_ok _ _ _ _ _ H) as [-> Hv].
  destruct (object_base_spec _ _ _ _ _ _ _ Hbase)
    as [(o & target & Ho & Hch & ->) | (_ & Hbad)]; [| discriminate Hbad].
  rewrite Hv by discriminate. clear Hv H Hbase.
  match type of Hch with
  | Joi.validate_children _ ?c _ _ = _ =>
      set (children := c) in *;
      assert (Hnd : NoDup (map fst children))
        by (cbn; repeat constructor; cbn; intuition discriminate);
      destruct (validate_children_spec children path Hnd _ _ _ Hch)
        as (Hall & _)
  end.
  rewrite Forall_forall in Hall.
  assert (Hkey : forall k s,
            In (k, V s) children ->
            exists x,
              V s (path ++ [VStr k]) (get k o) = Ok (x, [])
              /\ get k target
                 = match x with VUndefined => get k o | _ => x end).
  { intros k s Hin. destruct (Hall _ Hin) as (x & e & Hx & Hincl & Hget).
    cbn [fst snd] in *.
    assert (He : e = []).
    { destruct e as [| d e]; [reflexivity |]. destruct (Hincl d). now left. }
    subst e. exists x. split; [exact Hx | exact (Hget eq_refl)]. }
  exists o. eexists. split; [exact Ho |].
  split; [reflexivity |]. split; [| split].
  - intros k Hk. apply lookup_filter_known in Hk.
    apply (is_child_keys JSON_parse uri_regex) in Hk. exact Hk.
  - destruct (Hkey "watch" (Joi.boolean_ .> Joi.default (VBool false)))
      as (x & Hx & Hget); [unfold children; cbn; tauto |].
    destruct (watch_accepted _ _ _ Hx) as (b & -> & Hb).
    exists b. split; [| exact Hb].
    unfold get at 1. rewrite lookup_filter_kept by reflexivity. exact Hget.
  - intros k Hk.
    assert (Hlist :
      exists single_flag inclusions tests,
        In (k, V (Joi.SArray {| Joi.presence_required := false;
                                Joi.default_value := Some (VArr []) |}
                    single_flag inclusions tests)) children
        /\ Joi.is_child children k = true).
    { cbn in Hk. unfold children.
      destruct Hk as [<- | [<- | [<- | [<- | []]]]];
        do 3 eexists; (split; [cbn; tauto | reflexivity]). }
    destruct Hlist as (sg & incl & tests & Hin & Hchild).
    destruct (Hkey _ _ Hin) as (x & Hx & Hget).
    destruct (list_accepted _ _ _ _ _ _ Hx) as (l & -> & Hl).
    exists l. split; [| exact Hl].
    unfold get at 1. rewrite lookup_filter_kept by exact Hchild. exact Hget.
Qed.

Lemma item_validated :
  accepts_only JSON_parse uri_regex ConfigItemSchema validated_item.
Proof.
  intros path v v' Hdef Hv.
  destruct (item_accepted path v v' Hdef Hv)
    as (o & o' & _ & -> & Hkeys & (b & Hb & _) & Hlists).
  exists o'. repeat split; eauto.
  intros k Hk. destruct (Hlists k Hk) as (l & Hl & _). eauto.
Qed.

(** X13.  An accepted item comes out of validation with the keys of the
    schema only, with [watch] false when it was absent, and with the empty
    list for each of [dependencies], [templates], [datasources] and
    [files] that was absent. *)
Theorem absent_keys_take_defaults (path : list jsval)
  (o : list (string * jsval)) (v' : jsval) :
  V ConfigItemSchema path (VObj o) = Ok (v', []) ->
  exists o',
    v' = VObj o'
    /\ (forall k, lookup k o' <> None -> In k item_keys)
    /\ (get "watch" o = VUndefined -> get "watch" o' = VBool false)
    /\ (forall k, In k list_keys ->
          get k o = VUndefined -> get k o' = VArr []).
Proof.
  intros Hv.
  destruct (item_accepted path (VObj o) v' ltac:(discriminate) Hv)
    as (o0 & o' & Ho & -> & Hkeys & (b & Hb & Hfalse) & Hlists).
  cbn in Ho. injection Ho as <-.
  exists o'. split; [reflexivity |]. split; [exact Hkeys |]. split.
  - intros Habsent. now rewrite Hb, (Hfalse Habsent).
  - intros k Hk Habsent. destruct (Hlists k Hk) as (l & Hl & Hnil).
    now rewrite Hl, (Hnil Habsent).
Qed.

(** *** The whole document *)

Lemma checkItems_Forall2 (inclusion : Joi.validator) wasArray path :
  forall items i out,
    Joi.checkItems validate_options [inclusion] wasArray path i items
    = Ok (out, []) ->
    Forall2 (fun d v => exists p, inclusion p d = Ok (v, [])) items out.
Proof.
  induction items as [| item rest IH]; intros i out H.
  - cbn in H. injection H as <-. constructor.
  - cbn [Joi.checkItems] in H.
    destruct (Joi.check_item validate_options [inclusion] _ item)
      as [[r e] |] eqn:Hitem; cbn [bind] in H; [| discriminate].
    cbn [Joi.abortEarly validate_options andb] in H.
    destruct (check_item_cases _ _ _ _ _ Hitem)
      as [(_ & -> & ->) | (_ & v & Hv & ->)].
    + destruct (Joi.checkItems validate_options [inclusion] wasArray path
                  (S i) rest) as [[rest' e'] |]; cbn in H; discriminate H.
    + destruct (Joi.checkItems validate_options [inclusion] wasArray path
                  (S i) rest) as [[rest' e'] |] eqn:Hrest; cbn [bind] in H;
        [| discriminate].
      injection H as <- He. apply app_eq_nil in He as [-> ->].
      constructor; [eauto | exact (IH _ _ Hrest)].
Qed.

(** The accepted document, item by item. *)
Lemma config_accepted raw value :
  raw <> VUndefined ->
  V ConfigSchema [] raw = Ok (value, []) ->
  exists l,
    value = VArr l
    /\ l <> []
    /\ Forall2 (fun d v => exists p, V ConfigItemSchema p d = Ok (v, []))
         (document_items JSON_parse raw) l.
Proof.
  intros Hdef. unfold ConfigSchema, Joi.min, Joi.single, Joi.items, Joi.array_.
  cbn [app]. rewrite validate_array, presence_defined by exact Hdef.
  cbn [map]. unfold Joi.array_base, document_items.
  assert (Hmin : forall l v e,
            (errors' <-
               Joi.run_tests validate_options (Joi.array_test [] l)
                 [Joi.rule_min 1] ;;
             Ok (Joi.finalize Joi.optional (VArr l) errors'))
            = Ok (v, e) ->
            e = [] -> v = VArr l /\ l <> []).
  { intros l v e H ->. destruct l; cbn in H; [discriminate H |].
    injection H as <-. split; [reflexivity | discriminate]. }
  destruct (Joi.safeParse_array JSON_parse raw)
    as [| | b | n | str | items | props | t] eqn:Hparse.
  6: { destruct (Joi.checkItems validate_options [V ConfigItemSchema] true []
                   0 items) as [[l1 e1] |] eqn:Hci; cbn [bind];
         [| discriminate].
       destruct e1 as [| d e1]; cbn [is_nil bind].
       - intros H. destruct (Hmin _ _ _ H eq_refl) as [-> Hne].
         exists l1. repeat split; [exact Hne |].
         exact (checkItems_Forall2 _ _ _ _ _ _ Hci).
       - cbn [Joi.checkItems]. rewrite check_item_single.
         replace (V ConfigItemSchema ([] ++ [Joi.index 0]) (VArr l1))
           with (Ok (VArr l1, [Joi.err ([] ++ [Joi.index 0]) "object.base"])
                 : result Joi.outcome) by reflexivity.
         cbn. discriminate. }
  all: destruct (Joi.checkItems validate_options [V ConfigItemSchema] false []
                   0 _) as [[l1 e1] |] eqn:Hci; cbn [bind]; [| discriminate];
    destruct e1 as [| d e1]; cbn [is_nil bind];
    [| intros H; destruct (finalize_ok _ _ _ _ _ H) as [Habs _];
       discriminate Habs];
    intros H; destruct (Hmin _ _ _ H eq_refl) as [-> Hne];
    exists l1; repeat split; [exact Hne |];
    exact (checkItems_Forall2 _ _ _ _ _ _ Hci).
Qed.

(** *** Lists of entries *)

Lemma existsb_same_fields (field : string) (item item' : jsval) :
  field_of field item = field_of field item' ->
  forall records records',
    Forall2 (fun d v => field_of field d = field_of field v) records records' ->
    existsb (fun r => strict_eq (field_of field r) (field_of field item))
      records
    = existsb (fun r => strict_eq (field_of field r) (field_of field item'))
        records'.
Proof.
  intros Hitem. induction 1 as [| r r' records records' Hr _ IH];
    [reflexivity |].
  cbn [existsb]. now rewrite IH, Hr, Hitem.
Qed.

(** The position that [unique] reports depends on the fields only. *)
Lemma duplicate_position_same_fields (field : string) :
  forall value value' records records' i,
    Forall2 (fun d v => field_of field d = field_of field v) records records' ->
    Forall2 (fun d v => field_of field d = field_of field v) value value' ->
    duplicate_position field records i value
    = duplicate_position field records' i value'.
Proof.
  intros value value' records records' i Hrec Hval. revert records records' i Hrec.
  induction Hval as [| x x' value value' Hx _ IH]; intros records records' i Hrec;
    [reflexivity |].
  cbn [duplicate_position].
  rewrite (existsb_same_fields field x x' Hx records records' Hrec).
  destruct (existsb _ records'); [reflexivity |].
  apply IH. apply Forall2_app; [exact Hrec | now constructor].
Qed.

Lemma duplicate_position_distinct (field : string) :
  forall value records i,
    (forall r x, In r records -> In x value ->
       strict_eq (field_of field r) (field_of field x) = false) ->
    distinct_on field value ->
    duplicate_position field records i value = None.
Proof.
  induction value as [| item rest IH]; intros records i Hcross Hdist;
    [reflexivity |].
  cbn [duplicate_position].
  assert (Hnone :
    existsb (fun r => strict_eq (field_of field r) (field_of field item))
      records = false).
  { destruct (existsb _ records) eqn:E; [| reflexivity].
    apply existsb_exists in E as (r & Hr & Heq).
    rewrite (Hcross r item Hr (or_introl eq_refl)) in Heq. discriminate Heq. }
  rewrite Hnone. apply IH.
  - intros r x Hr Hx. apply in_app_or in Hr as [Hr | [<- | []]].
    + apply Hcross; [exact Hr | now right].
    + apply In_nth_error in Hx as [n Hn].
      exact (Hdist 0 (S n) item x (Nat.lt_0_succ n) eq_refl Hn).
  - intros a b x y Hab Ha Hb.
    apply (Hdist (S a) (S b) x y); [lia | exact Ha | exact Hb].
Qed.

Lemma string_field_kept f tests path x x' :
  Joi.default_value f = None ->
  V (Joi.SString f tests) path x = Ok (x', []) ->
  x' = x.
Proof.
  intros Hdefault. rewrite validate_string.
  unfold Joi.presence, Joi.finalize. rewrite Hdefault.
  destruct x; try (destruct (Joi.presence_required f));
    cbn; try (intros H; injection H as <-; reflexivity);
    try discriminate.
  - destruct (Joi.run_tests validate_options
                (Joi.string_test uri_regex path s) tests); cbn;
      [| discriminate].
    intros H. now injection H.
  - destruct (Joi.run_tests validate_options
                (Joi.string_test uri_regex path s) tests); cbn;
      [| discriminate].
    intros H. now injection H.
Qed.

Lemma is_child_in (children : list (string * Joi.schema)) (k : string)
  (s : Joi.schema) :
  In (k, s) children -> Joi.is_child (children_of children) k = true.
Proof.
  intros Hin. unfold Joi.is_child. apply existsb_exists.
  exists (k, V s). split; [| apply String.eqb_refl].
  apply in_map_iff. now exists (k, s).
Qed.

(** A validated entry has the identifying field of the entry as written. *)
Lemma entry_field_kept children field f tests path d v :
  JSON_parse EmptyString = None ->
  NoDup (map fst children) ->
  In (field, Joi.SString f tests) children ->
  Joi.default_value f = None ->
  d <> VUndefined ->
  V (entry_schema children) path d = Ok (v, []) ->
  field_of field d = field_of field v.
Proof.
  intros Hjson Hnd Hin Hdefault Hdef Hv.
  destruct d as [| | b | n | s | l | o | t]; try contradiction.
  6: { destruct (object_entry_children JSON_parse uri_regex _ _ _ _ Hnd Hv)
         as (target & -> & Hkeys).
       destruct (Hkeys _ _ Hin) as (x & Hx & Hget).
       rewrite (string_field_kept _ _ _ _ _ Hdefault Hx) in Hget.
       cbn [field_of]. unfold get at 2.
       rewrite lookup_filter_kept by exact (is_child_in _ _ _ Hin).
       fold (get field target). rewrite Hget.
       now destruct (get field o). }
  4: { destruct s as [| c s].
       - destruct (entry_accepted_cases JSON_parse uri_regex _ _ _ _ Hdef Hv)
           as [(s & Hs & _ & Hne) | (o & _ & Hparse & _)].
         + injection Hs as <-. contradiction.
         + cbn in Hparse. rewrite Hjson in Hparse. discriminate Hparse.
       - rewrite (entry_string JSON_parse uri_regex children path (String c s))
           in Hv by discriminate.
         now injection Hv as <-. }
  all: destruct (entry_accepted_cases JSON_parse uri_regex _ _ _ _ Hdef Hv)
         as [(s & Hs & _) | (o & _ & Hparse & _)];
    [discriminate Hs | discriminate Hparse].
Qed.

Lemma list_field_checked children field f tests path ds :
  JSON_parse EmptyString = None ->
  NoDup (map fst children) ->
  In (field, Joi.SString f tests) children ->
  Joi.default_value f = None ->
  Forall (fun d => d <> VUndefined
                   /\ accepted JSON_parse uri_regex (entry_schema children) d)
    ds ->
  exists out,
    V (list_field (entry_schema children) field) path (VArr ds)
    = Ok (VArr out,
          match duplicate_position field [] 0 ds with
          | Some p => [Joi.err (path ++ [Joi.index p]) "array.unique"]
          | None => []
          end).
Proof.
  intros Hjson Hnd Hin Hdefault Hall.
  destruct (checkItems_all_accepted JSON_parse uri_regex
              (entry_schema children) path ds 0 Hall) as [out Hci].
  pose proof (checkItems_Forall2 _ _ _ _ _ _ Hci) as Hrel.
  assert (Hshape : Forall str_or_obj out).
  { eapply checkItems_accepted; [| exact Hci].
    intros p0 v v' Hdef Hv.
    eapply entry_shape_str_or_obj.
    eapply (entry_accepts_only JSON_parse uri_regex); eauto. }
  assert (Hfields :
    Forall2 (fun d v => field_of field d = field_of field v) ds out).
  { clear Hci Hshape. induction Hrel as [| d v ds out (p & Hv) _ IH];
      [constructor |].
    inversion Hall as [| ? ? [Hdef _] Hrest]; subst.
    constructor; [| exact (IH Hrest)].
    exact (entry_field_kept _ _ _ _ _ _ _ Hjson Hnd Hin Hdefault Hdef Hv). }
  exists out. unfold list_field. rewrite validate_array.
  rewrite presence_defined by discriminate.
  unfold Joi.array_base. cbn [map Joi.safeParse_array]. rewrite Hci.
  cbn [bind is_nil Joi.run_tests Joi.array_test].
  rewrite (first_duplicate_spec field out [] 0 (Forall_nil _) Hshape).
  rewrite <- (duplicate_position_same_fields field ds out [] [] 0
                (Forall2_nil _) Hfields).
  cbn [bind]. now destruct (duplicate_position field [] 0 ds).
Qed.

(** X17.  For each list of an item ([dependencies], [templates],
    [datasources], [files]) whose entries are each acceptable: the list is
    accepted exactly when no two entries have the same identifying field
    ([path], [url], [input_path]), an entry in short form counting as its
    field; otherwise the one error is [array.unique] at the first entry
    that repeats the field of an earlier one.  (The empty text is taken
    not to be JSON, as it is for [JSON.parse].) *)
Theorem unique_lists_accept_distinct_entries (k : string)
  (entry : Joi.schema) (field : string) (path : list jsval)
  (ds : list jsval) :
  In (k, entry, field) list_fields ->
  JSON_parse EmptyString = None ->
  Forall (fun d => d <> VUndefined /\ accepted JSON_parse uri_regex entry d)
    ds ->
  (exists children,
      ConfigItemSchema = Joi.object_ children
      /\ In (k, list_field entry field) children)
  /\ (exists out,
        V (list_field entry field) path (VArr ds)
        = Ok (VArr out,
              match duplicate_position field [] 0 ds with
              | Some p => [Joi.err (path ++ [Joi.index p]) "array.unique"]
              | None => []
              end))
  /\ (duplicate_position field [] 0 ds = None <-> distinct_on field ds).
Proof.
  intros Hk Hjson Hall. split; [| split].
  - eexists. split; [reflexivity |].
    cbn in Hk. destruct Hk as [H | [H | [H | [H | []]]]];
      injection H as <- <- <-; cbn; tauto.
  - cbn in Hk. destruct Hk as [H | [H | [H | [H | []]]]];
      injection H as <- <- <-.
    + refine (list_field_checked
                [ ("path", Joi.string_ .> Joi.required);
                  ("on_change", onChangeSchema);
                  ("args", argsSchema) ]
                "path" required_flags [] path ds Hjson _ _ eq_refl Hall);
        [cbn; repeat constructor; cbn; intuition discriminate
        | left; reflexivity].
    + refine (list_field_checked
                [ ("path", Joi.string_ .> Joi.required);
                  ("on_change", onChangeSchema);
                  ("args", argsSchema) ]
                "path" required_flags [] path ds Hjson _ _ eq_refl Hall);
        [cbn; repeat constructor; cbn; intuition discriminate
        | left; reflexivity].
    + refine (list_field_checked
                [ ("url", Joi.string_ .> Joi.uri .> Joi.required);
                  ("alias", Joi.string_ .> Joi.alphanum);
                  ("on_change", onChangeSchema);
                  ("args", argsSchema) ]
                "url" required_flags [Joi.rule_uri] path ds Hjson
                DataSourceSchema_keys _ eq_refl Hall).
      left; reflexivity.
    + refine (list_field_checked
                [ ("left_delimiter", Joi.string_);
                  ("right_delimiter", Joi.string_);
                  ("input_path", Joi.string_ .> Joi.required);
                  ("output_path", Joi.string_);
                  ("on_change", onChangeSchema);
                  ("args", argsSchema) ]
                "input_path" required_flags [] path ds Hjson _ _ eq_refl
                Hall);
        [cbn; repeat constructor; cbn; intuition discriminate
        | right; right; left; reflexivity].
  - split.
    + intros Hnone a b x y Hab Ha Hb.
      exact (proj2 (duplicate_position_none field ds [] 0 Hnone)
               a b x y Hab Ha Hb).
    + intros Hdist. apply duplicate_position_distinct; [| exact Hdist].
      intros r x [].
Qed.

(** *** Keys that the schema does not know *)

(** The keys of an object schema are validated on their own values: two
    objects that agree on a set of keys holding those of the schema get
    the same errors, and agree on that set afterwards. *)
Lemma validate_children_same_keys (K : string -> Prop)
  (path : list jsval) :
  forall (children : list (string * Joi.validator)) t1 t2,
    (forall k, K k -> get k t1 = get k t2) ->
    (forall k, In k (map fst children) -> K k) ->
    match Joi.validate_children validate_options children path t1,
          Joi.validate_children validate_options children path t2 with
    | Ok (t1', e1), Ok (t2', e2) =>
        e1 = e2 /\ forall k, K k -> get k t1' = get k t2'
    | Throw a, Throw b => a = b
    | _, _ => False
    end.
Proof.
  induction children as [| [key child] rest IH]; intros t1 t2 Hagree HK.
  - cbn. split; [reflexivity | exact Hagree].
  - cbn [Joi.validate_children].
    rewrite (Hagree key) by (apply HK; now left).
    destruct (child (path ++ [VStr key]) (get key t2)) as [[v e] | err];
      cbn [bind]; [| reflexivity].
    assert (HK' : forall k, In k (map fst rest) -> K k)
      by (intros k Hk; apply HK; now right).
    destruct e as [| d e]; cbn [is_nil Joi.abortEarly validate_options].
    + apply IH; [| exact HK'].
      intros k Hk. destruct v; try (now apply Hagree);
        (destruct (String.eqb_spec k key) as [-> | Hne];
         [now rewrite !get_set_same
         | rewrite !get_set_other by exact Hne; now apply Hagree]).
    + specialize (IH t1 t2 Hagree HK').
      destruct (Joi.validate_children validate_options rest path t1)
        as [[t1' e1] |];
        destruct (Joi.validate_children validate_options rest path t2)
          as [[t2' e2] |]; cbn [bind]; try contradiction; [| exact IH].
      destruct IH as [-> Hk]. split; [reflexivity | exact Hk].
Qed.

(** X18.  Validation of an item looks at the keys of the schema only:
    two items that agree on those keys get the same errors and the same
    validated item.  A key that the schema does not know is dropped
    without an error, although [allowUnknown] is off. *)
Theorem unknown_keys_are_ignored (path : list jsval)
  (o1 o2 : list (string * jsval)) :
  (forall k, In k item_keys -> get k o1 = get k o2) ->
  exists o1' o2' errors,
    V ConfigItemSchema path (VObj o1) = Ok (VObj o1', errors)
    /\ V ConfigItemSchema path (VObj o2) = Ok (VObj o2', errors)
    /\ (forall k, get k o1' = get k o2')
    /\ (forall k, lookup k o1' <> None -> In k item_keys).
Proof.
  intros Hagree.
  destruct (total_ConfigItemSchema JSON_parse uri_regex path (VObj o1))
    as [out1 Hout1].
  destruct (total_ConfigItemSchema JSON_parse uri_regex path (VObj o2))
    as [out2 Hout2].
  revert Hout1 Hout2. unfold ConfigItemSchema, Joi.object_.
  rewrite !validate_object, !presence_defined by discriminate.
  unfold Joi.object_base. cbn [Joi.safeParse_object].
  match goal with
  | |- context [Joi.validate_children _ ?c _ o1] => set (children := c)
  end.
  assert (HK : forall k, In k (map fst children) -> In k item_keys)
    by (intros k Hk; exact Hk).
  pose proof (validate_children_same_keys (fun k => In k item_keys) path
                children o1 o2 Hagree HK) as Hsame.
  destruct (Joi.validate_children validate_options children path o1)
    as [[t1 e1] |]; [| discriminate].
  destruct (Joi.validate_children validate_options children path o2)
    as [[t2 e2] |]; [| discriminate].
  destruct Hsame as [<- Hkeys]. intros _ _.
  cbn [bind Joi.abortEarly validate_options andb Joi.objects Joi.stripUnknown
       Joi.finalize].
  do 3 eexists. split; [reflexivity |]. split; [reflexivity |]. split.
  - intros k. unfold get.
    destruct (Joi.is_child children k) eqn:Hchild.
    + rewrite !lookup_filter_kept by exact Hchild.
      apply (Hkeys k). apply HK.
      exact (is_child_keys JSON_parse uri_regex _ _ Hchild).
    + now rewrite !lookup_filter_dropped by exact Hchild.
  - intros k Hk. apply lookup_filter_known in Hk.
    exact (is_child_keys JSON_parse uri_regex _ _ Hk).
Qed.

(** *** Argument lists *)

Lemma checkItems_any_inv (path : list jsval) :
  forall items i out,
    Joi.checkItems validate_options
      (@nil (list jsval -> jsval -> result Joi.outcome)) true path i items
    = Ok (out, []) ->
    out = items /\ Forall (fun v => v <> VUndefined) items.
Proof.
  induction items as [| item rest IH]; intros i out H.
  - cbn in H. injection H as <-. split; [reflexivity | constructor].
  - cbn [Joi.checkItems] in H.
    specialize (IH (S i)).
    match type of H with
    | context [Joi.checkItems ?o ?incl ?w ?p ?n ?r] =>
        destruct (Joi.checkItems o incl w p n r) as [[rest' e'] |]
    end.
    + specialize (IH rest').
      destruct item; cbn in H; try discriminate H;
        injection H as <- ->; destruct (IH eq_refl) as [-> Hall];
        (split; [reflexivity | constructor; [discriminate | exact Hall]]).
    + destruct item; cbn in H; discriminate H.
Qed.

(** X20.  The lists of [args] and of an [on_change] command are checked
    for being lists and for not being empty, and for nothing else: a
    defined value is accepted exactly when it is (or, for a string, holds
    as JSON) a non-empty list without holes, whatever its elements are,
    and the list is the validated value. *)
Theorem argument_lists_are_non_empty (path : list jsval) (v v' : jsval) :
  v <> VUndefined ->
  onChangeCmdSchema = argsSchema
  /\ (V argsSchema path v = Ok (v', []) <->
      exists l,
        Joi.safeParse_array JSON_parse v = VArr l
        /\ l <> []
        /\ Forall (fun x => x <> VUndefined) l
        /\ v' = VArr l).
Proof.
  intros Hdef. split; [reflexivity |].
  unfold argsSchema, Joi.min, Joi.array_.
  rewrite validate_array, presence_defined by exact Hdef.
  cbn [map app]. unfold Joi.array_base.
  destruct (Joi.safeParse_array JSON_parse v)
    as [| | b | n | str | items | props | t] eqn:Hparse.
  6: { split.
       - match goal with
         | |- context [Joi.checkItems ?o ?incl ?w ?p ?n ?r] =>
             destruct (Joi.checkItems o incl w p n r) as [[l1 e1] |] eqn:Hci
         end; cbn [bind]; [| discriminate].
         destruct e1 as [| d e1]; cbn [is_nil bind]; [| discriminate].
         destruct (checkItems_any_inv _ _ _ _ Hci) as [-> Hall].
         destruct items as [| x items]; cbn; [discriminate |].
         intros H. injection H as <-. exists (x :: items).
         repeat split; [discriminate | exact Hall].
       - intros (l & Hl & Hne & Hall & ->). injection Hl as ->.
         rewrite (checkItems_any path l 0 Hall).
         destruct l; [contradiction | reflexivity]. }
  all: split; [cbn; discriminate | intros (l & Hl & _); discriminate Hl].
Qed.

End MoreValidation.

(** ** Normalization, once more *)

Lemma set_fresh (k : string) (v : jsval) (o : list (string * jsval)) :
  ~ In k (keys o) -> set k v o = o ++ [(k, v)].
Proof.
  induction o as [| [k0 v0] o IH]; intros Hk; [reflexivity |].
  cbn in *. destruct (String.eqb_spec k0 k) as [-> | _]; [tauto |].
  rewrite IH by tauto. reflexivity.
Qed.

Lemma keys_set (k : string) (v : jsval) (o : list (string * jsval)) :
  keys (set k v o) = keys o \/ (~ In k (keys o) /\ keys (set k v o) = keys o ++ [k]).
Proof.
  unfold keys. induction o as [| [k0 v0] o IH]; cbn.
  - right. split; [tauto | reflexivity].
  - destruct (String.eqb_spec k0 k) as [-> | Hne]; [now left |].
    cbn. destruct IH as [-> | [Hk ->]]; [now left |].
    right. split; [tauto | reflexivity].
Qed.

Lemma NoDup_keys_set (k : string) (v : jsval) (o : list (string * jsval)) :
  NoDup (keys o) -> NoDup (keys (set k v o)).
Proof.
  intros Hnd. destruct (keys_set k v o) as [-> | [Hk ->]]; [exact Hnd |].
  apply NoDup_app; [exact Hnd | repeat constructor; intros [] |].
  intros x Hx [<- | []]. contradiction.
Qed.

Lemma headed_set (k0 k : string) (v : jsval) (o : list (string * jsval)) :
  headed k0 o -> headed k0 (set k v o).
Proof.
  intros [Hnd (v0 & rest & ->)]. split; [now apply NoDup_keys_set |].
  cbn. destruct (String.eqb_spec k0 k) as [-> | _]; eauto.
Qed.

Lemma headed_assign (k0 : string) (source : list (string * jsval)) :
  forall target, headed k0 target -> headed k0 (assign target source).
Proof.
  unfold assign. induction source as [| [k v] source IH]; intros target H;
    [exact H |].
  cbn [fold_left fst snd]. apply IH. now apply headed_set.
Qed.

Lemma headed_map_on_change (k0 : string) (o : list (string * jsval)) :
  headed k0 o -> headed k0 (map_on_change o).
Proof.
  intros H. unfold map_on_change.
  destruct (truthy (get "on_change" o)); [now apply headed_set | exact H].
Qed.

(** Copying properties with fresh, distinct keys appends them. *)
Lemma assign_fresh (source : list (string * jsval)) :
  forall target,
    NoDup (keys (target ++ source)) -> assign target source = target ++ source.
Proof.
  unfold assign. induction source as [| [k v] source IH]; intros target Hnd.
  - now rewrite app_nil_r.
  - cbn [fold_left fst snd]. rewrite set_fresh.
    + rewrite IH; rewrite <- app_assoc; [reflexivity | exact Hnd].
    + unfold keys in Hnd. rewrite map_app in Hnd. cbn in Hnd.
      apply NoDup_remove_2 in Hnd. intros Hin. apply Hnd.
      apply in_or_app. now left.
Qed.

Lemma assign_headed (k : string) (v0 : jsval) (c : list (string * jsval)) :
  headed k c -> assign [(k, v0)] c = c.
Proof.
  intros [Hnd (v & rest & ->)]. unfold assign. cbn [fold_left fst snd set].
  rewrite String.eqb_refl. exact (assign_fresh rest [(k, v)] Hnd).
Qed.

Lemma set_lookup_same (k : string) (v : jsval) (o : list (string * jsval)) :
  lookup k o = Some v -> set k v o = o.
Proof.
  induction o as [| [k0 v0] o IH]; cbn; [discriminate |].
  destruct (String.eqb_spec k0 k) as [-> | _].
  - intros H. now injection H as ->.
  - intros H. now rewrite IH.
Qed.

Lemma truthy_lookup (k : string) (o : list (string * jsval)) :
  truthy (get k o) = true -> lookup k o = Some (get k o).
Proof. unfold get. now destruct (lookup k o). Qed.

Lemma mapOnChange_idempotent (v : jsval) :
  mapOnChange (mapOnChange v) = mapOnChange v.
Proof. now destruct v. Qed.

Lemma mapOnChange_truthy (v : jsval) :
  truthy v = true -> truthy (mapOnChange v) = true.
Proof. now destruct v. Qed.

(** The [on_change] of an object that went through [map_on_change] is in
    object form already. *)
Lemma on_change_mapped (o : list (string * jsval)) :
  mapOnChange (get "on_change" (map_on_change o))
  = get "on_change" (map_on_change o).
Proof.
  unfold map_on_change. destruct (truthy (get "on_change" o)) eqn:E.
  - rewrite get_set_same. apply mapOnChange_idempotent.
  - destruct (get "on_change" o); try reflexivity; discriminate E.
Qed.

Lemma map_on_change_fixed (o : list (string * jsval)) :
  mapOnChange (get "on_change" o) = get "on_change" o ->
  map_on_change o = o.
Proof.
  intros H. unfold map_on_change.
  destruct (truthy (get "on_change" o)) eqn:E; [| reflexivity].
  rewrite H. apply set_lookup_same. now apply truthy_lookup.
Qed.

(** What the three functions make of their argument before anything else. *)
Lemma initial_object (k : string) (v : jsval) (curV : list (string * jsval)) :
  match v with
  | VStr _ => Ok (set k v [(k, VNull)])
  | _ => assign_from [(k, VNull)] v
  end = Ok curV ->
  headed k curV.
Proof.
  assert (H0 : headed k [(k, VNull)]).
  { split; [repeat constructor; intros [] | eauto]. }
  destruct v; cbn [assign_from]; intros H; try discriminate H;
    injection H as <-; try exact H0.
  - exact (headed_set k k (VStr s) [(k, VNull)] H0).
  - exact (headed_assign k props [(k, VNull)] H0).
Qed.

Lemma initial_object_again (k : string) (c : list (string * jsval)) :
  headed k c -> assign_from [(k, VNull)] (VObj c) = Ok c.
Proof. intros H. cbn. now rewrite assign_headed. Qed.

Section Idempotence.

Variable new_URL : string -> result url.

(** X9.  Normalizing an entry that is already normalized changes nothing:
    each of [mapFilePath], [mapFile] and [mapDataSource] returns its own
    result when it is applied to it. *)
Theorem normalization_is_idempotent (v out : jsval) :
  (mapFilePath v = Ok out -> mapFilePath out = Ok out)
  /\ (mapFile v = Ok out -> mapFile out = Ok out)
  /\ (mapDataSource new_URL v = Ok out -> mapDataSource new_URL out = Ok out).
Proof.
  split; [| split].
  - unfold mapFilePath.
    destruct (match v with
              | VStr _ => Ok (set "path" v [("path", VNull)])
              | _ => assign_from [("path", VNull)] v
              end) as [curV |] eqn:Hcur; cbn [bind]; [| discriminate].
    intros H. injection H as <-.
    pose proof (headed_map_on_change _ _ (initial_object _ _ _ Hcur)) as Hh.
    rewrite (initial_object_again _ _ Hh). cbn [bind].
    rewrite (map_on_change_fixed _ (on_change_mapped curV)). reflexivity.
  - unfold mapFile.
    destruct (match v with
              | VStr _ => Ok (set "input_path" v [("input_path", VNull)])
              | _ => assign_from [("input_path", VNull)] v
              end) as [curV |] eqn:Hcur; cbn [bind]; [| discriminate].
    pose proof (headed_map_on_change _ _ (initial_object _ _ _ Hcur)) as Hh.
    pose proof (on_change_mapped curV) as Hoc.
    set (c := map_on_change curV) in *.
    destruct (truthy (get "output_path" c)) eqn:Hout.
    + destruct (Lodash.template (get "output_path" c) templateInterpolateReg)
        as [m |] eqn:Hm; cbn [bind]; [| discriminate].
      intros H. injection H as <-.
      rewrite (initial_object_again _ _ (headed_set _ "makeOutputPath" m _ Hh)).
      cbn [bind].
      rewrite map_on_change_fixed
        by (rewrite get_set_other by discriminate; exact Hoc).
      rewrite get_set_other by discriminate. rewrite Hout, Hm. cbn [bind].
      rewrite (set_lookup_same _ _ _ (lookup_set_same "makeOutputPath" m c)).
      reflexivity.
    + intros H. injection H as <-.
      rewrite (initial_object_again _ _ Hh). cbn [bind].
      rewrite (map_on_change_fixed _ Hoc), Hout. reflexivity.
  - unfold mapDataSource.
    destruct (match v with
              | VStr _ => Ok (set "url" v [("url", VNull)])
              | _ => assign_from [("url", VNull)] v
              end) as [curV |] eqn:Hcur; cbn [bind]; [| discriminate].
    pose proof (headed_map_on_change _ _ (initial_object _ _ _ Hcur)) as Hh.
    pose proof (on_change_mapped curV) as Hoc.
    set (c := map_on_change curV) in *.
    destruct (URL_of new_URL (get "url" c)) as [u |] eqn:Hu; cbn [bind];
      [| discriminate].
    destruct (startsWith "file" (protocol u)) eqn:Hfile.
    + set (c1 := set "path" (VStr (pathname u)) c).
      destruct (Lodash.template (get "alias" c1) templateInterpolateReg)
        as [m |] eqn:Hm; cbn [bind]; [| discriminate].
      intros H. injection H as <-.
      assert (Hh1 : headed "url" (set "makeAlias" m c1))
        by (apply headed_set, headed_set, Hh).
      rewrite (initial_object_again _ _ Hh1). cbn [bind].
      rewrite map_on_change_fixed
        by (unfold c1; rewrite !get_set_other by discriminate; exact Hoc).
      assert (Hurl : get "url" (set "makeAlias" m c1) = get "url" c)
        by (unfold c1; now rewrite !get_set_other by discriminate).
      rewrite Hurl, Hu. cbn [bind]. rewrite Hfile.
      assert (Hpath : set "path" (VStr (pathname u)) (set "makeAlias" m c1)
                      = set "makeAlias" m c1).
      { apply set_lookup_same. rewrite lookup_set_other by discriminate.
        apply lookup_set_same. }
      rewrite Hpath. rewrite get_set_other by discriminate.
      rewrite Hm. cbn [bind].
      rewrite (set_lookup_same _ _ _ (lookup_set_same "makeAlias" m c1)).
      reflexivity.
    + intros H. injection H as <-.
      rewrite (initial_object_again _ _ Hh). cbn [bind].
      rewrite (map_on_change_fixed _ Hoc), Hu. cbn [bind].
      now rewrite Hfile.
Qed.

End Idempotence.

(** ** The result of [parseConfig] *)


Lemma map_result_all {A B} (f : A -> result B) (P : B -> Prop) :
  (forall x y, f x = Ok y -> P y) ->
  forall l l', map_result f l = Ok l' -> Forall P l'.
Proof.
  intros HP l l' H. apply map_result_Forall2 in H.
  induction H as [| x y l l' Hxy _ IH]; constructor; eauto.
Qed.

Lemma Forall_filter {A} (P : A -> Prop) (p : A -> bool) (l : list A) :
  Forall P l -> Forall P (filter p l).
Proof.
  induction 1 as [| x l Hx _ IH]; cbn; [constructor |].
  destruct (p x); [now constructor | exact IH].
Qed.

Lemma template_error (v : jsval) (e : exn) :
  Lodash.template v templateInterpolateReg = Throw e ->
  (exists message, e = SyntaxError message)
  \/ exists what, e = Unmodelled what.
Proof.
  assert (Hcompile : forall t,
            Lodash.compile t = Throw e ->
            (exists message, e = SyntaxError message)
            \/ exists what, e = Unmodelled what).
  { intros t. unfold Lodash.compile.
    destruct (existsb _ (Lodash.placeholders t)).
    - intros H. injection H as <-. left. eauto.
    - destruct (forallb Lodash.parsed (Lodash.placeholders t));
        [discriminate |].
      intros H. injection H as <-. right. eauto. }
  unfold Lodash.template. destruct v; try apply Hcompile;
    try (intros H; injection H as <-; right; eauto).
  destruct (occurs "<%" s); [| apply Hcompile].
  intros H; injection H as <-; right; eauto.
Qed.

Lemma initial_object_error (k : string) (v : jsval) (e : exn) :
  match v with
  | VStr _ => Ok (set k v [(k, VNull)])
  | _ => assign_from [(k, VNull)] v
  end = Throw e ->
  exists what, e = Unmodelled what.
Proof.
  destruct v; cbn; try discriminate; intros H; injection H as <-; eauto.
Qed.

Lemma mapFilePath_result (v : jsval) :
  match mapFilePath v with
  | Ok out => is_object out
  | Throw e => exists what, e = Unmodelled what
  end.
Proof.
  unfold mapFilePath.
  destruct (match v with
            | VStr _ => Ok (set "path" v [("path", VNull)])
            | _ => assign_from [("path", VNull)] v
            end) as [curV | e] eqn:Hcur; cbn [bind]; [exact I |].
  exact (initial_object_error _ _ _ Hcur).
Qed.

Lemma mapFile_result (v : jsval) :
  match mapFile v with
  | Ok out => is_object out
  | Throw e =>
      (exists message, e = SyntaxError message)
      \/ exists what, e = Unmodelled what
  end.
Proof.
  unfold mapFile.
  destruct (match v with
            | VStr _ => Ok (set "input_path" v [("input_path", VNull)])
            | _ => assign_from [("input_path", VNull)] v
            end) as [curV | e] eqn:Hcur; cbn [bind];
    [| right; exact (initial_object_error _ _ _ Hcur)].
  destruct (truthy _); [| exact I].
  destruct (Lodash.template _ _) as [m | e] eqn:Hm; cbn [bind]; [exact I |].
  exact (template_error _ _ Hm).
Qed.

Section Result.

Variable JSON_parse : string -> option jsval.
Variable uri_regex : string -> bool.
Variable new_URL : string -> result url.
Variable YAML_parse : string -> result jsval.

Local Abbreviation V := (Joi._validate JSON_parse uri_regex validate_options).
Local Abbreviation parse :=
  (parseConfig JSON_parse uri_regex new_URL YAML_parse).

Lemma mapDataSource_result (v : jsval) :
  match mapDataSource new_URL v with
  | Ok out => is_object out
  | Throw e =>
      (exists input, new_URL input = Throw e)
      \/ (exists message, e = SyntaxError message)
      \/ exists what, e = Unmodelled what
  end.
Proof.
  unfold mapDataSource.
  destruct (match v with
            | VStr _ => Ok (set "url" v [("url", VNull)])
            | _ => assign_from [("url", VNull)] v
            end) as [curV | e] eqn:Hcur; cbn [bind];
    [| right; right; exact (initial_object_error _ _ _ Hcur)].
  destruct (URL_of new_URL _) as [u | e] eqn:Hu; cbn [bind].
  - destruct (startsWith "file" (protocol u)); [| exact I].
    destruct (Lodash.template _ _) as [m | e] eqn:Hm; cbn [bind]; [exact I |].
    right. exact (template_error _ _ Hm).
  - unfold URL_of in Hu.
    destruct (get "url" (map_on_change curV)) as [| | [] | | | | |];
      eauto; injection Hu as <-; eauto.
Qed.

(** [normalize_item] on a validated item, step by step. *)
Lemma normalize_item_steps (o : list (string * jsval)) :
  validated_item (VObj o) ->
  exists ds deps tpls fls,
    get "datasources" o = VArr ds
    /\ get "dependencies" o = VArr deps
    /\ get "templates" o = VArr tpls
    /\ get "files" o = VArr fls
    /\ normalize_item new_URL (VObj o)
       = (datasources <- map_result (mapDataSource new_URL) ds ;;
          dependencies <- map_result mapFilePath deps ;;
          templates <- map_result mapFilePath tpls ;;
          files <- map_result mapFile fls ;;
          Ok (VObj
                (set "files" (VArr files)
                   (set "templates" (VArr templates)
                      (set "dependencies" (VArr dependencies)
                         (set "otherDataSources"
                            (VArr (filter (fun v => negb (has_path v))
                                     datasources))
                            (set "fileDataSources"
                               (VArr (filter has_path datasources))
                               (map_on_change o)))))))).
Proof.
  intros (o0 & Ho & _ & _ & Hlists). injection Ho as <-.
  destruct (Hlists "datasources") as [ds Hds]; [cbn; tauto |].
  destruct (Hlists "dependencies") as [deps Hdeps]; [cbn; tauto |].
  destruct (Hlists "templates") as [tpls Htpls]; [cbn; tauto |].
  destruct (Hlists "files") as [fls Hfls]; [cbn; tauto |].
  exists ds, deps, tpls, fls. repeat split; try assumption.
  unfold normalize_item.
  rewrite (get_map_on_change "datasources" o) by discriminate.
  rewrite Hds. cbn [array_map].
  destruct (map_result (mapDataSource new_URL) ds) as [sources |];
    cbn [bind]; [| reflexivity].
  unfold Lodash.partition.
  rewrite !get_set_other by discriminate.
  rewrite (get_map_on_change "dependencies" o) by discriminate.
  rewrite Hdeps. cbn [array_map].
  destruct (map_result mapFilePath deps) as [dependencies |]; cbn [bind];
    [| reflexivity].
  rewrite !get_set_other by discriminate.
  rewrite (get_map_on_change "templates" o) by discriminate.
  rewrite Htpls. cbn [array_map].
  destruct (map_result mapFilePath tpls) as [templates |]; cbn [bind];
    [| reflexivity].
  rewrite !get_set_other by discriminate.
  rewrite (get_map_on_change "files" o) by discriminate.
  rewrite Hfls. cbn [array_map]. reflexivity.
Qed.

Lemma normalize_item_shape (v item : jsval) :
  validated_item v ->
  normalize_item new_URL v = Ok item ->
  normalized_item item.
Proof.
  intros Hv. pose proof Hv as (o & -> & Hkeys & (b & Hb) & _).
  destruct (normalize_item_steps o Hv)
    as (ds & deps & tpls & fls & _ & _ & _ & _ & ->).
  destruct (map_result (mapDataSource new_URL) ds) as [sources |] eqn:Hs;
    cbn [bind]; [| discriminate].
  destruct (map_result mapFilePath deps) as [dependencies |] eqn:Hd;
    cbn [bind]; [| discriminate].
  destruct (map_result mapFilePath tpls) as [templates |] eqn:Ht;
    cbn [bind]; [| discriminate].
  destruct (map_result mapFile fls) as [files |] eqn:Hf; cbn [bind];
    [| discriminate].
  intros H. injection H as <-.
  assert (Hsources : Forall is_object sources).
  { refine (map_result_all _ _ _ _ _ Hs). intros x y Hxy.
    pose proof (mapDataSource_result x) as Hx. now rewrite Hxy in Hx. }
  assert (Hpaths : forall l l',
            map_result mapFilePath l = Ok l' -> Forall is_object l').
  { apply map_result_all. intros x y Hxy.
    pose proof (mapFilePath_result x) as Hx. now rewrite Hxy in Hx. }
  assert (Hfiles : Forall is_object files).
  { refine (map_result_all _ _ _ _ _ Hf). intros x y Hxy.
    pose proof (mapFile_result x) as Hx. now rewrite Hxy in Hx. }
  eexists. split; [reflexivity |]. split; [| split].
  - intros k Hk.
    repeat (apply lookup_set_keys in Hk as [-> | Hk];
            [cbn; tauto |]).
    destruct (String.eqb_spec k "on_change") as [-> | Hne]; [cbn; tauto |].
    rewrite lookup_map_on_change in Hk by exact Hne.
    apply in_or_app. left. now apply Hkeys.
  - exists b. rewrite !get_set_other by discriminate.
    now rewrite get_map_on_change by discriminate.
  - intros k Hk. cbn in Hk.
    destruct Hk as [<- | [<- | [<- | [<- | [<- | []]]]]];
      eexists;
      (split;
       [rewrite ?get_set_other by discriminate; apply get_set_same |]);
      eauto using Forall_filter.
Qed.


(** The accepted document and the validated items. *)
Lemma parse_steps (conf : string) (raw : jsval) :
  YAML_parse conf = Ok raw ->
  raw <> VUndefined ->
  (exists d details, parse conf = Throw (ValidationError (d :: details)))
  \/ exists l,
      l <> []
      /\ Forall2 (fun d v => exists p, V ConfigItemSchema p d = Ok (v, []))
           (document_items JSON_parse raw) l
      /\ Forall validated_item l
      /\ parse conf = map_result (normalize_item new_URL) l.
Proof.
  intros Hyaml Hdef.
  destruct (total_ConfigSchema JSON_parse uri_regex [] raw)
    as [[value errors] Hv].
  destruct errors as [| d errors].
  - right.
    destruct (config_accepted JSON_parse uri_regex raw value Hdef Hv)
      as (l & -> & Hne & Hitems).
    exists l. split; [exact Hne |]. split; [exact Hitems |]. split.
    + destruct (array_accepted JSON_parse uri_regex _ _ _ _ _ _ _ _
                  (item_validated JSON_parse uri_regex) Hdef Hv)
        as (l' & Hl' & Hall).
      injection Hl' as <-. exact Hall.
    + unfold parseConfig, Joi.validate. rewrite Hyaml. cbn [bind].
      rewrite Hv. reflexivity.
  - left. exists d, errors.
    exact (parseConfig_rejects JSON_parse uri_regex new_URL YAML_parse conf
             raw value d errors Hyaml Hv).
Qed.

Lemma parse_undefined (conf : string) :
  YAML_parse conf = Ok VUndefined ->
  parse conf = Throw (TypeError "map is not a function").
Proof.
  intros Hyaml. unfold parseConfig. rewrite Hyaml. reflexivity.
Qed.

(** X14.  Every item that [parseConfig] returns is an object that holds
    only the keys of the schema and the two lists of normalized data
    sources; its [watch] is a boolean, and its [dependencies],
    [templates], [files], [fileDataSources] and [otherDataSources] are
    lists of objects: no entry is left in its short form. *)
Theorem returned_items_are_normalized (conf : string) (items : list jsval) :
  parse conf = Ok items ->
  Forall normalized_item items.
Proof.
  intros H.
  destruct (YAML_parse conf) as [raw | e] eqn:Hyaml.
  2:{ unfold parseConfig in H. rewrite Hyaml in H. discriminate H. }
  assert (Hdef : raw <> VUndefined).
  { intros ->. rewrite (parse_undefined conf Hyaml) in H. discriminate H. }
  destruct (parse_steps conf raw Hyaml Hdef)
    as [(d & details & Hrej) | (l & _ & _ & Hall & Hparse)].
  - rewrite Hrej in H. discriminate H.
  - rewrite Hparse in H. apply map_result_Forall2 in H.
    clear Hparse. induction H as [| v item l items Hv _ IH];
      [constructor |].
    inversion Hall as [| ? ? Hitem Hrest]; subst.
    constructor; [exact (normalize_item_shape v item Hitem Hv) | exact (IH Hrest)].
Qed.

(** X15.  [parseConfig] returns one configuration per item of the
    document, and at least one: one for a document that is a single
    object, and as many as the list has elements for a document that is a
    list, which is then not empty. *)
Theorem one_configuration_per_item (conf : string) (raw : jsval)
  (items : list jsval) :
  YAML_parse conf = Ok raw ->
  parse conf = Ok items ->
  items <> []
  /\ List.length items = List.length (document_items JSON_parse raw)
  /\ (forall o, raw = VObj o -> List.length items = 1)
  /\ (forall l, raw = VArr l -> List.length items = List.length l /\ l <> []).
Proof.
  intros Hyaml H.
  assert (Hdef : raw <> VUndefined).
  { intros ->. rewrite (parse_undefined conf Hyaml) in H. discriminate H. }
  destruct (parse_steps conf raw Hyaml Hdef)
    as [(d & details & Hrej) | (l & Hne & Hitems & _ & Hparse)].
  { rewrite Hrej in H. discriminate H. }
  rewrite Hparse in H. apply map_result_Forall2 in H.
  apply Forall2_length in H, Hitems.
  assert (Hlen : List.length items = List.length (document_items JSON_parse raw))
    by congruence.
  assert (Hitems_ne : items <> []).
  { intros ->. destruct l; [contradiction | discriminate H]. }
  split; [exact Hitems_ne |]. split; [exact Hlen |]. split.
  - intros o ->. exact Hlen.
  - intros l0 ->. cbn in Hlen. split; [exact Hlen |].
    intros ->. destruct items; [contradiction | discriminate Hlen].
Qed.


End Result.

(** ** The further properties on concrete inputs *)

Lemma rebuilt_argument_vector_witness :
  let args := [("t", VArr [VStr "a.tpl"; VStr "b.tpl"]);
               ("d", VStr "conf=https://example.com/y"); ("V", VBool true)] in
  let arr := [VStr "-t"; VStr "a.tpl"; VStr "-t"; VStr "b.tpl";
              VStr "-d"; VStr "conf=https://example.com/y";
              VStr "-V"; VBool true] in
  arr = argv_of args
  /\ (arr = [] <-> Forall (fun k => get k args = VArr []) (keys args)).
Proof.
  apply (rebuilt_argument_vector Sample.new_URL
           [("t", VArr [VStr "a.tpl"; VStr "b.tpl"]);
            ("d", VStr "conf=https://example.com/y"); ("V", VBool true)]
           _ [VStr "a.tpl"; VStr "b.tpl"]).
  reflexivity.
Defined.

Lemma config_deps_form_a_set_witness :
  let args := [("t", VArr [VStr "a.tpl"; VStr "a.tpl"]);
               ("f", VStr "a.tpl");
               ("d", VStr "conf=file:///data/x.json")] in
  let deps := [VStr "a.tpl"; VStr "/data/x.json"] in
  set_members deps
  /\ Forall (fun d => truthy d = true) deps
  /\ (forall k s,
        In k (keys args) -> k = "t" \/ k = "f" -> get k args = VStr s ->
        s <> EmptyString -> In (VStr s) deps).
Proof.
  apply (config_deps_form_a_set Sample.new_URL
           [("t", VArr [VStr "a.tpl"; VStr "a.tpl"]);
            ("f", VStr "a.tpl");
            ("d", VStr "conf=file:///data/x.json")]
           [VStr "-t"; VStr "a.tpl"; VStr "-t"; VStr "a.tpl";
            VStr "-f"; VStr "a.tpl";
            VStr "-d"; VStr "conf=file:///data/x.json"]).
  reflexivity.
Defined.

Lemma argument_error_precedes_execution_witness :
  exists e,
    getConfig Sample.new_URL
      (Sample.argsparse
         [("gomplate -t a.tpl -d",
           [("_", VArr [VStr "gomplate"]); ("t", VStr "a.tpl");
            ("d", VBool true)])])
      Sample.path_parse Sample.path_join (Sample.readFile [])
      (Sample.execFile [])
      {| CONFIG_TEMPLATE_ARGS := Some "gomplate -t a.tpl -d";
         CONFIG_PATH := None |}
      None
    = ([], Throw e).
Proof.
  refine (proj2 (argument_error_precedes_execution Sample.new_URL
                   (Sample.argsparse
                      [("gomplate -t a.tpl -d",
                        [("_", VArr [VStr "gomplate"]); ("t", VStr "a.tpl");
                         ("d", VBool true)])])
                   Sample.path_parse Sample.path_join (Sample.readFile [])
                   (Sample.execFile [])
                   {| CONFIG_TEMPLATE_ARGS := Some "gomplate -t a.tpl -d";
                      CONFIG_PATH := None |}
                   None "gomplate -t a.tpl -d" (VStr "gomplate")
                   eq_refl _ eq_refl eq_refl) _ _ _).
  - discriminate.
  - vm_compute. right. now left.
  - intros s. vm_compute. discriminate.
  - intros l. vm_compute. discriminate.
Defined.

Lemma d_flag_url_follows_first_equals_witness :
  getPathFromArg Sample.new_URL "d" (VStr "conf=file:///data/a=b.json")
  = Ok (VStr "/data/a=b.json")
  /\ getPathFromArg Sample.new_URL "d" (VStr "conf")
     = Throw (TypeError "Invalid URL").
Proof.
  exact (d_flag_url_follows_first_equals Sample.new_URL "conf"
           "file:///data/a=b.json" eq_refl).
Defined.

Lemma both_variables_set_always_fails_witness :
  let run :=
    getConfig Sample.new_URL (Sample.argsparse gomplate_flag_t)
      Sample.path_parse Sample.path_join (Sample.readFile watcher_files)
      (Sample.execFile [])
      {| CONFIG_TEMPLATE_ARGS := Some "gomplate -t tmpl.tpl";
         CONFIG_PATH := Some "/etc/watcher/config" |}
      (Some "/etc/watcher/config") in
  run = ([], Throw (Error (conflict_message "gomplate -t tmpl.tpl")))
  \/ run = ([], Throw (ReferenceError "value")).
Proof.
  apply (both_variables_set_always_fails Sample.new_URL
           (Sample.argsparse gomplate_flag_t)
           Sample.path_parse Sample.path_join (Sample.readFile watcher_files)
           (Sample.execFile [])
           {| CONFIG_TEMPLATE_ARGS := Some "gomplate -t tmpl.tpl";
              CONFIG_PATH := Some "/etc/watcher/config" |}
           (Some "/etc/watcher/config") "gomplate -t tmpl.tpl"
           "/etc/watcher/config");
    (reflexivity || discriminate).
Defined.




Lemma normalization_is_idempotent_witness :
  let dependency :=
    VObj [("path", VStr "a.tpl");
          ("on_change",
           VObj [("command", VArr [VStr "make"]); ("stdout", VBool false);
                 ("stderr", VBool true)])] in
  let file :=
    VObj [("input_path", VStr "in.tpl");
          ("output_path", VStr "out-[name].txt");
          ("makeOutputPath",
           VTemplate [Lit "out-"; Interp "name"; Lit ".txt"])] in
  let source :=
    VObj [("url", VStr "file:///data/x.json"); ("alias", VStr "data1");
          ("path", VStr "/data/x.json");
          ("makeAlias", VTemplate [Lit "data1"])] in
  mapFilePath dependency = Ok dependency
  /\ mapFile file = Ok file
  /\ mapDataSource Sample.new_URL source = Ok source.
Proof.
  split; [| split].
  - apply (proj1 (normalization_is_idempotent Sample.new_URL
                    (VObj [("path", VStr "a.tpl");
                           ("on_change", VArr [VStr "make"])]) _)).
    reflexivity.
  - apply (proj1 (proj2 (normalization_is_idempotent Sample.new_URL
                           (VObj [("input_path", VStr "in.tpl");
                                  ("output_path", VStr "out-[name].txt")])
                           _))).
    reflexivity.
  - apply (proj2 (proj2 (normalization_is_idempotent Sample.new_URL
                           (VObj aliased_source) _))).
    reflexivity.
Defined.

Lemma on_change_forms_agree_witness :
  let cmd := [VStr "nginx"; VStr "-s"; VStr "reload"] in
  let canonical :=
    VObj [("command", VArr cmd); ("stdout", VBool false);
          ("stderr", VBool true)] in
  exists list_form object_form,
    Joi._validate Sample.JSON_parse Sample.uri_regex validate_options
      onChangeSchema [] (VArr cmd) = Ok (list_form, [])
    /\ Joi._validate Sample.JSON_parse Sample.uri_regex validate_options
         onChangeSchema [] (VObj [("command", VArr cmd)])
       = Ok (object_form, [])
    /\ mapOnChange list_form = canonical
    /\ mapOnChange object_form = canonical
    /\ mapOnChange canonical = canonical.
Proof.
  apply (on_change_forms_agree Sample.JSON_parse Sample.uri_regex []
           [VStr "nginx"; VStr "-s"; VStr "reload"]).
  - discriminate.
  - repeat constructor; discriminate.
Defined.


Lemma shorthand_url_is_not_checked_witness :
  Joi._validate Sample.JSON_parse Sample.uri_regex validate_options
    DataSourceSchema [] (VStr "data.json") = Ok (VStr "data.json", [])
  /\ rejected Sample.JSON_parse Sample.uri_regex DataSourceSchema []
       (VObj [("url", VStr "data.json")])
  /\ parseConfig Sample.JSON_parse Sample.uri_regex Sample.new_URL
       (Sample.YAML_parse relative_url_document) "datasources: [data.json]"
     = Throw (TypeError "Invalid URL").
Proof.
  destruct (shorthand_url_is_not_checked Sample.JSON_parse Sample.uri_regex
              Sample.new_URL (Sample.YAML_parse relative_url_document) []
              "data.json" ltac:(discriminate) eq_refl)
    as (Hshort & Hlong & Hparse).
  split; [exact Hshort |]. split; [exact Hlong |].
  exact (Hparse (TypeError "Invalid URL") "datasources: [data.json]"
           eq_refl eq_refl).
Defined.

Lemma absent_keys_take_defaults_witness :
  exists o',
    VObj [("datasources", VArr [VStr "https://example.com/y"]);
          ("watch", VBool false); ("dependencies", VArr []);
          ("templates", VArr []); ("files", VArr [])]
    = VObj o'
    /\ (forall k, lookup k o' <> None -> In k item_keys)
    /\ (get "watch"
          [("datasources", VArr [VStr "https://example.com/y"]);
           ("extra", VNum 1)] = VUndefined ->
        get "watch" o' = VBool false)
    /\ (forall k, In k list_keys ->
          get k [("datasources", VArr [VStr "https://example.com/y"]);
                 ("extra", VNum 1)] = VUndefined ->
          get k o' = VArr []).
Proof.
  apply (absent_keys_take_defaults Sample.JSON_parse Sample.uri_regex []
           [("datasources", VArr [VStr "https://example.com/y"]);
            ("extra", VNum 1)]).
  vm_compute. reflexivity.
Defined.

Lemma returned_items_are_normalized_witness :
  exists items,
    parseConfig Sample.JSON_parse Sample.uri_regex Sample.new_URL
      (Sample.YAML_parse two_item_document)
      "[{templates: [a.tpl], files: [{input_path: in.tpl, output_path: 'out-[name].txt'}]}, {watch: true}]"
    = Ok items
    /\ Forall normalized_item items.
Proof.
  eexists. split; [vm_compute; reflexivity |].
  apply (returned_items_are_normalized Sample.JSON_parse Sample.uri_regex
           Sample.new_URL (Sample.YAML_parse two_item_document)
           "[{templates: [a.tpl], files: [{input_path: in.tpl, output_path: 'out-[name].txt'}]}, {watch: true}]").
  vm_compute. reflexivity.
Defined.

Lemma one_configuration_per_item_witness :
  exists items,
    parseConfig Sample.JSON_parse Sample.uri_regex Sample.new_URL
      (Sample.YAML_parse two_item_document)
      "[{templates: [a.tpl], files: [{input_path: in.tpl, output_path: 'out-[name].txt'}]}, {watch: true}]"
    = Ok items
    /\ List.length items = 2.
Proof.
  eexists. split; [vm_compute; reflexivity |].
  refine (proj1 (proj2 (one_configuration_per_item Sample.JSON_parse
                          Sample.uri_regex Sample.new_URL
                          (Sample.YAML_parse two_item_document)
                          "[{templates: [a.tpl], files: [{input_path: in.tpl, output_path: 'out-[name].txt'}]}, {watch: true}]"
                          _ _ eq_refl _))).
  vm_compute. reflexivity.
Defined.


Lemma unique_lists_accept_distinct_entries_witness :
  let ds := [VStr "https://example.com/d.json";
             VObj [("url", VStr "https://example.com/e.json")];
             VObj [("url", VStr "https://example.com/d.json")]] in
  (exists children,
      ConfigItemSchema = Joi.object_ children
      /\ In ("datasources", list_field DataSourceSchema "url") children)
  /\ (exists out,
        Joi._validate Sample.JSON_parse Sample.uri_regex validate_options
          (list_field DataSourceSchema "url") [VStr "datasources"] (VArr ds)
        = Ok (VArr out,
              match duplicate_position "url" [] 0 ds with
              | Some p =>
                  [Joi.err ([VStr "datasources"] ++ [Joi.index p])
                     "array.unique"]
              | None => []
              end))
  /\ (duplicate_position "url" [] 0 ds = None <-> distinct_on "url" ds).
Proof.
  apply (unique_lists_accept_distinct_entries Sample.JSON_parse
           Sample.uri_regex "datasources" DataSourceSchema "url"
           [VStr "datasources"]
           [VStr "https://example.com/d.json";
            VObj [("url", VStr "https://example.com/e.json")];
            VObj [("url", VStr "https://example.com/d.json")]]).
  - cbn. tauto.
  - reflexivity.
  - repeat constructor; try discriminate; intros path; eexists;
      vm_compute; reflexivity.
Defined.

Lemma unknown_keys_are_ignored_witness :
  let o1 := [("watch", VBool true); ("templates", VArr [VStr "a.tpl"])] in
  let o2 := [("wacth", VBool false); ("watch", VBool true);
             ("templates", VArr [VStr "a.tpl"]); ("comment", VStr "x")] in
  exists o1' o2' errors,
    Joi._validate Sample.JSON_parse Sample.uri_regex validate_options
      ConfigItemSchema [] (VObj o1) = Ok (VObj o1', errors)
    /\ Joi._validate Sample.JSON_parse Sample.uri_regex validate_options
         ConfigItemSchema [] (VObj o2) = Ok (VObj o2', errors)
    /\ (forall k, get k o1' = get k o2')
    /\ (forall k, lookup k o1' <> None -> In k item_keys).
Proof.
  apply (unknown_keys_are_ignored Sample.JSON_parse Sample.uri_regex []
           [("watch", VBool true); ("templates", VArr [VStr "a.tpl"])]
           [("wacth", VBool false); ("watch", VBool true);
            ("templates", VArr [VStr "a.tpl"]); ("comment", VStr "x")]).
  intros k Hk. cbn in Hk.
  destruct Hk as [<- | [<- | [<- | [<- | [<- | [<- | [<- | []]]]]]]];
    reflexivity.
Defined.

Lemma argument_lists_are_non_empty_witness :
  let args := VArr [VStr "--verbose"; VNum 3] in
  onChangeCmdSchema = argsSchema
  /\ (Joi._validate Sample.JSON_parse Sample.uri_regex validate_options
        argsSchema [VStr "args"] args = Ok (args, []) <->
      exists l,
        Joi.safeParse_array Sample.JSON_parse args = VArr l
        /\ l <> []
        /\ Forall (fun x => x <> VUndefined) l
        /\ args = VArr l).
Proof.
  apply (argument_lists_are_non_empty Sample.JSON_parse Sample.uri_regex
           [VStr "args"] (VArr [VStr "--verbose"; VNum 3])
           (VArr [VStr "--verbose"; VNum 3])).
  discriminate.
Defined.
